(** * Mython: lexer, runtime objects and AST evaluator

    A shallow embedding of the C++ sources of the interpreter:

    - [parse]   : the line-buffered lexer, [src/lexer.cpp] lines 1-299
                  ([Lexer::NextToken] over [Lexer::TextLine::ReadLine]);
                  the older character-at-a-time draft that follows it in the
                  same file (lines 300-535) is embedded as far as its
                  treatment of comparison operators goes ([parse_draft]).
                  [token_operators] holds [operator==], [operator!=] and
                  [operator<<] of lines 13-78.
    - [runtime] : the object model.  The repository holds two versions of
                  [runtime.cpp]: [src/runtime.cpp] lines 1-184 and
                  [src/unnamed/part_000].  Both are embedded; a value of type
                  [runtime.Unit] says which one a program is linked against.
    - [ast]     : the AST nodes of [statement.cpp], [src/runtime.cpp]
                  lines 185-502.

    Integers of C++ type [int] are modelled by [Z] with the range written
    out; text by [list ascii] (streams) and [string] (values); hash maps by
    [gmap].  Class instances live in a store by address; where the code
    goes through a raw pointer to one ([NewInstance::Execute],
    [FieldAssignment::Execute]) the embedding asks whether an owning holder
    of it is left ([runtime.alive]). *)

From Stdlib Require Import ZArith Ascii String DecimalString Lia.
From Stdlib Require DecimalZ.
From stdpp Require Import gmap strings list.

Local Open Scope Z_scope.

(** ** Results of fallible code *)

(** A C++ call either returns, throws, or has no defined behaviour (null
    dereference, integer division by zero, signed overflow, the use of an
    object that has been destroyed).  [OutOfFuel]
    is the only artefact of the embedding: loops and recursion are bounded by
    a fuel argument. *)
Inductive Outcome (E A : Type) : Type :=
| Ok (a : A)
| Throw (e : E)
| Undefined
| OutOfFuel.

Arguments Ok {E A} a.
Arguments Throw {E A} e.
Arguments Undefined {E A}.
Arguments OutOfFuel {E A}.

Definition Outcome_bind {E A B : Type} (f : A -> Outcome E B)
    (m : Outcome E A) : Outcome E B :=
  match m with
  | Ok a => f a
  | Throw e => Throw e
  | Undefined => Undefined
  | OutOfFuel => OutOfFuel
  end.

#[global] Instance Outcome_mbind (E : Type) : MBind (Outcome E) :=
  fun A B f m => Outcome_bind f m.

(** [int] is 32 bits wide on the platforms the project builds on. *)
Definition INT_MAX : Z := 2147483647.
Definition INT_MIN : Z := -2147483648.

(** ** Tokens ([lexer.h] is not part of the sources; the variants are the ones
    [operator<<] in [lexer.cpp] enumerates) *)

Module token_type.

Inductive Token : Type :=
| Number (value : Z)
| Id (value : string)
| String (value : string)
| Char (value : ascii)
| Class | Return | If | Else | Def | Newline | Print | Indent | Dedent
| And | Or | Not | Eq | NotEq | LessOrEq | GreaterOrEq
| None | True | False | Eof.

End token_type.

(** ** [std::istream] over a string buffer *)

Module stream.

(** [consumed] holds the characters already read, most recent first, so that
    [unget] can put one back.  [failbit] stands for [failbit | badbit]. *)
Record istream : Type := mk_istream {
  consumed : list ascii;
  remaining : list ascii;
  eofbit : bool;
  failbit : bool
}.

Definition from_chars (l : list ascii) : istream :=
  mk_istream [] l false false.

Definition good (s : istream) : bool := negb (eofbit s || failbit s).

(** [operator bool]: [!fail()]. *)
Definition ok (s : istream) : bool := negb (failbit s).

Definition eof (s : istream) : bool := eofbit s.

(** [in.get()]: [None] is [EOF].  On a stream that is not good the sentry
    sets [failbit]; at the end of the buffer [eofbit] and [failbit] are set. *)
Definition get (s : istream) : option ascii * istream :=
  if good s then
    match remaining s with
    | [] => (None, mk_istream (consumed s) [] true true)
    | c :: r => (Some c, mk_istream (c :: consumed s) r false false)
    end
  else (None, mk_istream (consumed s) (remaining s) (eofbit s) true).

(** [in.peek()]: at the end of the buffer only [eofbit] is set. *)
Definition peek (s : istream) : option ascii * istream :=
  if good s then
    match remaining s with
    | [] => (None, mk_istream (consumed s) [] true (failbit s))
    | c :: _ => (Some c, s)
    end
  else (None, mk_istream (consumed s) (remaining s) (eofbit s) true).

(** [in.unget()] (C++11): clears [eofbit]; does nothing more when the stream
    has failed; otherwise steps the buffer back by one character. *)
Definition unget (s : istream) : istream :=
  if failbit s then mk_istream (consumed s) (remaining s) false true
  else
    match consumed s with
    | c :: p => mk_istream p (c :: remaining s) false false
    | [] => mk_istream [] (remaining s) false true
    end.

(** The [std::istreambuf_iterator] operations [ReadString] uses act on the
    buffer and leave the state flags alone. *)
Definition buf_at_end (s : istream) : bool :=
  match remaining s with [] => true | _ => false end.

Definition buf_advance (s : istream) : istream :=
  match remaining s with
  | [] => s
  | c :: r => mk_istream (c :: consumed s) r (eofbit s) (failbit s)
  end.

End stream.

(** ** Character classes of [<cctype>] in the "C" locale *)

Definition isdigit (c : ascii) : bool :=
  let n := nat_of_ascii c in (48 <=? n)%nat && (n <=? 57)%nat.

Definition isalpha (c : ascii) : bool :=
  let n := nat_of_ascii c in
  ((65 <=? n)%nat && (n <=? 90)%nat) || ((97 <=? n)%nat && (n <=? 122)%nat).

Definition digit_value (c : ascii) : Z := Z.of_nat (nat_of_ascii c) - 48.

(** Exceptions the lexer raises: [LexerError] and, out of [std::stoi] and
    [std::vector::at], [std::out_of_range]. *)
Inductive LexException : Type :=
| LexerError (what : string)
| lex_out_of_range.

(** [std::stoi] on a string of decimal digits: the value when it fits [int],
    [std::out_of_range] otherwise. *)
Definition decimal_value (digits : list ascii) : Z :=
  fold_left (fun acc d => 10 * acc + digit_value d) digits 0.

Definition stoi (digits : list ascii) : Outcome LexException Z :=
  let v := decimal_value digits in
  if v <=? INT_MAX then Ok v else Throw lex_out_of_range.

(** ** The lexer: [src/lexer.cpp], lines 1-299 *)

Module parse.

Import stream.

Abbreviation Token := token_type.Token.
Abbreviation Result := (Outcome LexException).

(** [Lexer::TextLine]: the indent of a source line and its tokens. *)
Record TextLine : Type := mk_TextLine {
  indent_ : Z;
  tokens_ : list Token
}.

Definition is_Newline (t : Token) : bool :=
  match t with token_type.Newline => true | _ => false end.

Definition is_Eof (t : Token) : bool :=
  match t with token_type.Eof => true | _ => false end.

Definition emplace_back (line : TextLine) (t : Token) : TextLine :=
  mk_TextLine (indent_ line) (tokens_ line ++ [t]).

(** [TextLine::IsEmpty]: no tokens, or nothing but [Newline]. *)
Definition IsEmpty (line : TextLine) : bool :=
  match tokens_ line with
  | [] => true
  | ts => forallb is_Newline ts
  end.

(** [TextLine::IsEofOnly]: no tokens, or nothing but [Eof]. *)
Definition IsEofOnly (line : TextLine) : bool :=
  match tokens_ line with
  | [] => true
  | ts => forallb is_Eof ts
  end.

(** [for (; in.get() == ' '; ++space_count);] *)
Fixpoint SkipSpaces_loop (fuel : nat) (in_ : istream) (space_count : Z)
  : Z * istream :=
  let '(ch, in1) := get in_ in
  match ch, fuel with
  | Some " "%char, S fuel' => SkipSpaces_loop fuel' in1 (space_count + 1)
  | _, _ => (space_count, in1)
  end.

(** [TextLine::SkipSpaces]: counts and consumes a run of spaces; the
    character that ended the run is put back. *)
Definition SkipSpaces (in_ : istream) : Z * istream :=
  let '(space_count, in1) :=
    SkipSpaces_loop (S (length (remaining in_))) in_ 0 in
  (space_count, unget in1).

(** [for (; !(in.get() == '\n' || in.eof()););] *)
Fixpoint SkipComment_loop (fuel : nat) (in_ : istream) : istream :=
  let '(ch, in1) := get in_ in
  match ch, fuel with
  | Some "010"%char, _ => in1
  | _, S fuel' => if eof in1 then in1 else SkipComment_loop fuel' in1
  | _, O => in1
  end.

(** [TextLine::SkipComment]: consumes up to the end of the line; the newline
    is put back. *)
Definition SkipComment (in_ : istream) : istream :=
  unget (SkipComment_loop (S (length (remaining in_))) in_).

(** The body of the [while (true)] loop of [TextLine::ReadString], by
    recursion on the buffer the iterator walks.  Returns the text of the
    literal (in reverse) and the number of characters taken from the buffer,
    the closing quote included. *)
Fixpoint ReadString_loop (buf : list ascii) (begin_quote : ascii)
    (s : list ascii) (taken : nat) : Result (list ascii * nat) :=
  match buf with
  | [] => Throw (LexerError "String parsing error")
  | ch :: buf1 =>
      if Ascii.eqb ch begin_quote then Ok (s, S taken)
      else if Ascii.eqb ch "\"%char then
        match buf1 with
        | [] => Throw (LexerError "String parsing error")
        | escaped_char :: buf2 =>
            let push c := ReadString_loop buf2 begin_quote (c :: s) (S (S taken)) in
            if Ascii.eqb escaped_char "n"%char then push "010"%char
            else if Ascii.eqb escaped_char "t"%char then push "009"%char
            else if Ascii.eqb escaped_char "r"%char then push "013"%char
            else if Ascii.eqb escaped_char "034"%char then push "034"%char
            else if Ascii.eqb escaped_char "'"%char then push "'"%char
            else if Ascii.eqb escaped_char "\"%char then push "\"%char
            else Throw (LexerError
                   ("Unrecognized escape sequence \" +:+ String escaped_char EmptyString))
        end
      else if Ascii.eqb ch "010"%char || Ascii.eqb ch "013"%char then
        Throw (LexerError "Unexpected end of line")
      else ReadString_loop buf1 begin_quote (ch :: s) (S taken)
  end.

(** [TextLine::ReadString]: the opening quote has been read by the caller. *)
Definition ReadString (line : TextLine) (in_ : istream) (begin_quote : ascii)
  : Result (TextLine * istream) :=
  '(s, taken) ← ReadString_loop (remaining in_) begin_quote [] 0;
  Ok (emplace_back line (token_type.String (string_of_list_ascii (rev s))),
      Nat.iter taken buf_advance in_).

(** [for (int ch = in.get(); in && pred(ch); ch = in.get()) s += ch;] as
    [ReadNumber] and [ReadIdentifier] write it. *)
Fixpoint read_while (pred : ascii -> bool) (fuel : nat) (in_ : istream)
    (s : list ascii) : list ascii * istream :=
  let '(ch, in1) := get in_ in
  match ch, fuel with
  | Some c, S fuel' =>
      if ok in1 && pred c then read_while pred fuel' in1 (s ++ [c])
      else (s, in1)
  | _, _ => (s, in1)
  end.

(** [TextLine::ReadNumber]. *)
Definition ReadNumber (line : TextLine) (in_ : istream) (first_dig : ascii)
  : Result (TextLine * istream) :=
  let '(s, in1) :=
    read_while isdigit (S (length (remaining in_))) in_ [first_dig] in
  let in2 := unget in1 in
  v ← stoi s;
  Ok (emplace_back line (token_type.Number v), in2).

Definition keyword_or_id (s : string) : Token :=
  if String.eqb s "class" then token_type.Class
  else if String.eqb s "return" then token_type.Return
  else if String.eqb s "if" then token_type.If
  else if String.eqb s "else" then token_type.Else
  else if String.eqb s "def" then token_type.Def
  else if String.eqb s "print" then token_type.Print
  else if String.eqb s "and" then token_type.And
  else if String.eqb s "or" then token_type.Or
  else if String.eqb s "not" then token_type.Not
  else if String.eqb s "None" then token_type.None
  else if String.eqb s "True" then token_type.True
  else if String.eqb s "False" then token_type.False
  else token_type.Id s.

(** [TextLine::ReadIdentifier]. *)
Definition ReadIdentifier (line : TextLine) (in_ : istream) (first_sym : ascii)
  : TextLine * istream :=
  let '(s, in1) :=
    read_while (fun c => isalpha c || Ascii.eqb c "_"%char || isdigit c)
      (S (length (remaining in_))) in_ [first_sym] in
  (emplace_back line (keyword_or_id (string_of_list_ascii s)), unget in1).

(** [TextLine::ReadComparison]: called with the first character of a
    two-character operator; the second one is consumed here. *)
Definition ReadComparison (line : TextLine) (in_ : istream) (ch : ascii)
  : TextLine * istream :=
  let line1 :=
    if Ascii.eqb ch "!"%char then emplace_back line token_type.NotEq
    else if Ascii.eqb ch "="%char then emplace_back line token_type.Eq
    else if Ascii.eqb ch "<"%char then emplace_back line token_type.LessOrEq
    else if Ascii.eqb ch ">"%char then emplace_back line token_type.GreaterOrEq
    else line in
  (line1, snd (get in_)).

Definition is_comparison_start (c : ascii) : bool :=
  Ascii.eqb c "!"%char || Ascii.eqb c "="%char
  || Ascii.eqb c "<"%char || Ascii.eqb c ">"%char.

(** One turn of the [do ... while] loop of [TextLine::ReadLine], after
    [ch = in.get()]. *)
Definition ReadLine_body (line : TextLine) (ch : option ascii) (in_ : istream)
  : Result (TextLine * istream) :=
  match ch with
  | None =>
      let line1 :=
        if negb (IsEmpty line) && negb (is_Newline (List.last (tokens_ line) token_type.Eof))
        then emplace_back line token_type.Newline else line in
      Ok (emplace_back line1 token_type.Eof, in_)
  | Some c =>
      if Ascii.eqb c " "%char then Ok (line, snd (SkipSpaces in_))
      else if Ascii.eqb c "#"%char then Ok (line, SkipComment in_)
      else if Ascii.eqb c "010"%char then Ok (emplace_back line token_type.Newline, in_)
      else if Ascii.eqb c "034"%char || Ascii.eqb c "'"%char then ReadString line in_ c
      else if isdigit c then ReadNumber line in_ c
      else if isalpha c || Ascii.eqb c "_"%char then Ok (ReadIdentifier line in_ c)
      else if is_comparison_start c then
        let '(next, in1) := peek in_ in
        match next with
        | Some "="%char => Ok (ReadComparison line in1 c)
        | _ => Ok (emplace_back line (token_type.Char c), in1)
        end
      else Ok (emplace_back line (token_type.Char c), in_)
  end.

Definition ends_line (ch : option ascii) : bool :=
  match ch with
  | None => true
  | Some c => Ascii.eqb c "010"%char
  end.

Fixpoint ReadLine_loop (fuel : nat) (line : TextLine) (in_ : istream)
  : Result (TextLine * istream) :=
  match fuel with
  | O => OutOfFuel
  | S fuel' =>
      let '(ch, in1) := get in_ in
      '(line1, in2) ← ReadLine_body line ch in1;
      if ends_line ch then Ok (line1, in2)
      else ReadLine_loop fuel' line1 in2
  end.

(** [TextLine::ReadLine]. *)
Definition ReadLine (in_ : istream) : Result (TextLine * istream) :=
  let '(indent, in1) := SkipSpaces in_ in
  ReadLine_loop (S (length (remaining in1))) (mk_TextLine indent []) in1.

(** [Lexer]: the input, the tokens produced so far, the cursor and the
    indent of the last line.  [curr_pos_] starts at -1 and [current_indent_]
    at 0 ([lexer.h] holds the initialisers; after the constructor's call of
    [NextToken] the current token is the first one, which fixes -1). *)
Record Lexer : Type := mk_Lexer {
  in_ : istream;
  lexer_tokens_ : list Token;
  curr_pos_ : Z;
  current_indent_ : Z
}.

(** [for (line = ReadLine(in_); line.IsEmpty(); line = ReadLine(in_));] *)
Fixpoint next_line (fuel : nat) (s : istream) : Result (TextLine * istream) :=
  match fuel with
  | O => OutOfFuel
  | S fuel' =>
      '(line, s1) ← ReadLine s;
      if IsEmpty line then next_line fuel' s1 else Ok (line, s1)
  end.

(** [for (int i = 0; i < n; ++i) tokens_.emplace_back(t);] *)
Definition emit (n : Z) (t : Token) : list Token := replicate (Z.to_nat n) t.

(** The tokens [NextToken] appends for a line and the indent it records:
    the three [if]s of lines 101-118 and the copy of the line's tokens. *)
Definition line_tokens (current_indent : Z) (line : TextLine)
  : list Token * Z :=
  let '(out1, cur1) :=
    if negb (IsEofOnly line) && (current_indent <? indent_ line)
    then (emit (Z.quot (indent_ line - current_indent) 2) token_type.Indent,
          indent_ line)
    else ([], current_indent) in
  let '(out2, cur2) :=
    if negb (IsEofOnly line) && (indent_ line <? cur1)
    then (out1 ++ emit (Z.quot (cur1 - indent_ line) 2) token_type.Dedent,
          indent_ line)
    else (out1, cur1) in
  let '(out3, cur3) :=
    if IsEofOnly line && (0 <? cur2)
    then (out2 ++ emit (Z.quot cur2 2) token_type.Dedent, indent_ line)
    else (out2, cur2) in
  (out3 ++ tokens_ line, cur3).

Definition at_ (ts : list Token) (pos : Z) : Result Token :=
  if pos <? 0 then Throw lex_out_of_range
  else match ts !! Z.to_nat pos with
       | Some t => Ok t
       | None => Throw lex_out_of_range
       end.

(** [Lexer::NextToken]. *)
Definition NextToken (lx : Lexer) : Result (Token * Lexer) :=
  let pos := curr_pos_ lx + 1 in
  if pos =? Z.of_nat (length (lexer_tokens_ lx)) then
    if negb (bool_decide (lexer_tokens_ lx = []))
       && is_Eof (List.last (lexer_tokens_ lx) token_type.None)
    then Ok (List.last (lexer_tokens_ lx) token_type.None, lx)
    else
      '(line, s1) ← next_line (S (length (remaining (in_ lx)))) (in_ lx);
      if negb (Z.rem (indent_ line) 2 =? 0)
      then Throw (LexerError "Bad indent size.")
      else
        let '(new_tokens, cur) := line_tokens (current_indent_ lx) line in
        let ts := lexer_tokens_ lx ++ new_tokens in
        t ← at_ ts pos;
        Ok (t, mk_Lexer s1 ts pos cur)
  else
    t ← at_ (lexer_tokens_ lx) pos;
    Ok (t, mk_Lexer (in_ lx) (lexer_tokens_ lx) pos (current_indent_ lx)).

(** [Lexer::Lexer]: takes the stream and calls [NextToken] once. *)
Definition new_Lexer (input : istream) : Result Lexer :=
  '(_, lx) ← NextToken (mk_Lexer input [] (-1) 0);
  Ok lx.

(** [Lexer::CurrentToken]. *)
Definition CurrentToken (lx : Lexer) : Result Token :=
  at_ (lexer_tokens_ lx) (curr_pos_ lx).

(** A client that reads the whole input: it takes [CurrentToken] and calls
    [NextToken] until the current token is [Eof].  The result is the sequence
    of tokens it saw. *)
Fixpoint drain (fuel : nat) (lx : Lexer) (seen : list Token)
  : Result (list Token) :=
  match fuel with
  | O => OutOfFuel
  | S fuel' =>
      t ← CurrentToken lx;
      if is_Eof t then Ok (seen ++ [t])
      else '(_, lx1) ← NextToken lx; drain fuel' lx1 (seen ++ [t])
  end.

Definition tokenize (input : list ascii) : Result (list Token) :=
  lx ← new_Lexer (from_chars input);
  drain (2 * length input + 2) lx [].

Definition is_Indent (t : Token) : bool :=
  match t with token_type.Indent => true | _ => false end.

Definition is_Dedent (t : Token) : bool :=
  match t with token_type.Dedent => true | _ => false end.

Definition count_Indent (ts : list Token) : nat :=
  length (List.filter is_Indent ts).

Definition count_Dedent (ts : list Token) : nat :=
  length (List.filter is_Dedent ts).

End parse.

(** ** The earlier lexer: [src/lexer.cpp], lines 300-535

    This draft reads one token per call of [NextToken], straight from the
    stream.  Only its reading of comparison operators is embedded. *)

Module parse_draft.

Import stream.

Abbreviation Token := token_type.Token.
Abbreviation Result := (Outcome LexException).

(** [Lexer::ReadComparison], lines 512-533: called for each of [! = < >],
    it reads the next character itself.  The result says whether a token was
    produced. *)
Definition ReadComparison (tokens_ : list Token) (in_ : istream) (ch : ascii)
  : Result (bool * list Token * istream) :=
  let '(next, in1) := get in_ in
  let next_is_eq :=
    match next with Some c => Ascii.eqb c "="%char | None => false end in
  if Ascii.eqb ch "!"%char then
    if next_is_eq then Ok (true, tokens_ ++ [token_type.NotEq], in1)
    else Throw (LexerError "! without =")
  else if Ascii.eqb ch "="%char && next_is_eq then
    Ok (true, tokens_ ++ [token_type.Eq], in1)
  else if Ascii.eqb ch "<"%char && next_is_eq then
    Ok (true, tokens_ ++ [token_type.LessOrEq], in1)
  else if Ascii.eqb ch ">"%char && next_is_eq then
    Ok (true, tokens_ ++ [token_type.GreaterOrEq], in1)
  else Ok (false, tokens_, in1).

End parse_draft.

(** ** Runtime objects: the declarations both versions of [runtime.cpp] share *)

Module runtime.

(** Addresses of [Class] and of [ClassInstance] objects. *)
Abbreviation ClassId := nat.
Abbreviation Addr := nat.

(** What a holder can point to.  [Number], [String] and [Bool] objects are
    never modified after construction, so they are stored by value; classes
    and class instances are stored by address: they are shared. *)
Inductive Object : Type :=
| Number (value : Z)
| String (value : string)
| Bool (value : bool)
| Class_at (cls : ClassId)
| ClassInstance_at (addr : Addr).

(** Modelled from the spec: [runtime.h], which declares [runtime::Number], is
    not part of the sources; the spec gives [Number(int64)].  Arithmetic on
    it that leaves this range is signed overflow. *)
Definition NUMBER_MAX : Z := 9223372036854775807.
Definition NUMBER_MIN : Z := -9223372036854775808.

Definition in_range (n : Z) : bool := (NUMBER_MIN <=? n) && (n <=? NUMBER_MAX).

(** [ObjectHolder]: empty, owning ([Own], shared ownership as of
    [std::shared_ptr]) or non-owning ([Share], a [shared_ptr] whose deleter
    does nothing). *)
Module ObjectHolder.

Inductive t : Type :=
| None
| Own (object : Object)
| Share (object : Object).

(** [ObjectHolder::Get]: the object pointed to, if any. *)
Definition Get (h : t) : option Object :=
  match h with
  | None => Datatypes.None
  | Own o => Some o
  | Share o => Some o
  end.

(** [ObjectHolder::operator bool]. *)
Definition to_bool (h : t) : bool :=
  match h with
  | None => false
  | _ => true
  end.

End ObjectHolder.

(** [Closure = std::unordered_map<std::string, ObjectHolder>]. *)
Abbreviation Closure := (gmap string ObjectHolder.t).

(** [holder.TryAs<T>()], one function per [T]: [None] is [nullptr]. *)
Definition TryAs_Number (h : ObjectHolder.t) : option Z :=
  match ObjectHolder.Get h with Some (Number n) => Some n | _ => None end.

Definition TryAs_String (h : ObjectHolder.t) : option string :=
  match ObjectHolder.Get h with Some (String s) => Some s | _ => None end.

Definition TryAs_Bool (h : ObjectHolder.t) : option bool :=
  match ObjectHolder.Get h with Some (Bool b) => Some b | _ => None end.

Definition TryAs_Class (h : ObjectHolder.t) : option ClassId :=
  match ObjectHolder.Get h with Some (Class_at c) => Some c | _ => None end.

Definition TryAs_ClassInstance (h : ObjectHolder.t) : option Addr :=
  match ObjectHolder.Get h with Some (ClassInstance_at a) => Some a | _ => None end.

(** What can be thrown during evaluation: [std::runtime_error],
    [std::out_of_range] (from [at]) and [ast::ReturnException]. *)
Inductive Exception : Type :=
| runtime_error (what : string)
| out_of_range
| ReturnException (result : ObjectHolder.t).

(** The two versions of [runtime.cpp] in the repository.  [Draft] is
    [src/runtime.cpp] lines 1-184, [Final] is [src/unnamed/part_000].  The
    draft's [ClassInstance::Call] assigns the actual arguments to the
    method's [formal_params]; [param_of_holder] is the conversion from
    [ObjectHolder] to an element of that vector, which only [runtime.h]
    (not part of the sources) could say. *)
Inductive Unit : Type :=
| Draft (param_of_holder : ObjectHolder.t -> string)
| Final.

Section WithExecutable.

(** [runtime::Executable], the interface of method bodies; the AST nodes
    implement it. *)
Context {Executable : Type}.

(** [runtime::Method]. *)
Record Method : Type := mk_Method {
  name : string;
  formal_params : list string;
  body : Executable
}.

(** [runtime::Class].  [parent_] points to a class that exists before this
    one is constructed, so the chain of parents is finite. *)
#[warnings="-register-all"]
Inductive Class : Type := mk_Class {
  name_ : string;
  methods_ : list Method;
  parent_ : option Class
}.

(** The index the constructor builds (lines 122-127 of part_000, 109-114 of
    runtime.cpp): [methods_by_name_[methods_.at(i).name] = i] for
    [i = 0, 1, ...]; a later method of the same name replaces the entry. *)
Fixpoint index_methods (ms : list Method) (i : nat) (idx : gmap string nat)
  : gmap string nat :=
  match ms with
  | [] => idx
  | m :: ms' => index_methods ms' (S i) (<[name m := i]> idx)
  end.

Definition methods_by_name_ (c : Class) : gmap string nat :=
  index_methods (methods_ c) 0%nat ∅.

(** The method of the class's own list that [methods_by_name_] indexes. *)
Definition own_method (c : Class) (method : string) : option Method :=
  i ← methods_by_name_ c !! method; methods_ c !! i.

(** [ClassInstance]: a reference to the class and the fields. *)
Record ClassInstance : Type := mk_ClassInstance {
  cls_ : ClassId;
  closure_ : Closure
}.

(** The objects a program works on and its [Context]: the [Class] and
    [ClassInstance] objects by address, the closures that are not the
    fields of an instance (the caller's closure, the locals of a call), the
    text written to the context's output stream and the context's
    self-name slot.  [instances] keeps every instance ever made, also those
    that have lost their last owning holder and are destroyed; which ones
    still exist is what [alive], below, looks for where the code goes
    through a raw pointer. *)
Record State : Type := mk_State {
  classes : gmap ClassId Class;
  instances : gmap Addr ClassInstance;
  frames : gmap nat Closure;
  output : string;
  self_name : string
}.

(** A [Closure &]: a frame, or the fields of an instance. *)
Inductive ClosureRef : Type :=
| Frame (k : nat)
| Fields (a : Addr).

Definition M (A : Type) : Type := State -> Outcome Exception A * State.

Definition ret {A : Type} (a : A) : M A := fun st => (Ok a, st).

Definition bind {A B : Type} (f : A -> M B) (m : M A) : M B :=
  fun st =>
    match m st with
    | (Ok a, st1) => f a st1
    | (Throw e, st1) => (Throw e, st1)
    | (Undefined, st1) => (Undefined, st1)
    | (OutOfFuel, st1) => (OutOfFuel, st1)
    end.

Definition throw {A : Type} (e : Exception) : M A := fun st => (Throw e, st).

Definition undefined {A : Type} : M A := fun st => (Undefined, st).

Definition out_of_fuel {A : Type} : M A := fun st => (OutOfFuel, st).

Definition get_state : M State := fun st => (Ok st, st).

Definition put_state (st : State) : M unit := fun _ => (Ok tt, st).

#[global] Instance M_mbind : MBind M := fun A B f m => bind f m.
#[global] Instance M_mret : MRet M := fun A a => ret a.

(** Reading and writing through a [Closure &]. *)
Definition read_closure (st : State) (r : ClosureRef) : option Closure :=
  match r with
  | Frame k => frames st !! k
  | Fields a => closure_ <$> instances st !! a
  end.

Definition write_closure (st : State) (r : ClosureRef) (c : Closure) : State :=
  match r with
  | Frame k =>
      mk_State (classes st) (instances st) (<[k := c]> (frames st))
        (output st) (self_name st)
  | Fields a =>
      match instances st !! a with
      | Some inst =>
          mk_State (classes st)
            (<[a := mk_ClassInstance (cls_ inst) c]> (instances st))
            (frames st) (output st) (self_name st)
      | None => st
      end
  end.

(** [closure.count(id)] and [closure.at(id)], [closure[id] = h]. *)
Definition closure_get (r : ClosureRef) (id : string) : M (option ObjectHolder.t) :=
  fun st =>
    match read_closure st r with
    | Some c => (Ok (c !! id), st)
    | None => (Undefined, st)
    end.

Definition closure_at (r : ClosureRef) (id : string) : M ObjectHolder.t :=
  o ← closure_get r id;
  match o with
  | Some h => ret h
  | None => throw out_of_range
  end.

Definition closure_set (r : ClosureRef) (id : string) (h : ObjectHolder.t) : M unit :=
  fun st =>
    match read_closure st r with
    | Some c => (Ok tt, write_closure st r (<[id := h]> c))
    | None => (Undefined, st)
    end.

(** [os << text] on the context's output stream. *)
Definition write_output (text : string) : M unit :=
  fun st =>
    (Ok tt, mk_State (classes st) (instances st) (frames st)
              (output st +:+ text) (self_name st)).

(** [Context::SetSelfName], [Context::GetSelfName]. *)
Definition SetSelfName (x : string) : M unit :=
  fun st =>
    (Ok tt, mk_State (classes st) (instances st) (frames st) (output st) x).

Definition GetSelfName : M string := fun st => (Ok (self_name st), st).

(** The class an instance refers to ([cls_]). *)
Definition class_of (a : Addr) : M (ClassId * Class) :=
  fun st =>
    match instances st !! a with
    | Some inst =>
        match classes st !! cls_ inst with
        | Some c => (Ok (cls_ inst, c), st)
        | None => (Undefined, st)
        end
    | None => (Undefined, st)
    end.

(** [os << value] for a [Number]. *)
Definition decimal (n : Z) : string := NilZero.string_of_int (Z.to_int n).

(** [os << this]: the address of the instance, in a format the C++
    implementation chooses; here the decimal address after [@]. *)
Definition show_address (a : Addr) : string := "@" +:+ decimal (Z.of_nat a).

(** [ClassInstance::HasMethod] (the same text in both versions), given the
    version's [Class::GetMethod]. *)
Definition HasMethod_with (GetMethod : Class -> string -> option Method)
    (a : Addr) (method : string) (argument_count : nat) : M bool :=
  '(_, c) ← class_of a;
  ret (match GetMethod c method with
       | Some p_method => Nat.eqb (length (formal_params p_method)) argument_count
       | None => false
       end).

(** A closure that lives for the duration of [f]: a local variable of type
    [Closure].  It gets an unused frame, which is released when [f] is left,
    by return or by exception. *)
Definition with_local_closure {A : Type} (locals : Closure)
    (f : ClosureRef -> M A) : M A :=
  fun st =>
    let k := fresh (dom (frames st)) in
    let st1 := mk_State (classes st) (instances st) (<[k := locals]> (frames st))
                 (output st) (self_name st) in
    let '(r, st2) := f (Frame k) st1 in
    (r, mk_State (classes st2) (instances st2) (delete k (frames st2))
          (output st2) (self_name st2)).

(** *** The lifetime of instances

    [ObjectHolder::Own] makes a [std::shared_ptr]: an instance exists as
    long as an owning holder of it does ([Share] holders do not count).
    The holders are in the closures, that is in the frames and in the
    fields of the instances that exist, and in local variables of the
    functions that are running. *)

(** The instance a holder owns. *)
Definition owned (h : ObjectHolder.t) : option Addr :=
  match h with
  | ObjectHolder.Own (ClassInstance_at a) => Some a
  | _ => None
  end.

(** The instances a closure owns, those the frames own, and those owned by
    the fields of the instances [found]. *)
Definition owned_by (c : Closure) : gset Addr :=
  list_to_set (omap owned (map_to_list c).*2).

Definition owned_by_frames (st : State) : gset Addr :=
  ⋃ (owned_by <$> (map_to_list (frames st)).*2).

Definition owned_by_fields (st : State) (found : gset Addr) : gset Addr :=
  ⋃ ((fun a => match instances st !! a with
               | Some inst => owned_by (closure_ inst)
               | None => ∅
               end) <$> elements found).

Fixpoint and_what_they_own (rounds : nat) (st : State) (found : gset Addr)
  : gset Addr :=
  match rounds with
  | O => found
  | S rounds' =>
      and_what_they_own rounds' st (found ∪ owned_by_fields st found)
  end.

(** The instance at [a] is seen to exist: there is a chain of owning
    holders to it from a frame or from one of [locals], the holders in the
    local variables of the function at hand.  Two kinds of instances exist
    without being seen: one that is kept only by a holder in a local
    variable of some calling function, and one that is kept only by holders
    in fields that no such chain reaches (a cycle of instances that own each
    other).  So [alive] can say no of an instance that exists, never yes of
    one that does not. *)
Definition alive (st : State) (locals : list ObjectHolder.t) (a : Addr) : bool :=
  bool_decide
    (a ∈ and_what_they_own (size (instances st)) st
           (owned_by_frames st ∪ list_to_set (omap owned locals))).

(** [p->...] through a raw pointer [p] to the instance at [a], taken before
    other code ran: no defined behaviour unless the instance still exists.
    Where [alive] does not see an instance that exists, the embedding has
    [Undefined] for a use that is defined; a use it lets through is the use
    of an instance that exists. *)
Definition through_pointer (locals : list ObjectHolder.t) (a : Addr) : M unit :=
  fun st => if alive st locals a then (Ok tt, st) else (Undefined, st).

End WithExecutable.

Arguments Method : clear implicits.
Arguments Class : clear implicits.
Arguments ClassInstance : clear implicits.
Arguments State : clear implicits.
Arguments M : clear implicits.

End runtime.

(** ** [src/unnamed/part_000]: the complete [runtime.cpp] *)

Module runtime_final.

Import runtime.

Section WithExecute.

Context {Executable : Type}.

(** [Executable::Execute]. *)
Variable Execute : Executable -> ClosureRef -> M Executable ObjectHolder.t.

(** [Print] of the object a holder points to, for the call
    [Call(STR_METHOD, {}, context)->Print(os, context)]. *)
Variable Print : Object -> M Executable string.

(** [IsTrue], lines 50-68.  The closing [return true] is for objects of a
    class other than the five; there is none. *)
Definition IsTrue (object : ObjectHolder.t) : bool :=
  match ObjectHolder.Get object with
  | None => false
  | Some (Bool b) => b
  | Some (Number n) => negb (n =? 0)
  | Some (String s) => negb (String.eqb s "")
  | Some (Class_at _) => false
  | Some (ClassInstance_at _) => false
  end.

(** [Class::GetMethod], lines 129-136.  [methods_.at] cannot throw: the
    index was built from [methods_]. *)
Fixpoint GetMethod (c : Class Executable) (method : string) {struct c}
  : option (Method Executable) :=
  match methods_by_name_ c !! method with
  | Some i => methods_ c !! i
  | None =>
      match parent_ c with
      | Some p => GetMethod p method
      | None => None
      end
  end.

(** [ClassInstance::HasMethod], lines 89-92. *)
Definition HasMethod := HasMethod_with GetMethod.

(** [locals[formal_params.at(i)] = actual_args.at(i)] for [i = 0, 1, ...] *)
Definition bind_params (formal_params : list string)
    (actual_args : list ObjectHolder.t) (locals : Closure) : Closure :=
  fold_left (fun l pa => <[pa.1 := pa.2]> l) (zip formal_params actual_args) locals.

(** [ClassInstance::Call], lines 102-116. *)
Definition Call (a : Addr) (method : string)
    (actual_args : list ObjectHolder.t) : M Executable ObjectHolder.t :=
  has ← HasMethod a method (length actual_args);
  if negb has then throw (runtime_error "Method not found.")
  else
    '(_, c) ← class_of a;
    match GetMethod c method with
    | None => undefined
    | Some p_method =>
        let locals : Closure :=
          bind_params (formal_params p_method) actual_args
            (<["self" := ObjectHolder.Share (ClassInstance_at a)]> ∅) in
        with_local_closure locals (Execute (body p_method))
    end.

(** [ClassInstance::Print], lines 80-87, and the [Print] of the other
    objects ([Bool::Print] and [Class::Print] are in the file; those of
    [Number] and [String] are in [runtime.h]: they write the value).  The
    result is the text written to [os]. *)
Definition Object_Print (o : Object) : M Executable string :=
  match o with
  | Number n => ret (decimal n)
  | String s => ret s
  | Bool b => ret (if b then "True" else "False")
  | Class_at c =>
      st ← get_state;
      match classes st !! c with
      | Some cls => ret ("Class " +:+ name_ cls)
      | None => undefined
      end
  | ClassInstance_at a =>
      has ← HasMethod a "__str__" 0%nat;
      if (has : bool) then
        r ← Call a "__str__" [];
        match ObjectHolder.Get r with
        | Some o' => Print o'
        | None => undefined
        end
      else ret (show_address a)
  end.

(** The comparators, lines 158-209. *)
Definition Equal (lhs rhs : ObjectHolder.t) : M Executable bool :=
  match TryAs_Bool lhs, TryAs_Bool rhs with
  | Some l, Some r => ret (Bool.eqb l r)
  | _, _ =>
  match TryAs_Number lhs, TryAs_Number rhs with
  | Some l, Some r => ret (l =? r)
  | _, _ =>
  match TryAs_String lhs, TryAs_String rhs with
  | Some l, Some r => ret (String.eqb l r)
  | _, _ =>
      has ← match TryAs_ClassInstance lhs with
            | Some a => HasMethod a "__eq__" 1%nat
            | None => ret false
            end;
      match TryAs_ClassInstance lhs, (has : bool) with
      | Some a, true =>
          r ← Call a "__eq__" [rhs];
          match TryAs_Bool r with
          | Some b => ret b
          | None => undefined
          end
      | _, _ =>
          if negb (ObjectHolder.to_bool lhs) && negb (ObjectHolder.to_bool rhs)
          then ret true
          else throw (runtime_error "Cannot compare objects for equality")
      end
  end end end.

Definition Less (lhs rhs : ObjectHolder.t) : M Executable bool :=
  match TryAs_Bool lhs, TryAs_Bool rhs with
  | Some l, Some r => ret (negb l && r)
  | _, _ =>
  match TryAs_Number lhs, TryAs_Number rhs with
  | Some l, Some r => ret (l <? r)
  | _, _ =>
  match TryAs_String lhs, TryAs_String rhs with
  | Some l, Some r => ret (String.ltb l r)
  | _, _ =>
      has ← match TryAs_ClassInstance lhs with
            | Some a => HasMethod a "__lt__" 1%nat
            | None => ret false
            end;
      match TryAs_ClassInstance lhs, (has : bool) with
      | Some a, true =>
          r ← Call a "__lt__" [rhs];
          match TryAs_Bool r with
          | Some b => ret b
          | None => undefined
          end
      | _, _ => throw (runtime_error "Cannot compare objects for less")
      end
  end end end.

Definition NotEqual (lhs rhs : ObjectHolder.t) : M Executable bool :=
  e ← Equal lhs rhs; ret (negb e).

(** [!(Less(lhs, rhs, context) || Equal(lhs, rhs, context))]: [Equal] is
    called only when [Less] returned false. *)
Definition Greater (lhs rhs : ObjectHolder.t) : M Executable bool :=
  l ← Less lhs rhs;
  if (l : bool) then ret false
  else e ← Equal lhs rhs; ret (negb e).

Definition LessOrEqual (lhs rhs : ObjectHolder.t) : M Executable bool :=
  g ← Greater lhs rhs; ret (negb g).

Definition GreaterOrEqual (lhs rhs : ObjectHolder.t) : M Executable bool :=
  l ← Less lhs rhs; ret (negb l).

End WithExecute.

End runtime_final.

(** ** [src/runtime.cpp], lines 1-184: the earlier [runtime.cpp] *)

Module runtime_draft.

Import runtime.

Section WithExecute.

Context {Executable : Type}.

Variable Execute : Executable -> ClosureRef -> M Executable ObjectHolder.t.

(** See [runtime.Draft]. *)
Variable param_of_holder : ObjectHolder.t -> string.

(** [IsTrue], lines 50-63: anything that is not a [Bool], a [Number] or a
    [String] reaches the closing [return true]. *)
Definition IsTrue (object : ObjectHolder.t) : bool :=
  match ObjectHolder.Get object with
  | None => false
  | Some (Bool b) => b
  | Some (Number n) => negb (n =? 0)
  | Some (String s) => negb (String.eqb s "")
  | Some (Class_at _) => true
  | Some (ClassInstance_at _) => true
  end.

(** [Class::GetMethod], lines 116-121: the class's own methods only. *)
Definition GetMethod (c : Class Executable) (method : string)
  : option (Method Executable) :=
  match methods_by_name_ c !! method with
  | Some i => methods_ c !! i
  | None => None
  end.

(** [ClassInstance::HasMethod], lines 81-84. *)
Definition HasMethod := HasMethod_with GetMethod.

(** [ClassInstance::Call], lines 94-103: the method found in the class is
    written to ([const_cast]), its [formal_params] become the actual
    arguments, and the body runs in the fields of the instance. *)
Definition Call (a : Addr) (method : string)
    (actual_args : list ObjectHolder.t) : M Executable ObjectHolder.t :=
  has ← HasMethod a method (length actual_args);
  if negb has then throw (runtime_error "Method not find.")
  else
    '(cid, c) ← class_of a;
    match methods_by_name_ c !! method with
    | Some i =>
        match methods_ c !! i with
        | Some p_method =>
            let assigned :=
              mk_Method (name p_method) (map param_of_holder actual_args)
                (body p_method) in
            st ← get_state;
            _ ← put_state
                  (mk_State
                     (<[cid := mk_Class (name_ c) (<[i := assigned]> (methods_ c))
                                 (parent_ c)]> (classes st))
                     (instances st) (frames st) (output st) (self_name st));
            Execute (body assigned) (Fields a)
        | None => undefined
        end
    | None => undefined
    end.

(** [ClassInstance::Print], lines 73-79: the result of [__str__] is dropped
    and nothing is written. *)
Definition Object_Print (o : Object) : M Executable string :=
  match o with
  | Number n => ret (decimal n)
  | String s => ret s
  | Bool b => ret (if b then "True" else "False")
  | Class_at c =>
      st ← get_state;
      match classes st !! c with
      | Some cls => ret ("Class " +:+ name_ cls)
      | None => undefined
      end
  | ClassInstance_at a =>
      has ← HasMethod a "__str__" 0%nat;
      if (has : bool) then _ ← Call a "__str__" []; ret ""
      else ret (show_address a)
  end.

(** [Equal], lines 143-157: after the three cases of equal primitive types
    [lhs.TryAs<ClassInstance>()] is dereferenced, whatever [lhs] is, and the
    function throws. *)
Definition Equal (lhs rhs : ObjectHolder.t) : M Executable bool :=
  match TryAs_Bool lhs, TryAs_Bool rhs with
  | Some l, Some r => ret (Bool.eqb l r)
  | _, _ =>
  match TryAs_Number lhs, TryAs_Number rhs with
  | Some l, Some r => ret (l =? r)
  | _, _ =>
  match TryAs_String lhs, TryAs_String rhs with
  | Some l, Some r => ret (String.eqb l r)
  | _, _ =>
      match TryAs_ClassInstance lhs with
      | Some a =>
          _ ← class_of a;
          throw (runtime_error "Cannot compare objects for equality")
      | None => undefined
      end
  end end end.

(** Lines 159-182: the other comparators are stubs that throw. *)
Definition Less (lhs rhs : ObjectHolder.t) : M Executable bool :=
  throw (runtime_error "Cannot compare objects for less").

Definition NotEqual (lhs rhs : ObjectHolder.t) : M Executable bool :=
  throw (runtime_error "Cannot compare objects for equality").

Definition Greater (lhs rhs : ObjectHolder.t) : M Executable bool :=
  throw (runtime_error "Cannot compare objects for equality").

Definition LessOrEqual (lhs rhs : ObjectHolder.t) : M Executable bool :=
  throw (runtime_error "Cannot compare objects for equality").

Definition GreaterOrEqual (lhs rhs : ObjectHolder.t) : M Executable bool :=
  throw (runtime_error "Cannot compare objects for equality").

End WithExecute.

End runtime_draft.

(** ** The AST nodes: [statement.cpp], [src/runtime.cpp] lines 185-502 *)

Module ast.

Import runtime.

(** The comparators a [Comparison] node is built with. *)
Inductive Comparator : Type :=
| Equal | NotEqual | Less | Greater | LessOrEqual | GreaterOrEqual.

(** The node classes, with their data members.  [FieldAssignment] holds its
    [VariableValue] by value: [object_] is that node's [dotted_ids_]. *)
#[warnings="-register-all"]
Inductive Statement : Type :=
| VariableValue (dotted_ids_ : list string)
| Assignment (var_name_ : string) (rv_ : Statement)
| FieldAssignment (object_ : list string) (field_name_ : string) (rv_ : Statement)
| Print (args_ : list Statement)
| MethodCall (object_ : Statement) (method_ : string) (args_ : list Statement)
| Stringify (argument_ : Statement)
| Add (lhs_ rhs_ : Statement)
| Sub (lhs_ rhs_ : Statement)
| Mult (lhs_ rhs_ : Statement)
| Div (lhs_ rhs_ : Statement)
| Compound (args_ : list Statement)
| Return (statement_ : Statement)
| ClassDefinition (cls_ : ObjectHolder.t)
| IfElse (condition_ if_body_ : Statement) (else_body_ : option Statement)
| Or (lhs_ rhs_ : Statement)
| And (lhs_ rhs_ : Statement)
| Not (argument_ : Statement)
| Comparison (cmp_ : Comparator) (lhs_ rhs_ : Statement)
| NewInstance (class_ : ClassId) (args_ : list Statement)
| MethodBody (body_ : Statement).

Abbreviation M := (runtime.M Statement).
Abbreviation State := (runtime.State Statement).

Definition ADD_METHOD : string := "__add__".
Definition INIT_METHOD : string := "__init__".

(** *** The functions of the [runtime.cpp] the program is linked with *)

Section Linked.

Variable u : Unit.
Variable Execute : Statement -> ClosureRef -> M ObjectHolder.t.
Variable Print_object : Object -> M string.

Definition IsTrue (object : ObjectHolder.t) : bool :=
  match u with
  | Draft _ => runtime_draft.IsTrue object
  | Final => runtime_final.IsTrue object
  end.

Definition HasMethod (a : Addr) (method : string) (argument_count : nat) : M bool :=
  match u with
  | Draft _ => runtime_draft.HasMethod a method argument_count
  | Final => runtime_final.HasMethod a method argument_count
  end.

Definition Call (a : Addr) (method : string) (actual_args : list ObjectHolder.t)
  : M ObjectHolder.t :=
  match u with
  | Draft conv => runtime_draft.Call Execute conv a method actual_args
  | Final => runtime_final.Call Execute a method actual_args
  end.

Definition Object_Print (o : Object) : M string :=
  match u with
  | Draft conv => runtime_draft.Object_Print Execute conv o
  | Final => runtime_final.Object_Print Execute Print_object o
  end.

Definition compare (cmp : Comparator) (lhs rhs : ObjectHolder.t) : M bool :=
  match u, cmp with
  | Draft _, Equal => runtime_draft.Equal lhs rhs
  | Draft _, NotEqual => runtime_draft.NotEqual lhs rhs
  | Draft _, Less => runtime_draft.Less lhs rhs
  | Draft _, Greater => runtime_draft.Greater lhs rhs
  | Draft _, LessOrEqual => runtime_draft.LessOrEqual lhs rhs
  | Draft _, GreaterOrEqual => runtime_draft.GreaterOrEqual lhs rhs
  | Final, Equal => runtime_final.Equal Execute lhs rhs
  | Final, NotEqual => runtime_final.NotEqual Execute lhs rhs
  | Final, Less => runtime_final.Less Execute lhs rhs
  | Final, Greater => runtime_final.Greater Execute lhs rhs
  | Final, LessOrEqual => runtime_final.LessOrEqual Execute lhs rhs
  | Final, GreaterOrEqual => runtime_final.GreaterOrEqual Execute lhs rhs
  end.

(** *** [Execute] of each node class *)

(** [for (const auto &stmt: args_) actual_args.push_back(stmt->Execute(closure, context));] *)
Fixpoint Execute_args (args : list Statement) (closure : ClosureRef)
  : M (list ObjectHolder.t) :=
  match args with
  | [] => ret []
  | stmt :: args' =>
      h ← Execute stmt closure;
      hs ← Execute_args args' closure;
      ret (h :: hs)
  end.

(** [VariableValue::GetName]. *)
Definition GetName (dotted_ids : list string) : string :=
  fold_left
    (fun full_name id =>
       full_name +:+ (if String.eqb full_name "" then id else "." +:+ id))
    dotted_ids "".

(** The loop of [VariableValue::Execute]. *)
Fixpoint VariableValue_loop (all_ids ids : list string) (p_closure : ClosureRef)
    (result : ObjectHolder.t) : M ObjectHolder.t :=
  match ids with
  | [] => ret result
  | id :: ids' =>
      o ← closure_get p_closure id;
      match o with
      | None => throw (runtime_error ("Uncknown variable name: " +:+ GetName all_ids))
      | Some h =>
          VariableValue_loop all_ids ids'
            (match TryAs_ClassInstance h with
             | Some a => Fields a
             | None => p_closure
             end) h
      end
  end.

Definition VariableValue_Execute (dotted_ids : list string) (closure : ClosureRef)
  : M ObjectHolder.t :=
  VariableValue_loop dotted_ids dotted_ids closure ObjectHolder.None.

(** [Assignment::Execute], lines 238-242.  The right-hand side of
    [closure[var_name_] = rv_->Execute(closure, context)] is evaluated
    first (C++17). *)
Definition Assignment_Execute (var_name : string) (rv : Statement)
    (closure : ClosureRef) : M ObjectHolder.t :=
  _ ← SetSelfName var_name;
  h ← Execute rv closure;
  _ ← closure_set closure var_name h;
  closure_at closure var_name.

(** The loop of [FieldAssignment::Execute]: [at] throws on a missing name;
    [TryAs<ClassInstance>()->Fields()] on something that is not an instance
    dereferences a null pointer. *)
Fixpoint FieldAssignment_loop (ids : list string) (p_closure : ClosureRef)
  : M ClosureRef :=
  match ids with
  | [] => ret p_closure
  | id :: ids' =>
      val ← closure_at p_closure id;
      match TryAs_ClassInstance val with
      | Some a => FieldAssignment_loop ids' (Fields a)
      | None => undefined
      end
  end.

(** [FieldAssignment::Execute], lines 253-262.  [p_closure] is a raw pointer:
    after the loop it points into the instance the names led to (into
    [closure] itself if there are no names), and it is used after the
    right-hand side has been executed, which can have taken the last owning
    holder of that instance away ([p.f = Point()] after [p = Point()]: the
    self-name is still [p], and [NewInstance] replaces the binding). *)
Definition FieldAssignment_Execute (object : list string) (field_name : string)
    (rv : Statement) (closure : ClosureRef) : M ObjectHolder.t :=
  p_closure ← FieldAssignment_loop object closure;
  h ← Execute rv closure;
  _ ← match object, p_closure with
      | _ :: _, Fields a => through_pointer [] a
      | _, _ => ret tt
      end;
  _ ← closure_set p_closure field_name h;
  closure_at p_closure field_name.

(** The loop of [Print::Execute]; [first] is [it == args_.cbegin()]. *)
Fixpoint Print_loop (args : list Statement) (first : bool) (closure : ClosureRef)
  : M unit :=
  match args with
  | [] => ret tt
  | stmt :: args' =>
      holder ← Execute stmt closure;
      _ ← (if first then ret tt else write_output " ");
      _ ← match ObjectHolder.Get holder with
          | Some o => text ← Object_Print o; write_output text
          | None => write_output "None"
          end;
      Print_loop args' false closure
  end.

Definition Print_Execute (args : list Statement) (closure : ClosureRef)
  : M ObjectHolder.t :=
  _ ← Print_loop args true closure;
  _ ← write_output (String.String "010"%char EmptyString);
  ret ObjectHolder.None.

Definition MethodCall_Execute (object : Statement) (method : string)
    (args : list Statement) (closure : ClosureRef) : M ObjectHolder.t :=
  holder ← Execute object closure;
  match TryAs_ClassInstance holder with
  | Some instance =>
      has ← HasMethod instance method (length args);
      if (has : bool) then
        actual_args ← Execute_args args closure;
        Call instance method actual_args
      else ret ObjectHolder.None
  | None => ret ObjectHolder.None
  end.

Definition Stringify_Execute (argument : Statement) (closure : ClosureRef)
  : M ObjectHolder.t :=
  holder ← Execute argument closure;
  match ObjectHolder.Get holder with
  | Some o => text ← Object_Print o; ret (ObjectHolder.Own (String text))
  | None => ret (ObjectHolder.Own (String "None"))
  end.

(** The result of an arithmetic operator on two [Number]s: outside the
    range of the type the operation is signed overflow. *)
Definition number_result (n : Z) : M ObjectHolder.t :=
  if in_range n then ret (ObjectHolder.Own (Number n)) else undefined.

Definition Add_Execute (lhs rhs : Statement) (closure : ClosureRef)
  : M ObjectHolder.t :=
  lhs_holder ← Execute lhs closure;
  rhs_holder ← Execute rhs closure;
  if ObjectHolder.to_bool lhs_holder && ObjectHolder.to_bool rhs_holder then
    match TryAs_Number lhs_holder, TryAs_Number rhs_holder with
    | Some l, Some r => number_result (l + r)
    | _, _ =>
    match TryAs_String lhs_holder, TryAs_String rhs_holder with
    | Some l, Some r => ret (ObjectHolder.Own (String (l +:+ r)))
    | _, _ =>
        has ← match TryAs_ClassInstance lhs_holder with
              | Some a => HasMethod a ADD_METHOD 1%nat
              | None => ret false
              end;
        match TryAs_ClassInstance lhs_holder, (has : bool) with
        | Some a, true => Call a ADD_METHOD [rhs_holder]
        | _, _ => throw (runtime_error "Invalid arguments in Add")
        end
    end end
  else throw (runtime_error "Invalid arguments in Add").

Definition Sub_Execute (lhs rhs : Statement) (closure : ClosureRef)
  : M ObjectHolder.t :=
  lhs_holder ← Execute lhs closure;
  rhs_holder ← Execute rhs closure;
  if ObjectHolder.to_bool lhs_holder && ObjectHolder.to_bool rhs_holder then
    match TryAs_Number lhs_holder, TryAs_Number rhs_holder with
    | Some l, Some r => number_result (l - r)
    | _, _ => throw (runtime_error "Invalid arguments in Sub")
    end
  else throw (runtime_error "Invalid arguments in Sub").

Definition Mult_Execute (lhs rhs : Statement) (closure : ClosureRef)
  : M ObjectHolder.t :=
  lhs_holder ← Execute lhs closure;
  rhs_holder ← Execute rhs closure;
  if ObjectHolder.to_bool lhs_holder && ObjectHolder.to_bool rhs_holder then
    match TryAs_Number lhs_holder, TryAs_Number rhs_holder with
    | Some l, Some r => number_result (l * r)
    | _, _ => throw (runtime_error "Invalid arguments in Mul")
    end
  else throw (runtime_error "Invalid arguments in Mul").

(** [Div::Execute], lines 371-382: [lhs / rhs] on the two values, with no
    test of the divisor.  Integer division by zero has no defined behaviour
    in C++; otherwise the quotient is truncated towards zero. *)
Definition Div_Execute (lhs rhs : Statement) (closure : ClosureRef)
  : M ObjectHolder.t :=
  lhs_holder ← Execute lhs closure;
  rhs_holder ← Execute rhs closure;
  if ObjectHolder.to_bool lhs_holder && ObjectHolder.to_bool rhs_holder then
    match TryAs_Number lhs_holder, TryAs_Number rhs_holder with
    | Some l, Some r =>
        if r =? 0 then undefined else number_result (Z.quot l r)
    | _, _ => throw (runtime_error "Invalid arguments in Div")
    end
  else throw (runtime_error "Invalid arguments in Div").

Fixpoint Compound_loop (args : list Statement) (closure : ClosureRef) : M unit :=
  match args with
  | [] => ret tt
  | stmt :: args' => _ ← Execute stmt closure; Compound_loop args' closure
  end.

Definition Compound_Execute (args : list Statement) (closure : ClosureRef)
  : M ObjectHolder.t :=
  _ ← Compound_loop args closure;
  ret ObjectHolder.None.

Definition Return_Execute (statement : Statement) (closure : ClosureRef)
  : M ObjectHolder.t :=
  holder ← Execute statement closure;
  throw (ReturnException holder).

(** [ClassDefinition::Execute]: [cls_.TryAs<runtime::Class>()] is
    dereferenced without a test. *)
Definition ClassDefinition_Execute (cls : ObjectHolder.t) (closure : ClosureRef)
  : M ObjectHolder.t :=
  match TryAs_Class cls with
  | Some c =>
      st ← get_state;
      match classes st !! c with
      | Some class => _ ← closure_set closure (name_ class) cls; ret cls
      | None => undefined
      end
  | None => undefined
  end.

Definition IfElse_Execute (condition if_body : Statement)
    (else_body : option Statement) (closure : ClosureRef) : M ObjectHolder.t :=
  cond_holder ← Execute condition closure;
  if IsTrue cond_holder then Execute if_body closure
  else match else_body with
       | Some e => Execute e closure
       | None => ret ObjectHolder.None
       end.

Definition Or_Execute (lhs rhs : Statement) (closure : ClosureRef)
  : M ObjectHolder.t :=
  lhs_holder ← Execute lhs closure;
  rhs_holder ← Execute rhs closure;
  if ObjectHolder.to_bool lhs_holder && ObjectHolder.to_bool rhs_holder
  then ret (ObjectHolder.Own (Bool (IsTrue lhs_holder || IsTrue rhs_holder)))
  else throw (runtime_error "Invalid arguments in Or").

Definition And_Execute (lhs rhs : Statement) (closure : ClosureRef)
  : M ObjectHolder.t :=
  lhs_holder ← Execute lhs closure;
  rhs_holder ← Execute rhs closure;
  if ObjectHolder.to_bool lhs_holder && ObjectHolder.to_bool rhs_holder
  then ret (ObjectHolder.Own (Bool (IsTrue lhs_holder && IsTrue rhs_holder)))
  else throw (runtime_error "Invalid arguments in And").

Definition Not_Execute (argument : Statement) (closure : ClosureRef)
  : M ObjectHolder.t :=
  holder ← Execute argument closure;
  if ObjectHolder.to_bool holder
  then ret (ObjectHolder.Own (Bool (negb (IsTrue holder))))
  else throw (runtime_error "Invalid arguments in Not").

Definition Comparison_Execute (cmp : Comparator) (lhs rhs : Statement)
    (closure : ClosureRef) : M ObjectHolder.t :=
  lhs_holder ← Execute lhs closure;
  rhs_holder ← Execute rhs closure;
  b ← compare cmp lhs_holder rhs_holder;
  ret (ObjectHolder.Own (Bool b)).

(** [ObjectHolder::Own(std::move(inst))] for a new [ClassInstance] of class
    [cls]: the object gets an unused address; its fields are empty. *)
Definition new_instance (cls : ClassId) : M Addr :=
  fun st =>
    let a := fresh (dom (instances st)) in
    (Ok a, mk_State (classes st)
             (<[a := mk_ClassInstance cls ∅]> (instances st))
             (frames st) (output st) (runtime.self_name st)).

(** The rest of [NewInstance::Execute] once the instance is in the closure:
    lines 472-480.  [instance] is a raw pointer to the new instance, whose
    only owning holder is the one in the closure.  The arguments are
    evaluated before it is used for the call; an argument that binds the
    self-name anew (a [NewInstance] does) takes that holder away, and the
    instance is destroyed unless the arguments have made another owner. *)
Definition NewInstance_init (instance : Addr) (self_name : string)
    (args : list Statement) (closure : ClosureRef) : M ObjectHolder.t :=
  has ← HasMethod instance INIT_METHOD (length args);
  _ ← (if (has : bool) then
         actual_args ← Execute_args args closure;
         _ ← through_pointer actual_args instance;
         _ ← Call instance INIT_METHOD actual_args;
         ret tt
       else ret tt);
  closure_at closure self_name.

(** [NewInstance::Execute], lines 466-481. *)
Definition NewInstance_Execute (class_ : ClassId) (args : list Statement)
    (closure : ClosureRef) : M ObjectHolder.t :=
  self_name ← GetSelfName;
  instance ← new_instance class_;
  _ ← closure_set closure self_name (ObjectHolder.Own (ClassInstance_at instance));
  NewInstance_init instance self_name args closure.

(** [MethodBody::Execute]: a [ReturnException] thrown by the body becomes
    the result. *)
Definition MethodBody_Execute (body : Statement) (closure : ClosureRef)
  : M ObjectHolder.t :=
  fun st =>
    match Execute body closure st with
    | (Throw (ReturnException result), st1) => (Ok result, st1)
    | other => other
    end.

(** The virtual call [stmt->Execute(closure, context)]. *)
Definition Execute_node (s : Statement) (closure : ClosureRef) : M ObjectHolder.t :=
  match s with
  | VariableValue ids => VariableValue_Execute ids closure
  | Assignment x rv => Assignment_Execute x rv closure
  | FieldAssignment obj f rv => FieldAssignment_Execute obj f rv closure
  | Print args => Print_Execute args closure
  | MethodCall obj m args => MethodCall_Execute obj m args closure
  | Stringify arg => Stringify_Execute arg closure
  | Add l r => Add_Execute l r closure
  | Sub l r => Sub_Execute l r closure
  | Mult l r => Mult_Execute l r closure
  | Div l r => Div_Execute l r closure
  | Compound args => Compound_Execute args closure
  | Return st => Return_Execute st closure
  | ClassDefinition cls => ClassDefinition_Execute cls closure
  | IfElse c t e => IfElse_Execute c t e closure
  | Or l r => Or_Execute l r closure
  | And l r => And_Execute l r closure
  | Not arg => Not_Execute arg closure
  | Comparison cmp l r => Comparison_Execute cmp l r closure
  | NewInstance c args => NewInstance_Execute c args closure
  | MethodBody b => MethodBody_Execute b closure
  end.

End Linked.

(** The recursion of [Execute] and [Print] through the nodes, the method
    calls and [__str__], bounded by [fuel]. *)
Fixpoint Execute (u : Unit) (fuel : nat) (s : Statement) (closure : ClosureRef)
    {struct fuel} : M ObjectHolder.t :=
  match fuel with
  | O => out_of_fuel
  | S fuel' =>
      Execute_node u (Execute u fuel') (Print_object u fuel') s closure
  end
with Print_object (u : Unit) (fuel : nat) (o : Object) {struct fuel} : M string :=
  match fuel with
  | O => out_of_fuel
  | S fuel' => Object_Print u (Execute u fuel') (Print_object u fuel') o
  end.

End ast.

(** ** Vocabulary of the statements below *)

Module lexer_vocabulary.

Import stream.

(** A stream in good state, as it is while a line is being read. *)
Definition good_stream (cons rest : list ascii) : istream :=
  mk_istream cons rest false false.

(** The state of the stream after a reading loop that stopped at [rest],
    its last [get] included, and after the [unget] that follows. *)
Definition after_loop (cons rest : list ascii) : istream :=
  match rest with
  | [] => mk_istream cons [] true true
  | c :: r => good_stream (c :: cons) r
  end.

Definition after_unget (cons rest : list ascii) : istream :=
  match rest with
  | [] => mk_istream cons [] false true
  | c :: r => good_stream cons (c :: r)
  end.

(** [rest] does not start with a character satisfying [pred]. *)
Definition stops (pred : ascii -> bool) (rest : list ascii) : Prop :=
  match rest with
  | [] => True
  | c :: _ => pred c = false
  end.

(** The characters of a string literal of the development. *)
Definition chars (s : string) : list ascii := list_ascii_of_string s.

End lexer_vocabulary.

Module runtime_vocabulary.

Import runtime.

Section WithExecutable.

Context {Executable : Type}.

(** The spec's walk: [C, parent(C), parent(parent(C)), ...]. *)
Fixpoint parent_chain (c : Class Executable) : list (Class Executable) :=
  c :: match parent_ c with
       | Some p => parent_chain p
       | None => []
       end.

(** The class has a method of that name in its own list. *)
Definition declares (c : Class Executable) (method : string) : bool :=
  existsb (fun m => String.eqb (name m) method) (methods_ c).

(** The spec's lookup: the first class of the walk that has a method of the
    name decides; the method is the one its index holds. *)
Fixpoint first_match (chain : list (Class Executable)) (method : string)
  : option (Method Executable) :=
  match chain with
  | [] => None
  | c :: chain' =>
      if declares c method then own_method c method
      else first_match chain' method
  end.

(** What a closure binds a name to in a state, if the closure exists. *)
Definition bound_in (st : State Executable) (r : ClosureRef) (id : string)
  : option ObjectHolder.t :=
  c ← read_closure st r; c !! id.

(** The state after [ObjectHolder::Own(ClassInstance{cls})] and after
    [context.SetSelfName(x)]. *)
Definition with_instance (st : State Executable) (a : Addr) (cls : ClassId)
  : State Executable :=
  mk_State (classes st) (<[a := mk_ClassInstance cls ∅]> (instances st))
    (frames st) (output st) (self_name st).

Definition with_self_name (st : State Executable) (x : string)
  : State Executable :=
  mk_State (classes st) (instances st) (frames st) (output st) x.

End WithExecutable.

End runtime_vocabulary.

Module examples.

Import runtime ast.

(** A caller's closure, frame 0, binding [seven], [two], [minus_seven] and
    [zero] to numbers; no classes, no instances. *)
Definition numbers : State :=
  mk_State ∅ ∅
    {[ 0%nat := {[ "seven" := ObjectHolder.Own (Number 7);
                   "two" := ObjectHolder.Own (Number 2);
                   "minus_seven" := ObjectHolder.Own (Number (-7));
                   "zero" := ObjectHolder.Own (Number 0) ]} ]}
    "" "".

End examples.

Module constructor_examples.

Import runtime ast.



(** [class A] with [__init__(p, q)], [class B] without methods. *)
Definition A : Class Statement :=
  mk_Class "A" [mk_Method "__init__" ["p"; "q"] (MethodBody (Compound []))] None.

Definition B : Class Statement := mk_Class "B" [] None.

(** [A] at 0 and [B] at 1; the caller's closure binds [x] to 1 and [x] is
    the self-name, as it is while [x = ...] is executed. *)
Definition A_and_B : State :=
  mk_State {[ 0%nat := A; 1%nat := B ]} ∅
    {[ 0%nat := {[ "x" := ObjectHolder.Own (Number 1) ]} ]} "" "x".

(** [class Getter] with [get(a)] returning [a]; one instance of it, at
    address 0, without fields. *)
Definition Getter_get : Statement := MethodBody (Return (VariableValue ["a"])).

Definition Getter : Class Statement :=
  mk_Class "Getter" [mk_Method "get" ["a"] Getter_get] None.

Definition one_Getter : State :=
  mk_State {[ 0%nat := Getter ]} {[ 0%nat := mk_ClassInstance 0 ∅ ]} ∅ "" "".

End constructor_examples.

Module construction_states.

Import runtime ast constructor_examples.


(** [A_and_B] after [NewInstance(A, ...)] has put the new instance, at
    address 0, into the closure. *)
Definition A_under_construction : State :=
  mk_State {[ 0%nat := A; 1%nat := B ]} {[ 0%nat := mk_ClassInstance 0 ∅ ]}
    {[ 0%nat := {[ "x" := ObjectHolder.Own (ClassInstance_at 0) ]} ]} "" "x".

(** ... and after an argument [NewInstance(B)] has been evaluated: the
    instance of [B] is at address 1, and [x] is bound to it. *)
Definition A_and_B_constructed : State :=
  mk_State {[ 0%nat := A; 1%nat := B ]}
    {[ 0%nat := mk_ClassInstance 0 ∅; 1%nat := mk_ClassInstance 1 ∅ ]}
    {[ 0%nat := {[ "x" := ObjectHolder.Own (ClassInstance_at 1) ]} ]} "" "x".

(** ... and after a second argument [NewInstance(B)]: that instance is at
    address 2 and [x] is bound to it; no holder is left that owns the
    instance of [A]. *)
Definition A_and_two_B_constructed : State :=
  mk_State {[ 0%nat := A; 1%nat := B ]}
    {[ 0%nat := mk_ClassInstance 0 ∅; 1%nat := mk_ClassInstance 1 ∅;
       2%nat := mk_ClassInstance 1 ∅ ]}
    {[ 0%nat := {[ "x" := ObjectHolder.Own (ClassInstance_at 2) ]} ]} "" "x".

(** [one_Getter] after the [ClassInstance::Call] of [src/runtime.cpp] has
    assigned the actual argument [h] to the formal parameters of [get]. *)
Definition Getter_after_draft_Call (param : string) : State :=
  mk_State {[ 0%nat := mk_Class "Getter" [mk_Method "get" [param] Getter_get] None ]}
    {[ 0%nat := mk_ClassInstance 0 ∅ ]} ∅ "" "".

End construction_states.

Module frame_vocabulary.

Import runtime.

(** A computation that leaves the [Class] objects as they are, whatever its
    outcome. *)
Definition keeps_classes {Executable A : Type} (m : M Executable A) : Prop :=
  forall st, classes (m st).2 = classes st.

End frame_vocabulary.

Module indent_vocabulary.

Import parse.

(** The number of blocks left open by a sequence of tokens. *)
Definition depth (ts : list Token) : Z :=
  Z.of_nat (count_Indent ts) - Z.of_nat (count_Dedent ts).

(** A token [ReadLine] makes for the text of a line: anything but [Indent],
    [Dedent] and [Eof]. *)
Definition inline (t : Token) : bool :=
  negb (is_Indent t) && negb (is_Dedent t) && negb (is_Eof t).

Definition not_Eof (t : Token) : bool := negb (is_Eof t).

(** The tokens of a line as [ReadLine] returns them: tokens of the text,
    closed by [Eof] if the input ended on this line. *)
Definition line_shape (ts : list Token) : Prop :=
  Forall (fun t => inline t = true) ts
  \/ exists pre, ts = pre ++ [token_type.Eof]
                 /\ Forall (fun t => inline t = true) pre.

(** What the lexer has produced so far, [lx], is consistent with the
    indentation it records: as long as [Eof] has not been produced, the
    blocks open are [current_indent_ / 2]; once it has, it is the last
    token, and it came with a line [line] that closed the blocks only if it
    held nothing but [Eof]. *)
Definition indent_invariant (lx : Lexer) : Prop :=
  (Forall (fun t => not_Eof t = true) (lexer_tokens_ lx)
   /\ 0 <= current_indent_ lx
   /\ Z.rem (current_indent_ lx) 2 = 0
   /\ depth (lexer_tokens_ lx) = Z.quot (current_indent_ lx) 2)
  \/ (exists before line,
        lexer_tokens_ lx = before ++ tokens_ line
        /\ (exists pre, lexer_tokens_ lx = pre ++ [token_type.Eof]
                        /\ Forall (fun t => not_Eof t = true) pre)
        /\ 0 <= indent_ line
        /\ Z.rem (indent_ line) 2 = 0
        /\ depth (lexer_tokens_ lx)
           = if IsEofOnly line then 0 else Z.quot (indent_ line) 2).

(** The cursor of the lexer is on a token, and [seen] are the tokens before
    it. *)
Definition cursor_invariant (lx : Lexer) (seen : list Token) : Prop :=
  0 <= curr_pos_ lx
  /\ (Z.to_nat (curr_pos_ lx) < length (lexer_tokens_ lx))%nat
  /\ seen = take (Z.to_nat (curr_pos_ lx)) (lexer_tokens_ lx).

End indent_vocabulary.

Module newline_vocabulary.

Import stream parse indent_vocabulary.

Definition nl : ascii := "010"%char.

Definition ends_with_newline (r : list ascii) : Prop :=
  exists r0, r = r0 ++ [nl].

(** The stream inside a line of an input that ends with a newline: good,
    and the newline is still to come. *)
Definition mid_line (s : istream) : Prop :=
  good s = true /\ ends_with_newline (remaining s).

(** The stream where a line of such an input starts: good, and either at
    the end of the input or before a newline. *)
Definition line_start (s : istream) : Prop :=
  good s = true /\ (remaining s = [] \/ ends_with_newline (remaining s)).

(** As long as [Eof] has not been produced the stream is at the start of a
    line; once it has, no block is open. *)
Definition newline_invariant (lx : Lexer) : Prop :=
  (Forall (fun t => not_Eof t = true) (lexer_tokens_ lx) /\ line_start (in_ lx))
  \/ ((exists pre, lexer_tokens_ lx = pre ++ [token_type.Eof])
      /\ depth (lexer_tokens_ lx) = 0).

End newline_vocabulary.

Module isolation_vocabulary.

Import runtime.

(** A computation that works on the closure [r] leaves every other local
    closure (every frame but [r], if [r] is one) as it is, whatever its
    outcome. *)
Definition keeps_frames_but {Executable A : Type} (r : ClosureRef)
    (m : M Executable A) : Prop :=
  forall st j, r <> Frame j -> frames (m st).2 !! j = frames st !! j.

(** A computation that leaves all local closures as they are. *)
Definition keeps_frames {Executable A : Type} (m : M Executable A) : Prop :=
  forall st, frames (m st).2 = frames st.

End isolation_vocabulary.
Module comparison_vocabulary.

(** What each comparator answers on two values that compare as [c]. *)
Definition answer (cmp : ast.Comparator) (c : comparison) : bool :=
  match cmp, c with
  | ast.Equal, Eq => true
  | ast.Equal, _ => false
  | ast.NotEqual, Eq => false
  | ast.NotEqual, _ => true
  | ast.Less, Lt => true
  | ast.Less, _ => false
  | ast.Greater, Gt => true
  | ast.Greater, _ => false
  | ast.LessOrEqual, Gt => false
  | ast.LessOrEqual, _ => true
  | ast.GreaterOrEqual, Lt => false
  | ast.GreaterOrEqual, _ => true
  end.

End comparison_vocabulary.
Module print_vocabulary.

Import runtime.

(** The text of a holder that is empty or holds a [Number], a [String] or a
    [Bool]: what [Print::Execute] writes for it. *)
Definition text_of (h : ObjectHolder.t) : option string :=
  match ObjectHolder.Get h with
  | None => Some "None"
  | Some (Number n) => Some (decimal n)
  | Some (String s) => Some s
  | Some (Bool b) => Some (if b then "True" else "False")
  | Some (Class_at _) => None
  | Some (ClassInstance_at _) => None
  end.

(** The state with other text in the output stream. *)
Definition with_output {Executable : Type} (st : State Executable) (out : string)
  : State Executable :=
  mk_State (classes st) (instances st) (frames st) out (self_name st).

(** [s] is an expression whose value in [st] is [h], whatever has been
    written, and whose evaluation changes nothing. *)
Definition evaluates_to {Executable : Type}
    (E : Executable -> ClosureRef -> M Executable ObjectHolder.t)
    (closure : ClosureRef) (st : State Executable)
    (s : Executable) (h : ObjectHolder.t) : Prop :=
  forall out, E s closure (with_output st out) = (Ok h, with_output st out).

Definition newline : string := String.String "010"%char EmptyString.

End print_vocabulary.
Module object_examples.

Import runtime ast.

(** [class Point] without methods. *)
Definition Point : Class Statement := mk_Class "Point" [] None.

(** One class, [Point], at address 0; one instance of it, at address 0,
    with the field [x]; the caller's closure, frame 0, binds [p] to the
    instance and [v] to 5. *)
Definition one_Point : State :=
  mk_State {[ 0%nat := Point ]}
    {[ 0%nat := mk_ClassInstance 0 {[ "x" := ObjectHolder.Own (Number 1) ]} ]}
    {[ 0%nat := {[ "p" := ObjectHolder.Own (ClassInstance_at 0);
                   "v" := ObjectHolder.Own (Number 5) ]} ]}
    "" "".

(** [one_Point] with a second name, [q], for the instance, and with [p]
    as the self-name; and the same after [p.y = Point()]: the new instance,
    at address 1, is bound to [p] and is the field [y] of the instance at
    address 0, which [q] has kept. *)
Definition two_names : State :=
  mk_State {[ 0%nat := Point ]}
    {[ 0%nat := mk_ClassInstance 0 {[ "x" := ObjectHolder.Own (Number 1) ]} ]}
    {[ 0%nat := {[ "p" := ObjectHolder.Own (ClassInstance_at 0);
                   "q" := ObjectHolder.Own (ClassInstance_at 0) ]} ]}
    "" "p".

Definition two_names_assigned : State :=
  mk_State {[ 0%nat := Point ]}
    {[ 0%nat := mk_ClassInstance 0
                  {[ "x" := ObjectHolder.Own (Number 1);
                     "y" := ObjectHolder.Own (ClassInstance_at 1) ]};
       1%nat := mk_ClassInstance 0 ∅ ]}
    {[ 0%nat := {[ "p" := ObjectHolder.Own (ClassInstance_at 1);
                   "q" := ObjectHolder.Own (ClassInstance_at 0) ]} ]}
    "" "p".

(** [one_Point] after [NewInstance(Point)] has run with the self-name [p]:
    [p] is bound to the new instance, at address 1. *)
Definition Point_replaced : State :=
  mk_State {[ 0%nat := Point ]}
    {[ 0%nat := mk_ClassInstance 0 {[ "x" := ObjectHolder.Own (Number 1) ]};
       1%nat := mk_ClassInstance 0 ∅ ]}
    {[ 0%nat := {[ "p" := ObjectHolder.Own (ClassInstance_at 1);
                   "v" := ObjectHolder.Own (Number 5) ]} ]}
    "" "p".

End object_examples.

Module literal_vocabulary.

Definition backslash : ascii := "\"%char.
Definition double_quote : ascii := "034"%char.
Definition single_quote : ascii := "'"%char.
Definition carriage_return : ascii := "013"%char.
Definition tab : ascii := "009"%char.

(** A character that opens a string literal. *)
Definition quote (q : ascii) : Prop := q = double_quote \/ q = single_quote.

(** How a character of a text is written inside a string literal so that
    [ReadString] reads it back: the characters that have an escape sequence
    by that sequence, any other character as it is. *)
Definition escape (c : ascii) : list ascii :=
  if Ascii.eqb c "010" then [backslash; "n"%char]
  else if Ascii.eqb c tab then [backslash; "t"%char]
  else if Ascii.eqb c carriage_return then [backslash; "r"%char]
  else if Ascii.eqb c double_quote then [backslash; double_quote]
  else if Ascii.eqb c single_quote then [backslash; single_quote]
  else if Ascii.eqb c backslash then [backslash; backslash]
  else [c].

Definition escaped (text : list ascii) : list ascii := flat_map escape text.

(** The characters that may follow a backslash in a literal. *)
Definition escape_letter (c : ascii) : bool :=
  Ascii.eqb c "n" || Ascii.eqb c "t" || Ascii.eqb c "r"
  || Ascii.eqb c double_quote || Ascii.eqb c single_quote || Ascii.eqb c backslash.

(** The characters of an identifier after its first one. *)
Definition word_char (c : ascii) : bool :=
  isalpha c || Ascii.eqb c "_" || isdigit c.

(** The reserved words. *)
Definition keywords : list string :=
  ["class"; "return"; "if"; "else"; "def"; "print"; "and"; "or"; "not";
   "None"; "True"; "False"].

(** A token that stands for a reserved word. *)
Definition is_keyword_token (t : token_type.Token) : bool :=
  match t with
  | token_type.Class | token_type.Return | token_type.If | token_type.Else
  | token_type.Def | token_type.Print | token_type.And | token_type.Or
  | token_type.Not | token_type.None | token_type.True | token_type.False => true
  | _ => false
  end.

End literal_vocabulary.
Module line_vocabulary.

Import parse indent_vocabulary.

(** A token of the text of a line other than the [Newline] that ends it. *)
Definition plain (t : Token) : bool := inline t && negb (is_Newline t).

(** Logical lines, one after the other: each starts with [Indent] tokens or
    with [Dedent] tokens (or with neither), holds at least one token of the
    text and ends with [Newline]. *)
Inductive logical_lines : list Token -> Prop :=
| no_line : logical_lines []
| one_more_line ts prefix body :
    logical_lines ts ->
    Forall (fun t => is_Indent t = true) prefix
    \/ Forall (fun t => is_Dedent t = true) prefix ->
    body <> [] ->
    Forall (fun t => plain t = true) body ->
    logical_lines (ts ++ prefix ++ body ++ [token_type.Newline]).

(** The tokens of a complete program: logical lines, then the [Dedent]
    tokens that close the blocks, then [Eof]. *)
Definition program_shape (ts : list Token) : Prop :=
  exists lines ds,
    ts = lines ++ ds ++ [token_type.Eof]
    /\ logical_lines lines
    /\ Forall (fun t => is_Dedent t = true) ds.

(** What the lexer has produced so far consists of logical lines, closed
    by [Dedent]s and [Eof] once the input has ended. *)
Definition lines_invariant (lx : Lexer) : Prop :=
  logical_lines (lexer_tokens_ lx) \/ program_shape (lexer_tokens_ lx).

End line_vocabulary.
Module progress_vocabulary.

Import stream.

(** The number of characters the stream has not delivered yet. *)
Definition left (s : istream) : nat := length (remaining s).

(** A call that returns or throws: the bound on the loops of the embedding
    has not been reached, and no undefined behaviour has been met. *)
Definition returns_or_throws {E A : Type} (r : Outcome E A) : Prop :=
  (exists a, r = Ok a) \/ (exists e, r = Throw e).

End progress_vocabulary.
Module count_vocabulary.

Import stream parse progress_vocabulary.

Definition ends_with_Eof (ts : list Token) : bool :=
  is_Eof (List.last ts token_type.None).

(** The tokens produced so far, the blocks open and the characters still to
    be read, against the length [len] of the input: a token of the text
    costs a character, a block two spaces; only the [Newline] and the [Eof]
    made at the end of the input come for free. *)
Definition count_invariant (len : nat) (lx : Lexer) : Prop :=
  0 <= current_indent_ lx
  /\ Z.of_nat (length (lexer_tokens_ lx)) + Z.quot (current_indent_ lx) 2
     + Z.of_nat (left (in_ lx))
     <= Z.of_nat len + (if ends_with_Eof (lexer_tokens_ lx) then 2 else 0).

End count_vocabulary.
Module eof_vocabulary.

Import stream parse indent_vocabulary progress_vocabulary.

Definition has_Eof (line : TextLine) : bool := existsb is_Eof (tokens_ line).

(** The line of the input that carries [Eof]: the lines are read with
    [ReadLine], one after the other, up to the first that holds [Eof]. *)
Fixpoint Eof_line_from (fuel : nat) (s : istream) : Result TextLine :=
  match fuel with
  | O => OutOfFuel
  | S fuel' =>
      '(line, s1) ← ReadLine s;
      if has_Eof line then Ok line else Eof_line_from fuel' s1
  end.

Definition Eof_line (input : list ascii) : Result TextLine :=
  Eof_line_from (S (length input)) (from_chars input).

(** As long as [Eof] has not been produced, the line that carries it is
    still to be read from the stream; once it has, the blocks left open are
    those of that line. *)
Definition Eof_line_invariant (input : list ascii) (lx : Lexer) : Prop :=
  (Forall (fun t => not_Eof t = true) (lexer_tokens_ lx)
   /\ Eof_line_from (S (left (in_ lx))) (in_ lx) = Eof_line input)
  \/ (exists line pre,
        Eof_line input = Ok line
        /\ lexer_tokens_ lx = pre ++ [token_type.Eof]
        /\ Forall (fun t => not_Eof t = true) pre
        /\ 0 <= indent_ line
        /\ Z.rem (indent_ line) 2 = 0
        /\ depth (lexer_tokens_ lx)
           = if IsEofOnly line then 0 else Z.quot (indent_ line) 2).

End eof_vocabulary.
Module cursor_vocabulary.

Import stream parse.

(** The states of a lexer made for [input], each with the answer to the
    question whether every call so far has returned ([intact]).  The
    constructor leaves the first state (if its call of [NextToken] throws,
    there is no lexer).  A call of [NextToken] that returns leads to the
    state it returns.  A call that throws has moved the cursor (line 91
    comes first) and leaves [tokens_] and [current_indent_] as they were:
    nothing throws after they are written.  How much of the stream it has
    taken by then the embedding does not tell: [s] is any stream. *)
Inductive reachable (input : list ascii) : bool -> Lexer -> Prop :=
| reachable_new lx :
    new_Lexer (from_chars input) = Ok lx -> reachable input true lx
| reachable_next lx t lx' :
    reachable input true lx -> NextToken lx = Ok (t, lx') ->
    reachable input true lx'
| reachable_throw intact lx e s :
    reachable input intact lx -> NextToken lx = Throw e ->
    reachable input false
      (mk_Lexer s (lexer_tokens_ lx) (curr_pos_ lx + 1) (current_indent_ lx)).

End cursor_vocabulary.
(** ** Comparison and output of tokens: [src/lexer.cpp], lines 13-78 *)

Module token_operators.

Abbreviation Token := token_type.Token.

(** [Token::index()]: the number of the alternative the token holds.
    [lexer.h], which declares the alternatives, is not part of the sources;
    they are numbered here in the order in which [operator<<] lists them.
    [operator==] only tests two indices for equality. *)
Definition index (t : Token) : nat :=
  match t with
  | token_type.Number _ => 0
  | token_type.Id _ => 1
  | token_type.String _ => 2
  | token_type.Char _ => 3
  | token_type.Class => 4
  | token_type.Return => 5
  | token_type.If => 6
  | token_type.Else => 7
  | token_type.Def => 8
  | token_type.Newline => 9
  | token_type.Print => 10
  | token_type.Indent => 11
  | token_type.Dedent => 12
  | token_type.And => 13
  | token_type.Or => 14
  | token_type.Not => 15
  | token_type.Eq => 16
  | token_type.NotEq => 17
  | token_type.LessOrEq => 18
  | token_type.GreaterOrEq => 19
  | token_type.None => 20
  | token_type.True => 21
  | token_type.False => 22
  | token_type.Eof => 23
  end%nat.

(** [As<T>()], one function per valued alternative: [None] stands for the
    exception of an access to an alternative the token does not hold. *)
Definition As_Char (t : Token) : option ascii :=
  match t with token_type.Char v => Some v | _ => None end.

Definition As_Number (t : Token) : option Z :=
  match t with token_type.Number v => Some v | _ => None end.

Definition As_String (t : Token) : option string :=
  match t with token_type.String v => Some v | _ => None end.

Definition As_Id (t : Token) : option string :=
  match t with token_type.Id v => Some v | _ => None end.

(** [operator==], lines 13-32. *)
Definition operator_eq (lhs rhs : Token) : option bool :=
  if negb (Nat.eqb (index lhs) (index rhs)) then Some false
  else
    match lhs with
    | token_type.Char l => r ← As_Char rhs; Some (Ascii.eqb l r)
    | token_type.Number l => r ← As_Number rhs; Some (l =? r)
    | token_type.String l => r ← As_String rhs; Some (String.eqb l r)
    | token_type.Id l => r ← As_Id rhs; Some (String.eqb l r)
    | _ => Some true
    end.

(** [operator!=], lines 34-36. *)
Definition operator_ne (lhs rhs : Token) : option bool :=
  negb <$> operator_eq lhs rhs.

(** [operator<<], lines 38-78: the text written to [os].  The closing
    [Unknown token :(] is for a token that holds none of the alternatives;
    there is none. *)
Definition operator_out (rhs : Token) : string :=
  match rhs with
  | token_type.Number v => "Number" +:+ "{" +:+ runtime.decimal v +:+ "}"
  | token_type.Id v => "Id" +:+ "{" +:+ v +:+ "}"
  | token_type.String v => "String" +:+ "{" +:+ v +:+ "}"
  | token_type.Char v => "Char" +:+ "{" +:+ String.String v EmptyString +:+ "}"
  | token_type.Class => "Class"
  | token_type.Return => "Return"
  | token_type.If => "If"
  | token_type.Else => "Else"
  | token_type.Def => "Def"
  | token_type.Newline => "Newline"
  | token_type.Print => "Print"
  | token_type.Indent => "Indent"
  | token_type.Dedent => "Dedent"
  | token_type.And => "And"
  | token_type.Or => "Or"
  | token_type.Not => "Not"
  | token_type.Eq => "Eq"
  | token_type.NotEq => "NotEq"
  | token_type.LessOrEq => "LessOrEq"
  | token_type.GreaterOrEq => "GreaterOrEq"
  | token_type.None => "None"
  | token_type.True => "True"
  | token_type.False => "False"
  | token_type.Eof => "Eof"
  end.

End token_operators.

(** ** Factory functions of [statement.cpp] *)

Module ast_factories.

Import ast.

(** [VariableValue::VariableValue(const std::string &var_name)],
    lines 203-205. *)
Definition VariableValue_of_name (var_name : string) : Statement :=
  VariableValue [var_name].

(** [Print::Variable], lines 264-266. *)
Definition Print_Variable (name : string) : Statement :=
  Print [VariableValue_of_name name].

End ast_factories.

(** * Properties *)

(** ** The lexer *)

Section LexerFacts.

Import stream parse lexer_vocabulary.

Lemma get_good_cons cons c rest :
  get (good_stream cons (c :: rest)) = (Some c, good_stream (c :: cons) rest).
Proof. reflexivity. Qed.

Lemma get_good_nil cons :
  get (good_stream cons []) = (None, mk_istream cons [] true true).
Proof. reflexivity. Qed.

Lemma unget_after_loop cons rest :
  unget (after_loop cons rest) = after_unget cons rest.
Proof. destruct rest; reflexivity. Qed.

Lemma read_while_run pred ds :
  forall fuel cons rest s,
    Forall (fun c => pred c = true) ds ->
    stops pred rest ->
    (length ds < fuel)%nat ->
    read_while pred fuel (good_stream cons (ds ++ rest)) s
    = (s ++ ds, after_loop (rev ds ++ cons) rest).
Proof.
  induction ds as [|d ds IH]; intros fuel cons rest s Hds Hstop Hfuel.
  - rewrite app_nil_r. simpl app.
    destruct rest as [|c r].
    + destruct fuel; reflexivity.
    + destruct fuel as [|fuel]; [simpl in Hfuel; lia|].
      simpl in Hstop. cbn [read_while]. rewrite get_good_cons.
      cbn [ok failbit good_stream]. rewrite Hstop. reflexivity.
  - destruct fuel as [|fuel]; [simpl in Hfuel; lia|].
    inversion Hds as [|? ? Hd Hds']; subst.
    cbn [app read_while]. rewrite get_good_cons.
    cbn [ok failbit good_stream]. rewrite Hd. cbn [negb andb].
    fold (good_stream (d :: cons) (ds ++ rest)).
    rewrite IH by (auto; simpl in Hfuel; lia).
    rewrite <- app_assoc. simpl. rewrite <- app_assoc. reflexivity.
Qed.

End LexerFacts.

Section LexerClaims.

Import stream parse lexer_vocabulary.

Lemma ReadNumber_run line cons first ds rest :
  Forall (fun c => isdigit c = true) ds ->
  stops isdigit rest ->
  ReadNumber line (good_stream cons (ds ++ rest)) first
  = (if decimal_value (first :: ds) <=? INT_MAX
     then Ok (emplace_back line (token_type.Number (decimal_value (first :: ds))),
              after_unget (rev ds ++ cons) rest)
     else Throw lex_out_of_range).
Proof.
  intros Hds Hstop. unfold ReadNumber. cbn [remaining good_stream].
  rewrite (read_while_run isdigit ds) by (auto; rewrite length_app; lia).
  rewrite unget_after_loop. unfold stoi. cbn [app].
  destruct (decimal_value (first :: ds) <=? INT_MAX); reflexivity.
Qed.

(** C9 (as amended): a number literal, a digit [first] followed by the
    digits [ds] and then by something that is not a digit, whose value is at
    most [INT_MAX = 2^31 - 1], makes [ReadNumber] append a [Number] token
    carrying exactly that value and leaves the stream at the first
    character after the literal. *)
Theorem ReadNumber_within_int line cons first ds rest :
  isdigit first = true ->
  Forall (fun c => isdigit c = true) ds ->
  stops isdigit rest ->
  decimal_value (first :: ds) <= INT_MAX ->
  ReadNumber line (good_stream cons (ds ++ rest)) first
  = Ok (emplace_back line (token_type.Number (decimal_value (first :: ds))),
        after_unget (rev ds ++ cons) rest).
Proof.
  intros _ Hds Hstop Hfit. rewrite ReadNumber_run by assumption.
  apply Z.leb_le in Hfit. rewrite Hfit. reflexivity.
Qed.

Lemma ReadNumber_within_int_witness :
  ReadNumber (mk_TextLine 0 []) (good_stream ["2"%char] (chars "147483647" ++ chars " + 1")) "2"%char
  = Ok (mk_TextLine 0 [token_type.Number 2147483647],
        good_stream (rev (chars "2147483647")) (chars " + 1")).
Proof.
  apply (ReadNumber_within_int (mk_TextLine 0 []) ["2"%char] "2"%char
           (chars "147483647") (chars " + 1")).
  - reflexivity.
  - repeat constructor.
  - reflexivity.
  - vm_compute. discriminate.
Defined.

(** A literal above [INT_MAX] makes [std::stoi] throw: no token is made. *)
Lemma ReadNumber_above_int line cons first ds rest :
  Forall (fun c => isdigit c = true) ds ->
  stops isdigit rest ->
  INT_MAX < decimal_value (first :: ds) ->
  ReadNumber line (good_stream cons (ds ++ rest)) first = Throw lex_out_of_range.
Proof.
  intros Hds Hstop Hbig. rewrite ReadNumber_run by assumption.
  apply Z.leb_gt in Hbig. rewrite Hbig. reflexivity.
Qed.

(** C9 (as stated) fails: 2147483648 = 2^31 fits a signed 64-bit integer,
    and the lexer throws [std::out_of_range] on it. *)
Lemma literal_2_31_not_tokenized :
  2147483648 <= 9223372036854775807
  /\ tokenize (chars "2147483648") = Throw lex_out_of_range
  /\ tokenize (chars "x = 2147483648") = Throw lex_out_of_range.
Proof. split; [lia|]. split; vm_compute; reflexivity. Qed.

Example literal_int_max_tokenized :
  tokenize (chars "2147483647")
  = Ok [token_type.Number 2147483647; token_type.Newline; token_type.Eof].
Proof. vm_compute. reflexivity. Qed.

(** C8: in [TextLine::ReadLine] a [!] that is not followed by [=] falls
    through to the last branch of the chain: a [Char] token is appended and
    nothing is thrown.  [in_] is the stream after the [!] has been read. *)
Theorem ReadLine_solitary_bang_is_Char line in_ :
  (peek in_).1 <> Some "="%char ->
  ReadLine_body line (Some "!"%char) in_
  = Ok (emplace_back line (token_type.Char "!"%char), (peek in_).2).
Proof.
  intros Hnext. unfold ReadLine_body. cbn.
  destruct (peek in_) as [[c|] in1]; cbn in *; [|reflexivity].
  destruct c as [[] [] [] [] [] [] [] []]; try reflexivity.
  congruence.
Qed.

Lemma ReadLine_solitary_bang_is_Char_witness :
  ReadLine_body (mk_TextLine 0 []) (Some "!"%char) (good_stream ["!"%char] (chars " x"))
  = Ok (mk_TextLine 0 [token_type.Char "!"%char], good_stream ["!"%char] (chars " x")).
Proof.
  apply (ReadLine_solitary_bang_is_Char (mk_TextLine 0 [])
           (good_stream ["!"%char] (chars " x"))).
  simpl. discriminate.
Defined.

Example solitary_bang_tokens :
  tokenize (chars "a ! b")
  = Ok [token_type.Id "a"; token_type.Char "!"%char; token_type.Id "b";
        token_type.Newline; token_type.Eof]
  /\ tokenize (chars "!")
     = Ok [token_type.Char "!"%char; token_type.Newline; token_type.Eof].
Proof. split; vm_compute; reflexivity. Qed.

(** The earlier lexer does raise the error: its [ReadComparison] throws
    [LexerError] on a [!] that is not followed by [=]. *)
Lemma draft_ReadComparison_solitary_bang tokens in_ :
  (get in_).1 <> Some "="%char ->
  parse_draft.ReadComparison tokens in_ "!"%char = Throw (LexerError "! without =").
Proof.
  intros Hnext. unfold parse_draft.ReadComparison.
  destruct (get in_) as [[c|] in1]; cbn in *; [|reflexivity].
  destruct (Ascii.eqb_spec c "="%char) as [->|Hne]; [congruence|reflexivity].
Qed.

(** C5: on an input whose last line is indented and has no final newline
    the lexer reaches [Eof] with an [Indent] that no [Dedent] closes: the
    [Eof] arrives on a line that has other tokens, so that the branch that
    drains the indentation (lines 113-118) is not taken. *)
Theorem Indent_left_open_without_final_newline :
  tokenize (chars "x" ++ ["010"%char] ++ chars "  y")
  = Ok [token_type.Id "x"; token_type.Newline; token_type.Indent;
        token_type.Id "y"; token_type.Newline; token_type.Eof]
  /\ count_Indent [token_type.Id "x"; token_type.Newline; token_type.Indent;
                   token_type.Id "y"; token_type.Newline; token_type.Eof] = 1%nat
  /\ count_Dedent [token_type.Id "x"; token_type.Newline; token_type.Indent;
                   token_type.Id "y"; token_type.Newline; token_type.Eof] = 0%nat.
Proof. repeat split; vm_compute; reflexivity. Qed.

(** With the final newline the same program is balanced. *)
Example Indent_closed_with_final_newline :
  tokenize (chars "x" ++ ["010"%char] ++ chars "  y" ++ ["010"%char])
  = Ok [token_type.Id "x"; token_type.Newline; token_type.Indent;
        token_type.Id "y"; token_type.Newline; token_type.Dedent; token_type.Eof].
Proof. vm_compute. reflexivity. Qed.

End LexerClaims.

(** ** Classes and methods *)

Section ClassFacts.

Import runtime runtime_vocabulary.

Context {Executable : Type}.

Implicit Types (c : Class Executable) (ms : list (Method Executable)).

(** Induction along the chain of parents. *)
Lemma Class_chain_ind (P : Class Executable -> Prop) :
  (forall n ms, P (mk_Class n ms None)) ->
  (forall n ms p, P p -> P (mk_Class n ms (Some p))) ->
  forall c, P c.
Proof.
  intros Hroot Hstep.
  fix IH 1. intros [n ms [p|]].
  - apply Hstep, IH.
  - apply Hroot.
Qed.

Lemma index_methods_None ms : forall i idx method,
  index_methods ms i idx !! method = None
  <-> idx !! method = None /\ existsb (fun m => String.eqb (name m) method) ms = false.
Proof.
  induction ms as [|m ms IH]; intros i idx method; cbn [index_methods existsb].
  - tauto.
  - rewrite IH. destruct (String.eqb_spec (name m) method) as [->|Hne].
    + rewrite lookup_insert_eq. cbn. split; intros [H1 H2]; discriminate.
    + rewrite lookup_insert_ne by assumption. cbn. tauto.
Qed.

Lemma index_methods_Some ms : forall i idx method j,
  index_methods ms i idx !! method = Some j ->
  (idx !! method = Some j
   /\ existsb (fun m => String.eqb (name m) method) ms = false)
  \/ (exists m, (i <= j)%nat /\ ms !! (j - i)%nat = Some m /\ name m = method).
Proof.
  induction ms as [|m ms IH]; intros i idx method j; cbn [index_methods existsb].
  - intros H. left. auto.
  - intros H. apply IH in H as [[H1 H2]|(m' & Hle & Hm' & Hname)].
    + destruct (String.eqb_spec (name m) method) as [Heq|Hne].
      * rewrite Heq, lookup_insert_eq in H1. injection H1 as <-. right.
        exists m. rewrite Nat.sub_diag. auto.
      * rewrite lookup_insert_ne in H1 by assumption. left. auto.
    + right. exists m'. split; [lia|]. split; [|assumption].
      replace (j - i)%nat with (S (j - S i)) by lia. exact Hm'.
Qed.

(** The index the constructor builds is sound: an entry leads to a method
    of the class's own list that has the name, so [methods_.at] does not
    throw; and there is an entry exactly for the names the class declares. *)
Lemma own_method_Some c method i :
  methods_by_name_ c !! method = Some i ->
  exists m, methods_ c !! i = Some m /\ name m = method.
Proof.
  unfold methods_by_name_. intros H.
  apply index_methods_Some in H as [[H _]|(m & _ & Hm & Hname)].
  - rewrite lookup_empty in H. discriminate.
  - rewrite Nat.sub_0_r in Hm. eauto.
Qed.

Lemma methods_by_name_None c method :
  methods_by_name_ c !! method = None <-> declares c method = false.
Proof.
  unfold methods_by_name_, declares. rewrite index_methods_None.
  rewrite lookup_empty. tauto.
Qed.

Lemma own_method_declares c method :
  declares c method = true ->
  exists m, own_method c method = Some m /\ name m = method /\ m ∈ methods_ c.
Proof.
  intros Hd. unfold own_method.
  destruct (methods_by_name_ c !! method) as [i|] eqn:Hi.
  - destruct (own_method_Some _ _ _ Hi) as (m & Hm & Hname).
    exists m. cbn. split; [assumption|]. split; [assumption|].
    apply list_elem_of_lookup. eauto.
  - apply methods_by_name_None in Hi. congruence.
Qed.

(** The complete [runtime.cpp]: [Class::GetMethod] is the spec's walk of
    the parent chain. *)
Lemma first_match_head c chain method :
  first_match (c :: chain) method
  = match methods_by_name_ c !! method with
    | Some i => methods_ c !! i
    | None => first_match chain method
    end.
Proof.
  cbn [first_match]. unfold own_method.
  destruct (methods_by_name_ c !! method) as [i|] eqn:Hi.
  - destruct (declares c method) eqn:Hd; [reflexivity|].
    apply methods_by_name_None in Hd. congruence.
  - apply methods_by_name_None in Hi. rewrite Hi. reflexivity.
Qed.

(** The complete [runtime.cpp]: [Class::GetMethod] is the spec's walk of
    the parent chain. *)
Lemma final_GetMethod_first_match c method :
  runtime_final.GetMethod c method = first_match (parent_chain c) method.
Proof.
  induction c as [n ms|n ms p IH] using Class_chain_ind;
    cbn [parent_chain parent_]; rewrite first_match_head;
    cbn [runtime_final.GetMethod parent_ methods_].
  - reflexivity.
  - rewrite IH. reflexivity.
Qed.

Lemma first_match_Some chain method m :
  first_match chain method = Some m ->
  exists before d after,
    chain = before ++ d :: after
    /\ Forall (fun c => declares c method = false) before
    /\ declares d method = true
    /\ m ∈ methods_ d /\ name m = method.
Proof.
  induction chain as [|c chain IH]; cbn [first_match]; [discriminate|].
  destruct (declares c method) eqn:Hd; intros H.
  - destruct (own_method_declares _ _ Hd) as (m' & Hm' & Hname & Hin).
    rewrite Hm' in H. injection H as <-.
    exists [], c, chain. repeat split; auto.
  - destruct (IH H) as (before & d & after & -> & Hb & Hdd & Hin & Hname).
    exists (c :: before), d, after. repeat split; auto.
Qed.

Lemma first_match_None chain method :
  first_match chain method = None
  <-> Forall (fun c => declares c method = false) chain.
Proof.
  induction chain as [|c chain IH]; cbn [first_match].
  - split; auto.
  - destruct (declares c method) eqn:Hd.
    + destruct (own_method_declares _ _ Hd) as (m' & Hm' & _). rewrite Hm'.
      split; [discriminate|]. intros H. inversion H; congruence.
    + rewrite IH. split; intros H; [constructor; assumption|].
      inversion H; assumption.
Qed.

(** X2: In the complete [runtime.cpp] the claim of C2 holds: the result is a
    method of the first class of the walk that declares the name; it is null
    exactly when no class of the walk declares it; a method that only the
    parent declares is found on the child. *)
Lemma final_GetMethod_walk c method :
  (forall m, runtime_final.GetMethod c method = Some m ->
     exists before d after,
       parent_chain c = before ++ d :: after
       /\ Forall (fun c' => declares c' method = false) before
       /\ declares d method = true /\ m ∈ methods_ d /\ name m = method)
  /\ (runtime_final.GetMethod c method = None
      <-> Forall (fun c' => declares c' method = false) (parent_chain c)).
Proof.
  rewrite final_GetMethod_first_match. split.
  - intros m. apply first_match_Some.
  - apply first_match_None.
Qed.

Lemma final_GetMethod_inherited n ms p method :
  declares (mk_Class n ms (Some p)) method = false ->
  runtime_final.GetMethod (mk_Class n ms (Some p)) method
  = runtime_final.GetMethod p method.
Proof.
  intros Hd. cbn [runtime_final.GetMethod parent_ methods_].
  apply methods_by_name_None in Hd. rewrite Hd. reflexivity.
Qed.

(** C2: [Class::GetMethod] of [src/runtime.cpp] (lines 116-121) does not
    walk the chain: for a name the class does not declare itself the result
    is null, whatever its parent declares. *)
Theorem draft_GetMethod_ignores_parent c method :
  declares c method = false ->
  runtime_draft.GetMethod c method = None.
Proof.
  intros Hd. unfold runtime_draft.GetMethod.
  apply methods_by_name_None in Hd. rewrite Hd. reflexivity.
Qed.

End ClassFacts.

Section ClassExamples.

Import runtime runtime_vocabulary.

Lemma draft_GetMethod_ignores_parent_witness :
  runtime_draft.GetMethod
    (mk_Class "Derived" [] (Some (mk_Class "Base" [mk_Method "m" [] tt] None))) "m"
  = None.
Proof.
  apply (draft_GetMethod_ignores_parent
           (mk_Class "Derived" [] (Some (mk_Class "Base" [mk_Method "m" [] tt] None)))
           "m").
  reflexivity.
Defined.

(** The same lookup in the complete [runtime.cpp] finds the parent's
    method. *)
Example final_GetMethod_finds_parent_method :
  runtime_final.GetMethod
    (mk_Class "Derived" [] (Some (mk_Class "Base" [mk_Method "m" [] tt] None))) "m"
  = Some (mk_Method "m" [] tt).
Proof. vm_compute. reflexivity. Qed.

End ClassExamples.

(** ** Truth values *)

Section IsTrueFacts.

Import runtime.

(** C4: [IsTrue] of [src/runtime.cpp] (lines 50-63) has no branch for
    [Class] and [ClassInstance]: a holder of either reaches the closing
    [return true]. *)
Theorem draft_IsTrue_of_objects (c : ClassId) (a : Addr) :
  runtime_draft.IsTrue (ObjectHolder.Own (Class_at c)) = true
  /\ runtime_draft.IsTrue (ObjectHolder.Own (ClassInstance_at a)) = true
  /\ runtime_draft.IsTrue (ObjectHolder.Share (ClassInstance_at a)) = true.
Proof. repeat split. Qed.

(** [IsTrue] of the complete [runtime.cpp] (lines 50-68) is what C4 says. *)
Lemma final_IsTrue_spec :
  runtime_final.IsTrue ObjectHolder.None = false
  /\ (forall h b, TryAs_Bool h = Some b -> runtime_final.IsTrue h = b)
  /\ (forall h n, TryAs_Number h = Some n ->
        runtime_final.IsTrue h = negb (n =? 0))
  /\ (forall h s, TryAs_String h = Some s ->
        runtime_final.IsTrue h = negb (String.eqb s ""))
  /\ (forall h c, TryAs_Class h = Some c -> runtime_final.IsTrue h = false)
  /\ (forall h a, TryAs_ClassInstance h = Some a -> runtime_final.IsTrue h = false).
Proof.
  split; [reflexivity|].
  repeat split; intros h x H; unfold runtime_final.IsTrue;
    unfold TryAs_Bool, TryAs_Number, TryAs_String, TryAs_Class,
      TryAs_ClassInstance in H;
    destruct (ObjectHolder.Get h) as [[]|]; congruence.
Qed.

(** On the primitive values and on the empty holder the two versions
    agree. *)
Lemma draft_IsTrue_primitive h :
  TryAs_Class h = None -> TryAs_ClassInstance h = None ->
  runtime_draft.IsTrue h = runtime_final.IsTrue h.
Proof.
  unfold runtime_draft.IsTrue, runtime_final.IsTrue, TryAs_Class,
    TryAs_ClassInstance.
  destruct (ObjectHolder.Get h) as [[]|]; congruence.
Qed.

End IsTrueFacts.

(** ** The evaluator *)

Section MonadFacts.

Import runtime.

Context {Executable : Type}.

Lemma bind_Ok {A B : Type} (m : M Executable A) (f : A -> M Executable B) st a st1 :
  m st = (Ok a, st1) -> (m ≫= f) st = f a st1.
Proof. intros H. unfold mbind, M_mbind, bind. rewrite H. reflexivity. Qed.

Lemma bind_Throw {A B : Type} (m : M Executable A) (f : A -> M Executable B) st e st1 :
  m st = (Throw e, st1) -> (m ≫= f) st = (Throw e, st1).
Proof. intros H. unfold mbind, M_mbind, bind. rewrite H. reflexivity. Qed.

Lemma bind_Undefined {A B : Type} (m : M Executable A) (f : A -> M Executable B) st st1 :
  m st = (Undefined, st1) -> (m ≫= f) st = (Undefined, st1).
Proof. intros H. unfold mbind, M_mbind, bind. rewrite H. reflexivity. Qed.

Lemma TryAs_Number_to_bool h n :
  TryAs_Number h = Some n -> ObjectHolder.to_bool h = true.
Proof. destruct h; cbn; congruence. Qed.

End MonadFacts.

Section ArithmeticFacts.

Import runtime ast.

Lemma Execute_S u n s closure :
  Execute u (S n) s closure
  = Execute_node u (Execute u n) (Print_object u n) s closure.
Proof. reflexivity. Qed.

Lemma Div_Execute_Numbers u n lhs rhs closure st hl hr st1 st2 l r :
  Execute u n lhs closure st = (Ok hl, st1) ->
  Execute u n rhs closure st1 = (Ok hr, st2) ->
  TryAs_Number hl = Some l ->
  TryAs_Number hr = Some r ->
  Execute u (S n) (Div lhs rhs) closure st
  = if r =? 0 then (Undefined, st2)
    else if in_range (Z.quot l r)
         then (Ok (ObjectHolder.Own (Number (Z.quot l r))), st2)
         else (Undefined, st2).
Proof.
  intros Hl Hr Hnl Hnr. rewrite Execute_S. cbn [Execute_node].
  unfold Div_Execute.
  rewrite (bind_Ok _ _ _ _ _ Hl), (bind_Ok _ _ _ _ _ Hr).
  rewrite (TryAs_Number_to_bool _ _ Hnl), (TryAs_Number_to_bool _ _ Hnr).
  cbn [andb]. rewrite Hnl, Hnr.
  destruct (r =? 0); [reflexivity|].
  unfold number_result. destruct (in_range (Z.quot l r)); reflexivity.
Qed.

(** C7: [Div::Execute] on two [Number]s of which the divisor is 0 does not
    throw: it evaluates [lhs / 0], which has no defined behaviour. *)
Theorem Div_by_zero_is_undefined u n lhs rhs closure st hl hr st1 st2 l :
  Execute u n lhs closure st = (Ok hl, st1) ->
  Execute u n rhs closure st1 = (Ok hr, st2) ->
  TryAs_Number hl = Some l ->
  TryAs_Number hr = Some 0 ->
  Execute u (S n) (Div lhs rhs) closure st = (Undefined, st2)
  /\ forall what, Execute u (S n) (Div lhs rhs) closure st
                  <> (Throw (runtime_error what), st2).
Proof.
  intros Hl Hr Hnl Hnr.
  rewrite (Div_Execute_Numbers u n lhs rhs closure st hl hr st1 st2 l 0 Hl Hr Hnl Hnr).
  cbn. split; [reflexivity|]. intros what. discriminate.
Qed.

(** With a divisor other than 0 the result is the quotient truncated
    towards zero (as long as it is in the range of [Number]). *)
Lemma Div_truncates u n lhs rhs closure st hl hr st1 st2 l r :
  Execute u n lhs closure st = (Ok hl, st1) ->
  Execute u n rhs closure st1 = (Ok hr, st2) ->
  TryAs_Number hl = Some l ->
  TryAs_Number hr = Some r ->
  r <> 0 ->
  in_range (Z.quot l r) = true ->
  Execute u (S n) (Div lhs rhs) closure st
  = (Ok (ObjectHolder.Own (Number (Z.quot l r))), st2).
Proof.
  intros Hl Hr Hnl Hnr Hr0 Hrange.
  rewrite (Div_Execute_Numbers u n lhs rhs closure st hl hr st1 st2 l r Hl Hr Hnl Hnr).
  apply Z.eqb_neq in Hr0. rewrite Hr0, Hrange. reflexivity.
Qed.

End ArithmeticFacts.

(** ** Instances that are seen to exist *)

Section LifetimeFacts.

Import runtime.

Context {Executable : Type}.

Implicit Types (st : State Executable) (c : Closure).

Lemma owned_by_elem c id a :
  c !! id = Some (ObjectHolder.Own (ClassInstance_at a)) -> a ∈ owned_by c.
Proof.
  intros H. unfold owned_by. rewrite elem_of_list_to_set, list_elem_of_omap.
  exists (ObjectHolder.Own (ClassInstance_at a)). split; [|reflexivity].
  apply list_elem_of_fmap. exists (id, ObjectHolder.Own (ClassInstance_at a)).
  split; [reflexivity|]. apply elem_of_map_to_list, H.
Qed.

Lemma owned_by_frames_elem st k c id a :
  frames st !! k = Some c ->
  c !! id = Some (ObjectHolder.Own (ClassInstance_at a)) ->
  a ∈ owned_by_frames st.
Proof.
  intros Hk Hid. unfold owned_by_frames. apply elem_of_union_list.
  exists (owned_by c). split; [|exact (owned_by_elem c id a Hid)].
  apply list_elem_of_fmap. exists c. split; [reflexivity|].
  apply list_elem_of_fmap. exists (k, c). split; [reflexivity|].
  apply elem_of_map_to_list, Hk.
Qed.

Lemma and_what_they_own_extensive rounds : forall st (found : gset Addr),
  found ⊆ and_what_they_own rounds st found.
Proof.
  induction rounds as [|rounds IH]; intros st found; cbn [and_what_they_own].
  - reflexivity.
  - etransitivity; [|apply IH]. apply union_subseteq_l.
Qed.

(** An instance that a frame binds by an owning holder is seen to exist,
    and so is one that a local holder owns. *)
Lemma alive_in_frame st locals k c id a :
  frames st !! k = Some c ->
  c !! id = Some (ObjectHolder.Own (ClassInstance_at a)) ->
  alive st locals a = true.
Proof.
  intros Hk Hid. unfold alive. apply bool_decide_eq_true.
  apply and_what_they_own_extensive. apply elem_of_union_l.
  exact (owned_by_frames_elem st k c id a Hk Hid).
Qed.

Lemma alive_in_locals st locals a :
  ObjectHolder.Own (ClassInstance_at a) ∈ locals ->
  alive st locals a = true.
Proof.
  intros H. unfold alive. apply bool_decide_eq_true.
  apply and_what_they_own_extensive. apply elem_of_union_r.
  rewrite elem_of_list_to_set, list_elem_of_omap.
  exists (ObjectHolder.Own (ClassInstance_at a)). split; [exact H|reflexivity].
Qed.

Lemma through_pointer_run st locals a :
  alive st locals a = true ->
  through_pointer locals a st = (Ok tt, st).
Proof. intros H. unfold through_pointer. rewrite H. reflexivity. Qed.

Lemma through_pointer_dangling st locals a :
  alive st locals a = false ->
  through_pointer locals a st = (Undefined, st).
Proof. intros H. unfold through_pointer. rewrite H. reflexivity. Qed.

End LifetimeFacts.

Section ArithmeticExamples.

Import runtime ast examples.

Lemma Div_by_zero_is_undefined_witness :
  Execute Final 2 (Div (VariableValue ["seven"]) (VariableValue ["zero"]))
    (Frame 0) numbers = (Undefined, numbers)
  /\ forall what,
       Execute Final 2 (Div (VariableValue ["seven"]) (VariableValue ["zero"]))
         (Frame 0) numbers <> (Throw (runtime_error what), numbers).
Proof.
  apply (Div_by_zero_is_undefined Final 1 (VariableValue ["seven"])
           (VariableValue ["zero"]) (Frame 0) numbers
           (ObjectHolder.Own (Number 7)) (ObjectHolder.Own (Number 0))
           numbers numbers 7);
    vm_compute; reflexivity.
Defined.

Example Div_truncates_towards_zero :
  Execute Final 2 (Div (VariableValue ["minus_seven"]) (VariableValue ["two"]))
    (Frame 0) numbers = (Ok (ObjectHolder.Own (Number (-3))), numbers).
Proof. vm_compute. reflexivity. Qed.

End ArithmeticExamples.

(** ** Comparators *)

Section ComparatorFacts.

Import runtime ast.

Variable Execute : Statement -> ClosureRef -> M ObjectHolder.t.

(** In the complete [runtime.cpp] the derived comparators are defined
    wherever the comparators they are written with are. *)
Lemma final_NotEqual lhs rhs st e st1 :
  runtime_final.Equal Execute lhs rhs st = (Ok e, st1) ->
  runtime_final.NotEqual Execute lhs rhs st = (Ok (negb e), st1).
Proof.
  intros H. unfold runtime_final.NotEqual. rewrite (bind_Ok _ _ _ _ _ H).
  reflexivity.
Qed.

Lemma final_Greater lhs rhs st l st1 :
  runtime_final.Less Execute lhs rhs st = (Ok l, st1) ->
  runtime_final.Greater Execute lhs rhs st
  = if l then (Ok false, st1)
    else match runtime_final.Equal Execute lhs rhs st1 with
         | (Ok e, st2) => (Ok (negb e), st2)
         | (Throw x, st2) => (Throw x, st2)
         | (Undefined, st2) => (Undefined, st2)
         | (OutOfFuel, st2) => (OutOfFuel, st2)
         end.
Proof.
  intros H. unfold runtime_final.Greater. rewrite (bind_Ok _ _ _ _ _ H).
  destruct l; [reflexivity|].
  unfold mbind, M_mbind, bind.
  destruct (runtime_final.Equal Execute lhs rhs st1) as [[e| | |] st2]; reflexivity.
Qed.

Lemma final_LessOrEqual lhs rhs st g st1 :
  runtime_final.Greater Execute lhs rhs st = (Ok g, st1) ->
  runtime_final.LessOrEqual Execute lhs rhs st = (Ok (negb g), st1).
Proof.
  intros H. unfold runtime_final.LessOrEqual. rewrite (bind_Ok _ _ _ _ _ H).
  reflexivity.
Qed.

Lemma final_GreaterOrEqual lhs rhs st l st1 :
  runtime_final.Less Execute lhs rhs st = (Ok l, st1) ->
  runtime_final.GreaterOrEqual Execute lhs rhs st = (Ok (negb l), st1).
Proof.
  intros H. unfold runtime_final.GreaterOrEqual. rewrite (bind_Ok _ _ _ _ _ H).
  reflexivity.
Qed.

(** C3: the derived comparators of [src/runtime.cpp] (lines 164-182) are
    stubs: [NotEqual], [Greater], [LessOrEqual] and [GreaterOrEqual] throw
    on every pair of operands, also where [Equal] returns, as it does on two
    numbers; so [NotEqual(a, b)] is not [!Equal(a, b)] there.  The complete
    [runtime.cpp] computes what the claim says: each derived comparator
    returns wherever the comparators it is written with return, with the
    negated value and with their effects and no other.  In
    [Less(a, b) || Equal(a, b)] the call of [Equal] comes after that of
    [Less], in the state [Less] left, and only if [Less] returned false:
    if it returned true, [Greater] is false without it. *)
Theorem draft_derived_comparators_are_stubs conv lhs rhs st :
  (forall l r,
     compare (Draft conv) Execute Equal
       (ObjectHolder.Own (Number l)) (ObjectHolder.Own (Number r)) st
     = (Ok (l =? r), st))
  /\ (forall cmp, cmp <> Equal -> cmp <> Less ->
      compare (Draft conv) Execute cmp lhs rhs st
      = (Throw (runtime_error "Cannot compare objects for equality"), st))
  /\ (forall e s1,
        compare Final Execute Equal lhs rhs st = (Ok e, s1) ->
        compare Final Execute NotEqual lhs rhs st = (Ok (negb e), s1))
  /\ (forall s1,
        compare Final Execute Less lhs rhs st = (Ok true, s1) ->
        compare Final Execute Greater lhs rhs st = (Ok false, s1))
  /\ (forall e s1 s2,
        compare Final Execute Less lhs rhs st = (Ok false, s1) ->
        compare Final Execute Equal lhs rhs s1 = (Ok e, s2) ->
        compare Final Execute Greater lhs rhs st = (Ok (negb (false || e)), s2))
  /\ (forall g s1,
        compare Final Execute Greater lhs rhs st = (Ok g, s1) ->
        compare Final Execute LessOrEqual lhs rhs st = (Ok (negb g), s1))
  /\ (forall l s1,
        compare Final Execute Less lhs rhs st = (Ok l, s1) ->
        compare Final Execute GreaterOrEqual lhs rhs st = (Ok (negb l), s1)).
Proof.
  cbn [compare]. split; [reflexivity|].
  split; [intros cmp H1 H2; destruct cmp; try congruence; reflexivity|].
  split; [intros e s1; apply final_NotEqual|].
  split; [intros s1 Hl; rewrite (final_Greater _ _ _ _ _ Hl); reflexivity|].
  split.
  { intros e s1 s2 Hl He. rewrite (final_Greater _ _ _ _ _ Hl), He. reflexivity. }
  split; [intros g s1; apply final_LessOrEqual|].
  intros l s1. apply final_GreaterOrEqual.
Qed.

End ComparatorFacts.

Section ComparatorExamples.

Import runtime ast examples.

Lemma draft_derived_comparators_are_stubs_witness :
  compare (Draft (fun _ => "p")) (Execute (Draft (fun _ => "p")) 0) Equal
    (ObjectHolder.Own (Number 1)) (ObjectHolder.Own (Number 2)) numbers
  = (Ok false, numbers)
  /\ compare (Draft (fun _ => "p")) (Execute (Draft (fun _ => "p")) 0) NotEqual
       (ObjectHolder.Own (Number 1)) (ObjectHolder.Own (Number 2)) numbers
     = (Throw (runtime_error "Cannot compare objects for equality"), numbers)
  /\ compare Final (Execute Final 0) NotEqual
       (ObjectHolder.Own (Number 1)) (ObjectHolder.Own (Number 2)) numbers
     = (Ok true, numbers)
  /\ compare Final (Execute Final 0) Greater
       (ObjectHolder.Own (Number 1)) (ObjectHolder.Own (Number 2)) numbers
     = (Ok false, numbers)
  /\ compare Final (Execute Final 0) LessOrEqual
       (ObjectHolder.Own (Number 1)) (ObjectHolder.Own (Number 2)) numbers
     = (Ok true, numbers)
  /\ compare Final (Execute Final 0) GreaterOrEqual
       (ObjectHolder.Own (Number 1)) (ObjectHolder.Own (Number 2)) numbers
     = (Ok false, numbers).
Proof.
  destruct (draft_derived_comparators_are_stubs (Execute Final 0) (fun _ => "p")
              (ObjectHolder.Own (Number 1)) (ObjectHolder.Own (Number 2)) numbers)
    as (_ & _ & Hne & Hg & _ & Hle & Hge).
  destruct (draft_derived_comparators_are_stubs (Execute (Draft (fun _ => "p")) 0)
              (fun _ => "p")
              (ObjectHolder.Own (Number 1)) (ObjectHolder.Own (Number 2)) numbers)
    as (He & Hstub & _).
  split; [exact (He 1 2)|].
  split; [apply Hstub; discriminate|].
  split; [exact (Hne false numbers eq_refl)|].
  split; [exact (Hg numbers eq_refl)|].
  split; [exact (Hle false numbers eq_refl)|].
  exact (Hge true numbers eq_refl).
Defined.

End ComparatorExamples.

(** ** Assignment and the construction of instances *)

Section ConstructionFacts.

Import runtime ast runtime_vocabulary.

Implicit Types (st : State) (closure : ClosureRef).

Lemma fresh_instance_unused st :
  instances st !! fresh (dom (instances st)) = None.
Proof. apply not_elem_of_dom, is_fresh. Qed.

Lemma read_closure_with_instance st closure c cls :
  read_closure st closure = Some c ->
  read_closure (with_instance st (fresh (dom (instances st))) cls) closure = Some c.
Proof.
  destruct closure as [k|a]; cbn; [tauto|].
  intros H. destruct (decide (a = fresh (dom (instances st)))) as [->|Hne].
  - rewrite fresh_instance_unused in H. discriminate.
  - rewrite lookup_insert_ne by congruence. exact H.
Qed.

Lemma read_write_closure st closure c c' :
  read_closure st closure = Some c ->
  read_closure (write_closure st closure c') closure = Some c'.
Proof.
  destruct closure as [k|a]; cbn.
  - intros _. apply lookup_insert_eq.
  - destruct (instances st !! a) as [inst|]; [|discriminate].
    intros _. cbn. rewrite lookup_insert_eq. reflexivity.
Qed.

Lemma closure_set_run st closure c id h :
  read_closure st closure = Some c ->
  closure_set closure id h st = (Ok tt, write_closure st closure (<[id := h]> c)).
Proof. intros H. unfold closure_set. rewrite H. reflexivity. Qed.

Lemma closure_get_run st closure c id :
  read_closure st closure = Some c ->
  closure_get closure id st = (Ok (c !! id), st).
Proof. intros H. unfold closure_get. rewrite H. reflexivity. Qed.

Section Linked.

Variable u : Unit.
Variable n : nat.

(** [NewInstance::Execute] puts the new instance into the closure first;
    the test for [__init__], the evaluation of the arguments and the call
    all come after, in the state [st1] that has the binding. *)
Lemma NewInstance_Execute_steps cls args closure st c :
  read_closure st closure = Some c ->
  Execute u (S n) (NewInstance cls args) closure st
  = NewInstance_init u (Execute u n) (fresh (dom (instances st))) (self_name st)
      args closure
      (write_closure (with_instance st (fresh (dom (instances st))) cls) closure
         (<[self_name st := ObjectHolder.Own (ClassInstance_at (fresh (dom (instances st))))]> c)).
Proof.
  intros Hc. rewrite Execute_S. cbn [Execute_node]. unfold NewInstance_Execute.
  rewrite (bind_Ok GetSelfName _ st (self_name st) st) by reflexivity.
  rewrite (bind_Ok (new_instance cls) _ st (fresh (dom (instances st)))
             (with_instance st (fresh (dom (instances st))) cls)) by reflexivity.
  rewrite (bind_Ok _ _ _ _ _
             (closure_set_run _ closure c _ _ (read_closure_with_instance _ _ _ cls Hc))).
  reflexivity.
Qed.

Lemma bound_after_insertion cls closure st c :
  read_closure st closure = Some c ->
  bound_in
    (write_closure (with_instance st (fresh (dom (instances st))) cls) closure
       (<[self_name st := ObjectHolder.Own (ClassInstance_at (fresh (dom (instances st))))]> c))
    closure (self_name st)
  = Some (ObjectHolder.Own (ClassInstance_at (fresh (dom (instances st))))).
Proof.
  intros Hc. unfold bound_in.
  rewrite (read_write_closure _ closure c _ (read_closure_with_instance _ _ _ cls Hc)).
  cbn. apply lookup_insert_eq.
Qed.

End Linked.

Section Arguments.

Variable u : Unit.
Variable n : nat.



End Arguments.

End ConstructionFacts.

Section ConstructionExamples.

Import runtime ast runtime_vocabulary constructor_examples construction_states.



(** An argument after one that has bound the name anew does not see the
    instance under construction: in [x = A(B(), x)] the second argument is
    the instance of [B]. *)
Example later_argument_sees_the_new_binding :
  Execute_args (Execute Final 3) [NewInstance 1 []; VariableValue ["x"]]
    (Frame 0) A_under_construction
  = (Ok [ObjectHolder.Own (ClassInstance_at 1); ObjectHolder.Own (ClassInstance_at 1)],
     A_and_B_constructed).
Proof. vm_compute. reflexivity. Qed.

(** C10: [NewInstance::Execute] counts on the binding it made: it keeps a
    pointer to the instance in that holder and reads the holder back at the
    end.  A constructor call among the arguments runs with the same
    self-name and replaces the holder, with either version of
    [runtime.cpp].  In [x = A(B(), nope)] the second argument throws; the
    instance this node created is at address 0; the closure is left holding
    the instance of [B], at address 1, and no holder of the instance of [A]
    is left: it has been destroyed.  In [x = A(B(), B())] no argument
    throws, and [__init__] is called through the pointer to the destroyed
    instance.  In [x = A(x, B())] the first argument keeps the instance of
    [A] in existence; [__init__] runs on it, and what
    [NewInstance::Execute] returns as the new [A] is the instance of [B]. *)
Theorem nested_NewInstance_rebinds_self_name (u : Unit) :
  fresh (dom (instances A_and_B)) = 0%nat
  /\ Execute u 4 (NewInstance 0 [NewInstance 1 []; VariableValue ["nope"]])
       (Frame 0) A_and_B
     = (Throw (runtime_error "Uncknown variable name: nope"), A_and_B_constructed)
  /\ bound_in A_and_B_constructed (Frame 0) "x"
     = Some (ObjectHolder.Own (ClassInstance_at 1))
  /\ bound_in A_and_B_constructed (Frame 0) "x"
     <> Some (ObjectHolder.Own (ClassInstance_at 0))
  /\ alive A_and_B_constructed [ObjectHolder.Own (ClassInstance_at 1)] 0%nat = false
  /\ Execute u 4 (NewInstance 0 [NewInstance 1 []; NewInstance 1 []])
       (Frame 0) A_and_B
     = (Undefined, A_and_two_B_constructed)
  /\ Execute Final 4 (NewInstance 0 [VariableValue ["x"]; NewInstance 1 []])
       (Frame 0) A_and_B
     = (Ok (ObjectHolder.Own (ClassInstance_at 1)), A_and_B_constructed).
Proof.
  split; [vm_compute; reflexivity|].
  split; [destruct u; vm_compute; reflexivity|].
  split; [vm_compute; reflexivity|].
  split; [vm_compute; discriminate|].
  split; [vm_compute; reflexivity|].
  split; [destruct u; vm_compute; reflexivity|].
  vm_compute. reflexivity.
Qed.

(** C1: [ClassInstance::Call] of [src/runtime.cpp] (lines 94-103), on
    [get(a)] of [Getter] with the argument 7, whatever the conversion
    [conv] of a holder to an element of [formal_params]: the body runs in
    the fields of the instance, where neither [self] nor [a] is bound, so
    that [return a] throws; and the method in the class has the argument in
    place of its parameter name.  The [Call] of the complete [runtime.cpp]
    returns 7 and leaves the class as it was. *)
Theorem draft_Call_runs_in_fields_and_rewrites_params
    (conv : ObjectHolder.t -> string) :
  Call (Draft conv) (Execute (Draft conv) 4) 0%nat "get"
    [ObjectHolder.Own (Number 7)] one_Getter
  = (Throw (runtime_error "Uncknown variable name: a"),
     Getter_after_draft_Call (conv (ObjectHolder.Own (Number 7))))
  /\ Call Final (Execute Final 4) 0%nat "get"
       [ObjectHolder.Own (Number 7)] one_Getter
     = (Ok (ObjectHolder.Own (Number 7)), one_Getter).
Proof. split; vm_compute; reflexivity. Qed.

End ConstructionExamples.

(** ** Method calls of the complete [runtime.cpp] leave the classes alone *)

Section KeepsClasses.

Import runtime frame_vocabulary.

Context {Executable : Type}.

Lemma keeps_ret {A : Type} (a : A) : keeps_classes (ret (Executable := Executable) a).
Proof. intros st. reflexivity. Qed.

Lemma keeps_mret {A : Type} (a : A) :
  keeps_classes (mret (M := M Executable) a).
Proof. intros st. reflexivity. Qed.

Lemma keeps_throw {A : Type} e : keeps_classes (throw (Executable := Executable) (A := A) e).
Proof. intros st. reflexivity. Qed.

Lemma keeps_undefined {A : Type} : keeps_classes (undefined (Executable := Executable) (A := A)).
Proof. intros st. reflexivity. Qed.

Lemma keeps_out_of_fuel {A : Type} :
  keeps_classes (out_of_fuel (Executable := Executable) (A := A)).
Proof. intros st. reflexivity. Qed.

Lemma keeps_bind {A B : Type} (m : M Executable A) (f : A -> M Executable B) :
  keeps_classes m -> (forall a, keeps_classes (f a)) -> keeps_classes (m ≫= f).
Proof.
  intros Hm Hf st. unfold mbind, M_mbind, bind.
  specialize (Hm st). destruct (m st) as [[a| | |] st1]; cbn in *; try exact Hm.
  rewrite (Hf a st1). exact Hm.
Qed.

Lemma keeps_get_state : keeps_classes (get_state (Executable := Executable)).
Proof. intros st. reflexivity. Qed.

Lemma keeps_closure_get r id : keeps_classes (closure_get (Executable := Executable) r id).
Proof. intros st. unfold closure_get. destruct (read_closure st r); reflexivity. Qed.

Lemma keeps_closure_at r id : keeps_classes (closure_at (Executable := Executable) r id).
Proof.
  apply keeps_bind; [apply keeps_closure_get|].
  intros [h|]; [apply keeps_ret|apply keeps_throw].
Qed.

Lemma keeps_closure_set r id h :
  keeps_classes (closure_set (Executable := Executable) r id h).
Proof.
  intros st. unfold closure_set. destruct (read_closure st r); [|reflexivity].
  destruct r as [k|a]; cbn; [reflexivity|].
  destruct (instances st !! a); reflexivity.
Qed.

Lemma keeps_write_output text :
  keeps_classes (write_output (Executable := Executable) text).
Proof. intros st. reflexivity. Qed.

Lemma keeps_SetSelfName x : keeps_classes (SetSelfName (Executable := Executable) x).
Proof. intros st. reflexivity. Qed.

Lemma keeps_GetSelfName : keeps_classes (GetSelfName (Executable := Executable)).
Proof. intros st. reflexivity. Qed.

Lemma keeps_through_pointer locals a :
  keeps_classes (through_pointer (Executable := Executable) locals a).
Proof. intros st. unfold through_pointer. destruct (alive st locals a); reflexivity. Qed.

Lemma keeps_class_of a : keeps_classes (class_of (Executable := Executable) a).
Proof.
  intros st. unfold class_of. destruct (instances st !! a) as [inst|]; [|reflexivity].
  destruct (classes st !! cls_ inst); reflexivity.
Qed.

Lemma keeps_HasMethod_with GetMethod a method argc :
  keeps_classes (HasMethod_with (Executable := Executable) GetMethod a method argc).
Proof.
  apply keeps_bind; [apply keeps_class_of|]. intros [cid c]. apply keeps_mret.
Qed.

Lemma keeps_with_local_closure {A : Type} locals (f : ClosureRef -> M Executable A) :
  (forall r, keeps_classes (f r)) -> keeps_classes (with_local_closure locals f).
Proof.
  intros Hf st. unfold with_local_closure.
  match goal with |- context [f ?r ?s] => specialize (Hf r s); destruct (f r s) end.
  exact Hf.
Qed.

End KeepsClasses.

Create HintDb keeps.

#[local] Hint Resolve keeps_ret keeps_mret keeps_throw keeps_undefined
  keeps_out_of_fuel keeps_get_state keeps_closure_get keeps_closure_at
  keeps_closure_set keeps_write_output keeps_SetSelfName keeps_GetSelfName
  keeps_through_pointer keeps_class_of keeps_HasMethod_with : keeps.

(** Takes a computation apart along its binds and case distinctions. *)
Ltac keeps_step :=
  match goal with
  | |- frame_vocabulary.keeps_classes (_ ≫= _) =>
      apply keeps_bind; [|intros ?]
  | |- frame_vocabulary.keeps_classes (match ?x with _ => _ end) => destruct x
  | |- frame_vocabulary.keeps_classes (let '(_, _) := ?x in _) => destruct x
  | |- frame_vocabulary.keeps_classes _ => solve [eauto with keeps]
  end.

Ltac keeps := repeat keeps_step.

Section FinalKeepsClasses.

Import runtime ast frame_vocabulary.

Variable Execute : Statement -> ClosureRef -> M ObjectHolder.t.
Variable Print_object : Object -> M string.

Hypothesis keeps_Execute : forall s r, keeps_classes (Execute s r).
Hypothesis keeps_Print_object : forall o, keeps_classes (Print_object o).

Local Hint Resolve keeps_Execute keeps_Print_object : keeps.

Lemma keeps_final_HasMethod a method argc :
  keeps_classes (HasMethod Final a method argc).
Proof. apply keeps_HasMethod_with. Qed.

Lemma keeps_final_Call a method actual_args :
  keeps_classes (Call Final Execute a method actual_args).
Proof.
  cbn [Call]. unfold runtime_final.Call.
  apply keeps_bind; [apply keeps_HasMethod_with|]. intros has.
  destruct (negb has); [apply keeps_throw|].
  apply keeps_bind; [apply keeps_class_of|]. intros [cid c].
  destruct (runtime_final.GetMethod c method); [|apply keeps_undefined].
  apply keeps_with_local_closure. intros r. apply keeps_Execute.
Qed.

Local Hint Resolve keeps_final_HasMethod keeps_final_Call : keeps.

Lemma keeps_final_Object_Print o :
  keeps_classes (Object_Print Final Execute Print_object o).
Proof.
  cbn [Object_Print]. unfold runtime_final.Object_Print.
  destruct o; keeps.
Qed.

Local Hint Resolve keeps_final_Object_Print : keeps.

Lemma keeps_final_compare cmp lhs rhs :
  keeps_classes (compare Final Execute cmp lhs rhs).
Proof.
  assert (HEq : keeps_classes (runtime_final.Equal Execute lhs rhs)).
  { unfold runtime_final.Equal. keeps. }
  assert (HLt : keeps_classes (runtime_final.Less Execute lhs rhs)).
  { unfold runtime_final.Less. keeps. }
  assert (HGt : keeps_classes (runtime_final.Greater Execute lhs rhs)).
  { unfold runtime_final.Greater. keeps. }
  destruct cmp; cbn [compare]; try assumption.
  - unfold runtime_final.NotEqual. keeps.
  - unfold runtime_final.LessOrEqual. keeps.
  - unfold runtime_final.GreaterOrEqual. keeps.
Qed.

Local Hint Resolve keeps_final_compare : keeps.

Lemma keeps_Execute_args args r : keeps_classes (Execute_args Execute args r).
Proof. induction args as [|s args IH]; cbn [Execute_args]; keeps. Qed.

Lemma keeps_VariableValue_loop all_ids ids :
  forall r result, keeps_classes (VariableValue_loop all_ids ids r result).
Proof.
  induction ids as [|id ids IH]; intros r result; cbn [VariableValue_loop]; keeps.
Qed.

Lemma keeps_FieldAssignment_loop ids :
  forall r, keeps_classes (FieldAssignment_loop ids r).
Proof.
  induction ids as [|id ids IH]; intros r; cbn [FieldAssignment_loop]; keeps.
Qed.

Lemma keeps_Print_loop args :
  forall first r, keeps_classes (Print_loop Final Execute Print_object args first r).
Proof.
  induction args as [|s args IH]; intros first r; cbn [Print_loop]; keeps.
Qed.

Lemma keeps_Compound_loop args r : keeps_classes (Compound_loop Execute args r).
Proof. induction args as [|s args IH]; cbn [Compound_loop]; keeps. Qed.

Local Hint Resolve keeps_Execute_args keeps_VariableValue_loop
  keeps_FieldAssignment_loop keeps_Print_loop keeps_Compound_loop : keeps.

Lemma keeps_new_instance cls : keeps_classes (new_instance cls).
Proof. intros st. reflexivity. Qed.

Local Hint Resolve keeps_new_instance : keeps.

Lemma keeps_MethodBody_Execute body r :
  keeps_classes (MethodBody_Execute Execute body r).
Proof.
  intros st. unfold MethodBody_Execute. specialize (keeps_Execute body r st).
  destruct (Execute body r st) as [[h|[]| |] st1]; cbn in *; assumption.
Qed.

(** One node of the AST, when its parts leave the classes alone. *)
Lemma keeps_Execute_node s r :
  keeps_classes (Execute_node Final Execute Print_object s r).
Proof.
  destruct s; cbn [Execute_node].
  - unfold VariableValue_Execute. keeps.
  - unfold Assignment_Execute. keeps.
  - unfold FieldAssignment_Execute. keeps.
  - unfold Print_Execute. keeps.
  - unfold MethodCall_Execute. keeps.
  - unfold Stringify_Execute. keeps.
  - unfold Add_Execute, number_result. keeps.
  - unfold Sub_Execute, number_result. keeps.
  - unfold Mult_Execute, number_result. keeps.
  - unfold Div_Execute, number_result. keeps.
  - unfold Compound_Execute. keeps.
  - unfold Return_Execute. keeps.
  - unfold ClassDefinition_Execute. keeps.
  - unfold IfElse_Execute. keeps.
  - unfold Or_Execute. keeps.
  - unfold And_Execute. keeps.
  - unfold Not_Execute. keeps.
  - unfold Comparison_Execute. keeps.
  - unfold NewInstance_Execute, NewInstance_init. keeps.
  - apply keeps_MethodBody_Execute.
Qed.

End FinalKeepsClasses.

Section FinalCall.

Import runtime ast frame_vocabulary.

(** Executing a program linked with the complete [runtime.cpp] never
    changes a [Class] object, whatever the outcome. *)
Lemma final_Execute_keeps_classes n :
  (forall s r, keeps_classes (Execute Final n s r))
  /\ (forall o, keeps_classes (Print_object Final n o)).
Proof.
  induction n as [|n [IHe IHp]].
  - split; intros; apply keeps_out_of_fuel.
  - split.
    + intros s r. rewrite Execute_S. apply keeps_Execute_node; assumption.
    + intros o. cbn [Print_object]. apply keeps_final_Object_Print; assumption.
Qed.

Lemma bind_params_other ps : forall (args : list ObjectHolder.t) (l : Closure) p,
  p ∉ ps -> runtime_final.bind_params ps args l !! p = l !! p.
Proof.
  unfold runtime_final.bind_params.
  induction ps as [|p0 ps IH]; intros args l p Hp; [reflexivity|].
  destruct args as [|a0 args]; [reflexivity|].
  cbn [zip zip_with fold_left]. rewrite IH by set_solver.
  cbn. apply lookup_insert_ne. set_solver.
Qed.

Lemma bind_params_lookup ps : forall (args : list ObjectHolder.t) (l : Closure) i p h,
  NoDup ps -> ps !! i = Some p -> args !! i = Some h ->
  runtime_final.bind_params ps args l !! p = Some h.
Proof.
  induction ps as [|p0 ps IH]; intros args l i p h Hnd Hp Hh; [discriminate|].
  destruct args as [|a0 args]; [discriminate|].
  apply NoDup_cons in Hnd as [Hp0 Hnd].
  change (runtime_final.bind_params (p0 :: ps) (a0 :: args) l)
    with (runtime_final.bind_params ps args (<[p0 := a0]> l)).
  destruct i as [|i]; cbn in Hp, Hh.
  - injection Hp as <-. injection Hh as <-.
    rewrite bind_params_other by assumption. apply lookup_insert_eq.
  - eapply IH; eassumption.
Qed.

(** [ClassInstance::Call] of the complete [runtime.cpp], for a method found
    with matching arity: the body is executed in a closure that exists for
    this call only. *)
Lemma final_Call_runs_body_in_local_closure
    (Execute : Statement -> ClosureRef -> M ObjectHolder.t)
    a method actual_args st inst c m :
  instances st !! a = Some inst ->
  classes st !! cls_ inst = Some c ->
  runtime_final.GetMethod c method = Some m ->
  length (formal_params m) = length actual_args ->
  Call Final Execute a method actual_args st
  = with_local_closure
      (runtime_final.bind_params (formal_params m) actual_args
         (<["self" := ObjectHolder.Share (ClassInstance_at a)]> ∅))
      (Execute (body m)) st.
Proof.
  intros Hinst Hc Hm Hlen. cbn [Call]. unfold runtime_final.Call.
  assert (Hclass : class_of a st = (Ok (cls_ inst, c), st)).
  { unfold class_of. rewrite Hinst, Hc. reflexivity. }
  assert (Hhas : runtime_final.HasMethod a method (length actual_args) st
                 = (Ok true, st)).
  { unfold runtime_final.HasMethod, HasMethod_with.
    rewrite (bind_Ok _ _ _ _ _ Hclass). cbn. rewrite Hm, Hlen.
    rewrite Nat.eqb_refl. reflexivity. }
  rewrite (bind_Ok _ _ _ _ _ Hhas). cbn [negb].
  rewrite (bind_Ok _ _ _ _ _ Hclass). cbn. rewrite Hm. reflexivity.
Qed.

(** X5: In the complete [runtime.cpp] the claim of C1 holds.  For a call of a
    method [m] found with matching arity: the body runs in the frame [k],
    which is not in use before the call, holds [locals] when the body
    starts and is released when the call is left; [locals] binds [self] to
    a non-owning holder of the receiver and each formal parameter to the
    corresponding argument (the names being distinct and other than
    [self]); and the classes are after the call what they were before, so
    that the same lookup finds the same method. *)
Lemma final_Call_frame n a method actual_args st inst c m :
  instances st !! a = Some inst ->
  classes st !! cls_ inst = Some c ->
  runtime_final.GetMethod c method = Some m ->
  length (formal_params m) = length actual_args ->
  let k := fresh (dom (frames st)) in
  let locals :=
    runtime_final.bind_params (formal_params m) actual_args
      (<["self" := ObjectHolder.Share (ClassInstance_at a)]> ∅) in
  let st1 :=
    mk_State (classes st) (instances st) (<[k := locals]> (frames st))
      (output st) (self_name st) in
  let body_run := Execute Final n (body m) (Frame k) st1 in
  let after := Call Final (Execute Final n) a method actual_args st in
  frames st !! k = None
  /\ after
     = (body_run.1,
        mk_State (classes body_run.2) (instances body_run.2)
          (delete k (frames body_run.2)) (output body_run.2)
          (self_name body_run.2))
  /\ ("self" ∉ formal_params m ->
      locals !! "self" = Some (ObjectHolder.Share (ClassInstance_at a)))
  /\ (NoDup (formal_params m) ->
      forall i p h, formal_params m !! i = Some p -> actual_args !! i = Some h ->
                    locals !! p = Some h)
  /\ classes after.2 = classes st.
Proof.
  intros Hinst Hc Hm Hlen k locals st1 body_run after.
  split; [apply not_elem_of_dom, is_fresh|].
  split.
  { unfold after.
    rewrite (final_Call_runs_body_in_local_closure (Execute Final n)
               a method actual_args st inst c m Hinst Hc Hm Hlen).
    unfold with_local_closure. fold k. fold locals. fold st1. fold body_run.
    destruct body_run as [r st2]. reflexivity. }
  split.
  { intros Hself. unfold locals. rewrite bind_params_other by assumption.
    apply lookup_insert_eq. }
  split.
  { intros Hnd i p h Hp Hh. unfold locals.
    eapply bind_params_lookup; eassumption. }
  apply (keeps_final_Call (Execute Final n)
           (proj1 (final_Execute_keeps_classes n)) a method actual_args st).
Qed.

Lemma final_Call_frame_example :
  Call Final (Execute Final 4) 0%nat "get" [ObjectHolder.Own (Number 7)]
    constructor_examples.one_Getter
  = (Ok (ObjectHolder.Own (Number 7)), constructor_examples.one_Getter)
  /\ (runtime_final.bind_params ["a"] [ObjectHolder.Own (Number 7)]
        (<["self" := ObjectHolder.Share (ClassInstance_at 0)]> ∅) : Closure)
     = {[ "self" := ObjectHolder.Share (ClassInstance_at 0);
          "a" := ObjectHolder.Own (Number 7) ]}.
Proof. split; vm_compute; reflexivity. Qed.

End FinalCall.

(** ** Indentation: what the lexer guarantees *)

Section IndentFacts.

Import stream parse lexer_vocabulary indent_vocabulary.

Lemma count_Indent_app a b :
  count_Indent (a ++ b) = (count_Indent a + count_Indent b)%nat.
Proof. unfold count_Indent. rewrite List.filter_app, length_app. reflexivity. Qed.

Lemma count_Dedent_app a b :
  count_Dedent (a ++ b) = (count_Dedent a + count_Dedent b)%nat.
Proof. unfold count_Dedent. rewrite List.filter_app, length_app. reflexivity. Qed.

Lemma depth_app a b : depth (a ++ b) = depth a + depth b.
Proof. unfold depth. rewrite count_Indent_app, count_Dedent_app. lia. Qed.

Lemma depth_nil : depth [] = 0.
Proof. reflexivity. Qed.

Lemma depth_inline ts :
  Forall (fun t => negb (is_Indent t) && negb (is_Dedent t) = true) ts ->
  depth ts = 0.
Proof.
  induction 1 as [|t ts Ht _ IH]; [reflexivity|].
  change (t :: ts) with ([t] ++ ts). rewrite depth_app, IH.
  destruct t; cbn in Ht; try discriminate; reflexivity.
Qed.

Lemma depth_emit_Indent n : 0 <= n -> depth (emit n token_type.Indent) = n.
Proof.
  intros Hn. unfold emit. rewrite <- (Z2Nat.id n) at 2 by assumption.
  induction (Z.to_nat n) as [|k IH]; [reflexivity|].
  change (replicate (S k) token_type.Indent)
    with ([token_type.Indent] ++ replicate k token_type.Indent).
  rewrite depth_app, IH. unfold depth. cbn. lia.
Qed.

Lemma depth_emit_Dedent n : 0 <= n -> depth (emit n token_type.Dedent) = - n.
Proof.
  intros Hn. unfold emit. rewrite <- (Z2Nat.id n) at 2 by assumption.
  induction (Z.to_nat n) as [|k IH]; [reflexivity|].
  change (replicate (S k) token_type.Dedent)
    with ([token_type.Dedent] ++ replicate k token_type.Dedent).
  rewrite depth_app, IH. unfold depth. cbn. lia.
Qed.

Lemma even_quot a : Z.rem a 2 = 0 -> a = 2 * Z.quot a 2.
Proof. intros H. rewrite (Z.quot_rem' a 2) at 1. lia. Qed.

Lemma quot_sub_even a b :
  Z.rem a 2 = 0 -> Z.rem b 2 = 0 -> Z.quot (a - b) 2 = Z.quot a 2 - Z.quot b 2.
Proof.
  intros Ha Hb. rewrite (even_quot a Ha) at 1. rewrite (even_quot b Hb) at 1.
  replace (2 * Z.quot a 2 - 2 * Z.quot b 2) with ((Z.quot a 2 - Z.quot b 2) * 2) by lia.
  apply Z.quot_mul. lia.
Qed.

Lemma inline_plain ts :
  Forall (fun t => inline t = true) ts ->
  Forall (fun t => negb (is_Indent t) && negb (is_Dedent t) = true) ts.
Proof.
  intros H. eapply Forall_impl; [exact H|].
  intros t. unfold inline. destruct t; cbn; congruence.
Qed.

Lemma inline_not_Eof ts :
  Forall (fun t => inline t = true) ts -> Forall (fun t => not_Eof t = true) ts.
Proof.
  intros H. eapply Forall_impl; [exact H|].
  intros t. unfold inline, not_Eof. destruct t; cbn; congruence.
Qed.

Lemma line_shape_depth ts : line_shape ts -> depth ts = 0.
Proof.
  intros [H|(pre & -> & H)].
  - apply depth_inline, inline_plain, H.
  - rewrite depth_app, (depth_inline pre) by (apply inline_plain, H). reflexivity.
Qed.

(** The tokens [NextToken] puts in front of a line settle the account: after
    a line that has a token other than [Eof] the blocks open are
    [indent_ / 2]; after a line that has nothing but [Eof] none is. *)
Lemma line_tokens_depth cur line :
  line_shape (tokens_ line) ->
  0 <= cur -> Z.rem cur 2 = 0 ->
  0 <= indent_ line -> Z.rem (indent_ line) 2 = 0 ->
  depth (line_tokens cur line).1
  = (if IsEofOnly line then 0 else Z.quot (indent_ line) 2) - Z.quot cur 2
  /\ (IsEofOnly line = false -> (line_tokens cur line).2 = indent_ line).
Proof.
  intros Hshape Hcur Hcur2 Hind Hind2.
  assert (Hq := Z.quot_pos cur 2 Hcur ltac:(lia)).
  assert (Hqi := Z.quot_pos (indent_ line) 2 Hind ltac:(lia)).
  assert (Hc := even_quot cur Hcur2). assert (Hi := even_quot _ Hind2).
  unfold line_tokens. destruct (IsEofOnly line) eqn:Heof; cbn [negb andb].
  - destruct (0 <? cur) eqn:Hpos; cbn [fst snd]; (split; [|discriminate]).
    + rewrite !depth_app, depth_nil, depth_emit_Dedent by assumption.
      rewrite (line_shape_depth _ Hshape). lia.
    + rewrite !depth_app, depth_nil, (line_shape_depth _ Hshape).
      apply Z.ltb_ge in Hpos. lia.
  - destruct (cur <? indent_ line) eqn:Hlt.
    + apply Z.ltb_lt in Hlt. rewrite Z.ltb_irrefl. cbn [fst snd].
      split; [|reflexivity].
      rewrite depth_app, (line_shape_depth _ Hshape).
      rewrite depth_emit_Indent, quot_sub_even by
        (try assumption; rewrite quot_sub_even by assumption; lia).
      lia.
    + apply Z.ltb_ge in Hlt. destruct (indent_ line <? cur) eqn:Hgt; cbn [fst snd].
      * apply Z.ltb_lt in Hgt. split; [|reflexivity].
        rewrite !depth_app, depth_nil, (line_shape_depth _ Hshape).
        rewrite depth_emit_Dedent, quot_sub_even by
          (try assumption; rewrite quot_sub_even by assumption; lia).
        lia.
      * apply Z.ltb_ge in Hgt. split; [|intros _; lia].
        rewrite depth_app, depth_nil, (line_shape_depth _ Hshape).
        replace cur with (indent_ line) by lia. lia.
Qed.

End IndentFacts.
Section LineShape.

Import stream parse lexer_vocabulary indent_vocabulary.

Lemma keyword_or_id_inline s : inline (keyword_or_id s) = true.
Proof.
  unfold keyword_or_id.
  repeat match goal with |- context [if ?b then _ else _] => destruct b end;
    reflexivity.
Qed.

Lemma emplace_back_inline line t :
  Forall (fun t => inline t = true) (tokens_ line) ->
  inline t = true ->
  Forall (fun t => inline t = true) (tokens_ (emplace_back line t)).
Proof. intros H Ht. cbn. apply Forall_app. split; [exact H|repeat constructor; exact Ht]. Qed.

Lemma SkipSpaces_loop_count fuel : forall s n,
  n <= (SkipSpaces_loop fuel s n).1.
Proof.
  induction fuel as [|fuel IH]; intros s n; cbn [SkipSpaces_loop];
    destruct (get s) as [[c|] s1]; cbn; try lia.
  - destruct c as [[] [] [] [] [] [] [] []]; cbn; lia.
  - destruct c as [[] [] [] [] [] [] [] []]; cbn; try lia.
    specialize (IH s1 (n + 1)). lia.
Qed.

Lemma SkipSpaces_count s : 0 <= (SkipSpaces s).1.
Proof.
  unfold SkipSpaces.
  assert (H := SkipSpaces_loop_count (S (length (remaining s))) s 0).
  destruct (SkipSpaces_loop (S (length (remaining s))) s 0). exact H.
Qed.

(** One turn of the loop of [ReadLine] keeps the indent and appends tokens
    of the text of the line; at the end of the input it closes the line with
    [Eof]. *)
Lemma ReadLine_body_shape line ch s line' s' :
  ReadLine_body line ch s = Ok (line', s') ->
  Forall (fun t => inline t = true) (tokens_ line) ->
  indent_ line' = indent_ line
  /\ match ch with
     | Some _ => Forall (fun t => inline t = true) (tokens_ line')
     | None => exists pre, tokens_ line' = pre ++ [token_type.Eof]
                           /\ Forall (fun t => inline t = true) pre
     end.
Proof.
  intros Hbody Hline. unfold ReadLine_body in Hbody.
  destruct ch as [c|].
  - repeat match type of Hbody with
           | (if ?b then _ else _) = _ => destruct b
           end.
    + injection Hbody as <- <-. auto.
    + injection Hbody as <- <-. auto.
    + injection Hbody as <- <-. split; [reflexivity|].
      apply emplace_back_inline; auto.
    + unfold ReadString in Hbody.
      destruct (ReadString_loop (remaining s) c [] 0) as [[txt taken]| | |];
        cbn in Hbody; try discriminate.
      injection Hbody as <- <-. split; [reflexivity|].
      apply emplace_back_inline; auto.
    + unfold ReadNumber in Hbody.
      destruct (read_while isdigit (S (length (remaining s))) s [c]) as [digits s1].
      destruct (stoi digits) as [v| | |]; cbn in Hbody; try discriminate.
      injection Hbody as <- <-. split; [reflexivity|].
      apply emplace_back_inline; auto.
    + unfold ReadIdentifier in Hbody.
      destruct (read_while _ (S (length (remaining s))) s [c]) as [name s1].
      injection Hbody as <- <-. split; [reflexivity|].
      apply emplace_back_inline; [assumption|apply keyword_or_id_inline].
    + destruct (peek s) as [next s1].
      assert (Hchar : Forall (fun t => inline t = true)
                        (tokens_ (emplace_back line (token_type.Char c))))
        by (apply emplace_back_inline; auto).
      assert (Hcmp : indent_ (ReadComparison line s1 c).1 = indent_ line
                     /\ Forall (fun t => inline t = true)
                          (tokens_ (ReadComparison line s1 c).1)).
      { unfold ReadComparison.
        repeat match goal with |- context [if ?b then _ else _] => destruct b end;
          cbn [fst]; (split; [reflexivity|]);
          try (apply emplace_back_inline; auto); assumption. }
      destruct next as [[[] [] [] [] [] [] [] []]|];
        injection Hbody as <- <-; auto.
    + injection Hbody as <- <-. split; [reflexivity|].
      apply emplace_back_inline; auto.
  - injection Hbody as <- <-. split.
    + destruct (negb (IsEmpty line) && _); reflexivity.
    + destruct (negb (IsEmpty line) && _); cbn [emplace_back tokens_].
      * exists (tokens_ line ++ [token_type.Newline]). split; [reflexivity|].
        apply Forall_app. split; [assumption|repeat constructor].
      * exists (tokens_ line). auto.
Qed.

Lemma ReadLine_loop_shape fuel : forall line s line' s',
  ReadLine_loop fuel line s = Ok (line', s') ->
  Forall (fun t => inline t = true) (tokens_ line) ->
  indent_ line' = indent_ line /\ line_shape (tokens_ line').
Proof.
  induction fuel as [|fuel IH]; intros line s line' s' Hloop Hline;
    cbn [ReadLine_loop] in Hloop; [discriminate|].
  destruct (get s) as [ch s1].
  destruct (ReadLine_body line ch s1) as [[line1 s2]| | |] eqn:Hbody;
    cbn in Hloop; try discriminate.
  destruct (ReadLine_body_shape _ _ _ _ _ Hbody Hline) as [Hind Htok].
  destruct ch as [c|]; cbn [ends_line] in Hloop.
  - destruct (Ascii.eqb c "010").
    + injection Hloop as <- <-. split; [assumption|]. left. assumption.
    + destruct (IH _ _ _ _ Hloop Htok) as [Hind' Hshape]. split; [congruence|assumption].
  - injection Hloop as <- <-. split; [assumption|]. right. assumption.
Qed.

(** [ReadLine] returns a line of non-negative indent whose tokens are those
    of its text, closed by [Eof] if the input ended. *)
Lemma ReadLine_shape s line s' :
  ReadLine s = Ok (line, s') ->
  0 <= indent_ line /\ line_shape (tokens_ line).
Proof.
  unfold ReadLine. intros H.
  assert (Hcount := SkipSpaces_count s).
  destruct (SkipSpaces s) as [indent s1].
  apply ReadLine_loop_shape in H as [Hind Hshape]; [|constructor].
  cbn in *. split; [lia|assumption].
Qed.

Lemma next_line_shape fuel : forall s line s',
  next_line fuel s = Ok (line, s') ->
  0 <= indent_ line /\ line_shape (tokens_ line) /\ IsEmpty line = false.
Proof.
  induction fuel as [|fuel IH]; intros s line s' H; cbn [next_line] in H;
    [discriminate|].
  destruct (ReadLine s) as [[line1 s1]| | |] eqn:Hread; cbn in H; try discriminate.
  destruct (IsEmpty line1) eqn:Hempty.
  - eapply IH; eassumption.
  - injection H as <- <-. destruct (ReadLine_shape _ _ _ Hread). auto.
Qed.

End LineShape.
Section IndentInvariant.

Import stream parse lexer_vocabulary indent_vocabulary.

Lemma emit_not_Eof n t :
  not_Eof t = true -> Forall (fun t => not_Eof t = true) (emit n t).
Proof.
  intros Ht. unfold emit. induction (Z.to_nat n); constructor; assumption.
Qed.

(** The tokens appended for a line are the line's own, after some [Indent]
    or [Dedent] tokens. *)
Lemma line_tokens_prefix cur line :
  exists prefix,
    (line_tokens cur line).1 = prefix ++ tokens_ line
    /\ Forall (fun t => not_Eof t = true) prefix.
Proof.
  unfold line_tokens.
  repeat match goal with |- context [if ?b then _ else _] => destruct b end;
    cbn [fst]; eexists; (split; [reflexivity|]);
    repeat apply Forall_app_2; try apply emit_not_Eof; try reflexivity;
    constructor.
Qed.

Lemma last_snoc {A : Type} (l : list A) x d : List.last (l ++ [x]) d = x.
Proof. apply List.last_last. Qed.

Lemma inline_line_not_EofOnly line :
  Forall (fun t => inline t = true) (tokens_ line) ->
  IsEmpty line = false ->
  IsEofOnly line = false.
Proof.
  unfold IsEmpty, IsEofOnly. destruct (tokens_ line) as [|t ts]; [discriminate|].
  intros H _. inversion H as [|? ? Ht _]; subst.
  cbn. destruct t; cbn in Ht; try discriminate; reflexivity.
Qed.

Lemma at_Ok ts pos t :
  at_ ts pos = Ok t -> 0 <= pos /\ ts !! Z.to_nat pos = Some t.
Proof.
  unfold at_. destruct (pos <? 0) eqn:Hpos; [discriminate|].
  apply Z.ltb_ge in Hpos. destruct (ts !! Z.to_nat pos); [|discriminate].
  intros [= ->]. auto.
Qed.

(** A call of [NextToken] that returns keeps the invariant.  Either the
    lexer was at [Eof] and stays as it is, or the cursor moves on by one, the
    tokens produced so far are kept and the cursor is on a token. *)
Lemma NextToken_step lx t lx' :
  NextToken lx = Ok (t, lx') ->
  indent_invariant lx ->
  -1 <= curr_pos_ lx ->
  indent_invariant lx'
  /\ ((lx' = lx
       /\ exists pre, lexer_tokens_ lx = pre ++ [token_type.Eof]
                      /\ curr_pos_ lx + 1 = Z.of_nat (length (lexer_tokens_ lx)))
      \/ (curr_pos_ lx' = curr_pos_ lx + 1
          /\ (exists new, lexer_tokens_ lx' = lexer_tokens_ lx ++ new)
          /\ lexer_tokens_ lx' !! Z.to_nat (curr_pos_ lx') = Some t)).
Proof.
  intros Hnext Hinv Hpos. unfold NextToken in Hnext.
  destruct (curr_pos_ lx + 1 =? Z.of_nat (length (lexer_tokens_ lx))) eqn:Hend.
  - apply Z.eqb_eq in Hend.
    destruct (negb (bool_decide (lexer_tokens_ lx = []))
              && is_Eof (List.last (lexer_tokens_ lx) token_type.None)) eqn:HEof.
    + injection Hnext as <- <-. split; [assumption|]. left. split; [reflexivity|].
      apply andb_prop in HEof as [Hne Hlast].
      destruct (lexer_tokens_ lx) as [|t0 ts0] eqn:Hts using rev_ind;
        [discriminate|].
      rewrite last_snoc in Hlast. destruct t0; try discriminate.
      exists ts0. split; [reflexivity|exact Hend].
    + destruct (next_line (S (length (remaining (in_ lx)))) (in_ lx))
        as [[line s1]| | |] eqn:Hline; cbn in Hnext; try discriminate.
      destruct (Z.rem (indent_ line) 2 =? 0) eqn:Heven; cbn in Hnext;
        [|discriminate].
      apply Z.eqb_eq in Heven.
      destruct (line_tokens (current_indent_ lx) line) as [new cur] eqn:Hnew.
      destruct (at_ (lexer_tokens_ lx ++ new) (curr_pos_ lx + 1)) as [t1| | |]
        eqn:Hat; cbn in Hnext; try discriminate.
      injection Hnext as <- <-. apply at_Ok in Hat as [_ Hat].
      split; [|right; cbn; eauto].
      destruct (next_line_shape _ _ _ _ Hline) as (Hind & Hshape & Hempty).
      destruct Hinv as [(HnoEof & Hcur & Hcur2 & Hdepth)|(before & l0 & _ & (pre & Hpre & _) & _)].
      2:{ rewrite Hpre in HEof. rewrite last_snoc in HEof. cbn in HEof.
          rewrite andb_true_r in HEof. apply negb_false_iff in HEof.
          apply bool_decide_eq_true in HEof. destruct pre; discriminate. }
      destruct (line_tokens_depth (current_indent_ lx) line Hshape Hcur Hcur2 Hind Heven)
        as [Hd Hcur'].
      destruct (line_tokens_prefix (current_indent_ lx) line) as (prefix & Hprefix & HprefixEof).
      rewrite Hnew in Hd, Hcur', Hprefix. cbn [fst snd] in Hd, Hcur', Hprefix.
      destruct Hshape as [Hinline|(pre & Hpre & Hinline)].
      * left. cbn. assert (Hnot := inline_line_not_EofOnly line Hinline Hempty).
        rewrite Hnot in Hd. rewrite (Hcur' Hnot).
        split; [|split; [assumption|split; [assumption|]]].
        -- apply Forall_app_2; [assumption|]. rewrite Hprefix.
           apply Forall_app_2; [assumption|apply inline_not_Eof, Hinline].
        -- rewrite depth_app, Hdepth, Hd. lia.
      * right. exists (lexer_tokens_ lx ++ prefix), line. cbn.
        split; [rewrite Hprefix, app_assoc; reflexivity|].
        split.
        -- exists (lexer_tokens_ lx ++ prefix ++ pre). split.
           ++ rewrite Hprefix, Hpre, !app_assoc. reflexivity.
           ++ repeat apply Forall_app_2; try assumption.
              apply inline_not_Eof, Hinline.
        -- split; [assumption|]. split; [assumption|].
           rewrite depth_app, Hdepth, Hd. lia.
  - destruct (at_ (lexer_tokens_ lx) (curr_pos_ lx + 1)) as [t1| | |] eqn:Hat;
      cbn in Hnext; try discriminate.
    injection Hnext as <- <-. apply at_Ok in Hat as [_ Hat].
    split; [exact Hinv|]. right. cbn. split; [reflexivity|].
    split; [exists []; rewrite app_nil_r; reflexivity|assumption].
Qed.

(** Reading on to [Eof] keeps the invariant, and any other property
    [Extra] of the lexer that a call of [NextToken] keeps; the tokens seen
    are all the tokens the lexer has produced, and the last one is [Eof]. *)
Lemma drain_tokens (Extra : Lexer -> Prop) fuel :
  (forall lx t lx',
     NextToken lx = Ok (t, lx') -> indent_invariant lx -> -1 <= curr_pos_ lx ->
     Extra lx -> Extra lx') ->
  forall lx seen ts,
    drain fuel lx seen = Ok ts ->
    indent_invariant lx ->
    Extra lx ->
    cursor_invariant lx seen ->
    exists lx', indent_invariant lx' /\ Extra lx' /\ ts = lexer_tokens_ lx'
                /\ exists pre, ts = pre ++ [token_type.Eof].
Proof.
  intros Hextra.
  induction fuel as [|fuel IH]; intros lx seen ts Hdrain Hinv Hex Hcursor;
    cbn [drain] in Hdrain; [discriminate|].
  destruct Hcursor as (Hpos & Hlt & Hseen).
  destruct (CurrentToken lx) as [t| | |] eqn:Hcur; cbn in Hdrain; try discriminate.
  apply at_Ok in Hcur as [_ Hcur].
  destruct (is_Eof t) eqn:HEof.
  - injection Hdrain as <-. exists lx. split; [assumption|]. split; [assumption|].
    destruct t; try discriminate.
    destruct Hinv as [(HnoEof & _)|(before & line & _ & (pre & Hpre & HpreEof) & _)].
    { rewrite Forall_lookup in HnoEof. specialize (HnoEof _ _ Hcur). discriminate. }
    assert (Z.to_nat (curr_pos_ lx) = length pre) as Hat.
    { rewrite Hpre in Hcur, Hlt. rewrite length_app in Hlt. cbn in Hlt.
      destruct (decide (Z.to_nat (curr_pos_ lx) < length pre)%nat) as [Hin|]; [|lia].
      rewrite lookup_app_l in Hcur by assumption.
      rewrite Forall_lookup in HpreEof. specialize (HpreEof _ _ Hcur). discriminate. }
    rewrite Hseen, Hat, Hpre, take_app_length. eauto.
  - destruct (NextToken lx) as [[t1 lx1]| | |] eqn:Hnext; cbn in Hdrain;
      try discriminate.
    assert (Hex1 := Hextra _ _ _ Hnext Hinv ltac:(lia) Hex).
    destruct (NextToken_step _ _ _ Hnext Hinv ltac:(lia))
      as [Hinv1 [[-> (pre & Hpre & Hend)]|(Hpos1 & (new & Hnew) & Hat1)]].
    + exfalso. rewrite Hpre in Hcur, Hend. rewrite length_app in Hend. cbn in Hend.
      replace (Z.to_nat (curr_pos_ lx)) with (length pre) in Hcur by lia.
      rewrite lookup_app_r, Nat.sub_diag in Hcur by lia.
      injection Hcur as <-. discriminate.
    + apply (IH lx1 (seen ++ [t]) ts Hdrain Hinv1 Hex1).
      split; [lia|]. split; [apply lookup_lt_Some in Hat1; exact Hat1|].
      rewrite Hpos1, Hnew.
      replace (Z.to_nat (curr_pos_ lx + 1)) with (S (Z.to_nat (curr_pos_ lx))) by lia.
      rewrite take_app_le by lia.
      rewrite (take_S_r _ _ _ Hcur), Hseen. reflexivity.
Qed.

(** The same for a whole input, from the construction of the lexer on. *)
Lemma tokenize_invariant (Extra : Lexer -> Prop) input ts :
  (forall lx t lx',
     NextToken lx = Ok (t, lx') -> indent_invariant lx -> -1 <= curr_pos_ lx ->
     Extra lx -> Extra lx') ->
  Extra (mk_Lexer (from_chars input) [] (-1) 0) ->
  tokenize input = Ok ts ->
  exists lx', indent_invariant lx' /\ Extra lx' /\ ts = lexer_tokens_ lx'
              /\ exists pre, ts = pre ++ [token_type.Eof].
Proof.
  intros Hextra Hex0. unfold tokenize, new_Lexer. intros H.
  destruct (NextToken (mk_Lexer (from_chars input) [] (-1) 0))
    as [[t lx]| | |] eqn:Hfirst; cbn in H; try discriminate.
  assert (Hinit : indent_invariant (mk_Lexer (from_chars input) [] (-1) 0)).
  { left. cbn. repeat split; try reflexivity; try lia. constructor. }
  assert (Hex := Hextra _ _ _ Hfirst Hinit ltac:(cbn; lia) Hex0).
  destruct (NextToken_step _ _ _ Hfirst Hinit ltac:(cbn; lia))
    as [Hinv [[_ (pre & Hpre & _)]|(Hpos & _ & Hat)]].
  { destruct pre; discriminate. }
  cbn in Hpos.
  assert (Hcursor : cursor_invariant lx []).
  { split; [lia|]. split; [|rewrite Hpos; reflexivity].
    apply lookup_lt_Some in Hat. exact Hat. }
  exact (drain_tokens Extra _ Hextra _ _ _ H Hinv Hex Hcursor).
Qed.

End IndentInvariant.

(** ** Indentation of an input that ends with a newline *)

Section StreamRuns.

Import stream parse lexer_vocabulary indent_vocabulary newline_vocabulary.

Lemma good_is_good_stream s :
  good s = true -> s = good_stream (consumed s) (remaining s).
Proof.
  destruct s as [cons rest e f]. unfold good. cbn.
  destruct e, f; cbn; try discriminate. reflexivity.
Qed.

Lemma ends_with_newline_cons c r :
  ends_with_newline (c :: r) -> c <> nl -> ends_with_newline r.
Proof.
  intros [r0 H] Hc. destruct r0 as [|c0 r0]; cbn in H.
  - injection H as -> _. contradiction.
  - injection H as _ ->. exists r0. reflexivity.
Qed.

Lemma ends_with_newline_tail c r :
  ends_with_newline (c :: r) -> r = [] \/ ends_with_newline r.
Proof.
  intros [r0 H]. destruct r0 as [|c0 r0]; cbn in H.
  - injection H as _ <-. left. reflexivity.
  - injection H as _ ->. right. exists r0. reflexivity.
Qed.

Lemma ends_with_newline_nonempty r : ends_with_newline r -> r <> [].
Proof. intros [r0 ->]. destruct r0; discriminate. Qed.

(** A run of characters satisfying [p] (the newline does not) in front of
    the newline to come. *)
Lemma span_before_newline (p : ascii -> bool) r :
  p nl = false ->
  ends_with_newline r ->
  exists ds c rest,
    r = ds ++ c :: rest
    /\ Forall (fun x => p x = true) ds
    /\ p c = false
    /\ ends_with_newline (c :: rest).
Proof.
  intros Hp. induction r as [|x r IH]; intros Hr.
  - destruct (ends_with_newline_nonempty _ Hr eq_refl).
  - destruct (p x) eqn:Hx.
    + assert (x <> nl) as Hne by (intros ->; congruence).
      destruct (IH (ends_with_newline_cons _ _ Hr Hne))
        as (ds & c & rest & -> & Hds & Hc & Hrest).
      exists (x :: ds), c, rest. repeat split; auto.
    + exists [], x, r. repeat split; auto.
Qed.

Lemma SkipSpaces_loop_run ds : forall fuel cons rest n,
  Forall (fun c => Ascii.eqb c " " = true) ds ->
  stops (fun c => Ascii.eqb c " ") rest ->
  (length ds < fuel)%nat ->
  SkipSpaces_loop fuel (good_stream cons (ds ++ rest)) n
  = (n + Z.of_nat (length ds), after_loop (rev ds ++ cons) rest).
Proof.
  induction ds as [|d ds IH]; intros fuel cons rest n Hds Hstop Hfuel.
  - cbn [app length rev]. rewrite Z.add_0_r.
    destruct fuel as [|fuel]; [cbn in Hfuel; lia|].
    destruct rest as [|c r]; [reflexivity|].
    cbn in Hstop. cbn [SkipSpaces_loop]. rewrite get_good_cons.
    destruct c as [[] [] [] [] [] [] [] []]; try discriminate; reflexivity.
  - destruct fuel as [|fuel]; [cbn in Hfuel; lia|].
    inversion Hds as [|? ? Hd Hds']; subst.
    apply Ascii.eqb_eq in Hd. subst d.
    cbn [app SkipSpaces_loop]. rewrite get_good_cons.
    rewrite IH by (auto; cbn in Hfuel; lia).
    cbn [length rev]. rewrite <- app_assoc. cbn [app].
    f_equal. lia.
Qed.

Lemma SkipSpaces_mid_line s :
  mid_line s -> mid_line (SkipSpaces s).2.
Proof.
  intros [Hgood Hnl]. rewrite (good_is_good_stream s Hgood).
  destruct (span_before_newline (fun c => Ascii.eqb c " ") _ eq_refl Hnl)
    as (ds & c & rest & Hr & Hds & Hc & Hrest).
  unfold SkipSpaces. cbn [remaining good_stream]. rewrite Hr.
  rewrite SkipSpaces_loop_run by (auto; rewrite length_app; cbn; lia).
  cbn [snd]. rewrite unget_after_loop. cbn. split; [reflexivity|exact Hrest].
Qed.

Lemma SkipComment_loop_run cs : forall fuel cons rest,
  Forall (fun c => Ascii.eqb c nl = false) cs ->
  (length cs < fuel)%nat ->
  SkipComment_loop fuel (good_stream cons (cs ++ nl :: rest))
  = good_stream (nl :: rev cs ++ cons) rest.
Proof.
  induction cs as [|c cs IH]; intros fuel cons rest Hcs Hfuel.
  - destruct fuel; reflexivity.
  - destruct fuel as [|fuel]; [cbn in Hfuel; lia|].
    inversion Hcs as [|? ? Hc Hcs']; subst.
    cbn [app SkipComment_loop]. rewrite get_good_cons.
    cbn [eof eofbit good_stream].
    rewrite IH by (auto; cbn in Hfuel; lia).
    cbn [rev]. rewrite <- app_assoc. cbn [app].
    unfold nl in Hc.
    destruct c as [[] [] [] [] [] [] [] []]; try discriminate; reflexivity.
Qed.

Lemma SkipComment_mid_line s : mid_line s -> mid_line (SkipComment s).
Proof.
  intros [Hgood Hnl]. rewrite (good_is_good_stream s Hgood).
  destruct (span_before_newline (fun c => negb (Ascii.eqb c nl)) _ eq_refl Hnl)
    as (cs & c & rest & Hr & Hcs & Hc & Hrest).
  apply negb_false_iff, Ascii.eqb_eq in Hc. subst c.
  unfold SkipComment. cbn [remaining good_stream]. rewrite Hr.
  rewrite SkipComment_loop_run.
  - cbn. split; [reflexivity|exact Hrest].
  - eapply Forall_impl; [exact Hcs|]. intros x Hx. apply negb_true_iff, Hx.
  - rewrite length_app. cbn. lia.
Qed.

Lemma read_while_mid_line (p : ascii -> bool) s acc :
  p nl = false ->
  mid_line s ->
  mid_line (unget (read_while p (S (length (remaining s))) s acc).2).
Proof.
  intros Hp [Hgood Hnl]. rewrite (good_is_good_stream s Hgood).
  destruct (span_before_newline p _ Hp Hnl) as (ds & c & rest & Hr & Hds & Hc & Hrest).
  cbn [remaining good_stream]. rewrite Hr.
  rewrite read_while_run by (auto; rewrite length_app; cbn; lia).
  cbn [snd]. rewrite unget_after_loop. cbn. split; [reflexivity|exact Hrest].
Qed.

(** [ReadString] takes its characters from the front of the buffer and
    never takes a newline. *)
Lemma ReadString_loop_prefix q n : forall buf acc taken txt taken',
  length buf = n ->
  q <> nl ->
  ReadString_loop buf q acc taken = Ok (txt, taken') ->
  exists used rest,
    buf = used ++ rest
    /\ taken' = (taken + length used)%nat
    /\ Forall (fun c => c <> nl) used.
Proof.
  induction n as [n IH] using lt_wf_ind.
  intros buf acc taken txt taken' Hn Hq Hloop.
  destruct buf as [|ch buf]; cbn [ReadString_loop] in Hloop; [discriminate|].
  cbn in Hn.
  destruct (Ascii.eqb_spec ch q) as [->|Hnq].
  - injection Hloop as <- <-. exists [q], buf.
    repeat split; [cbn; lia|repeat constructor; assumption].
  - destruct (Ascii.eqb_spec ch "\"%char) as [->|Hnb].
    + destruct buf as [|e buf]; [discriminate|]. cbn in Hn.
      assert (Hrec : forall c,
                ReadString_loop buf q (c :: acc) (S (S taken)) = Ok (txt, taken') ->
                e <> nl ->
                exists used rest,
                  "\"%char :: e :: buf = used ++ rest
                  /\ taken' = (taken + length used)%nat
                  /\ Forall (fun c => c <> nl) used).
      { intros c Hc He.
        destruct (IH (length buf) ltac:(lia) _ _ _ _ _ eq_refl Hq Hc)
          as (used & rest & -> & -> & Hused).
        exists ("\"%char :: e :: used), rest. repeat split; [cbn; lia|].
        repeat constructor; try assumption. discriminate. }
      repeat match type of Hloop with
             | (if Ascii.eqb e ?x then _ else _) = _ =>
                 destruct (Ascii.eqb_spec e x) as [->|?];
                 [apply (Hrec _ Hloop); discriminate|]
             end.
      discriminate.
    + destruct (Ascii.eqb_spec ch "010"%char) as [->|Hnn]; [discriminate|].
      cbn [orb] in Hloop.
      destruct (Ascii.eqb ch "013"); [discriminate|].
      destruct (IH (length buf) ltac:(lia) _ _ _ _ _ eq_refl Hq Hloop)
        as (used & rest & -> & -> & Hused).
      exists (ch :: used), rest. repeat split; [cbn; lia|].
      constructor; assumption.
Qed.

End StreamRuns.
Section FinalNewline.

Import stream parse lexer_vocabulary indent_vocabulary newline_vocabulary.

Lemma iter_buf_advance used : forall cons rest e f,
  Nat.iter (length used) buf_advance (mk_istream cons (used ++ rest) e f)
  = mk_istream (rev used ++ cons) rest e f.
Proof.
  induction used as [|c used IH]; intros cons rest e f; [reflexivity|].
  cbn [length]. rewrite Nat.iter_succ_r. cbn [app buf_advance remaining].
  cbn [consumed eofbit failbit]. rewrite IH. cbn [rev].
  rewrite <- app_assoc. reflexivity.
Qed.

Lemma ends_with_newline_drop used : forall rest,
  ends_with_newline (used ++ rest) ->
  Forall (fun c => c <> nl) used ->
  ends_with_newline rest.
Proof.
  induction used as [|c used IH]; intros rest Hnl Hused; [exact Hnl|].
  inversion Hused as [|? ? Hc Hused']; subst.
  apply IH; [|assumption]. exact (ends_with_newline_cons _ _ Hnl Hc).
Qed.

Lemma ReadString_mid_line line s q line' s' :
  q <> nl ->
  mid_line s ->
  ReadString line s q = Ok (line', s') ->
  mid_line s'.
Proof.
  intros Hq [Hgood Hnl] Hread. unfold ReadString in Hread.
  destruct (ReadString_loop (remaining s) q [] 0) as [[txt taken]| | |] eqn:Hloop;
    cbn in Hread; try discriminate.
  injection Hread as _ <-.
  destruct (ReadString_loop_prefix q _ _ _ _ _ _ eq_refl Hq Hloop)
    as (used & rest & Hbuf & -> & Hused).
  rewrite (good_is_good_stream s Hgood). rewrite Hbuf. cbn [Nat.add].
  unfold good_stream. rewrite iter_buf_advance. split; [reflexivity|].
  cbn. rewrite Hbuf in Hnl. exact (ends_with_newline_drop _ _ Hnl Hused).
Qed.

Lemma isdigit_nl : isdigit nl = false.
Proof. reflexivity. Qed.

(** Inside a line, reading a character other than the newline and what
    follows it as one token leaves the stream inside the line. *)
Lemma ReadLine_body_mid_line line c s line' s' :
  c <> nl ->
  mid_line s ->
  ReadLine_body line (Some c) s = Ok (line', s') ->
  mid_line s'.
Proof.
  intros Hc Hmid Hbody. unfold ReadLine_body in Hbody.
  destruct (Ascii.eqb c " "); [injection Hbody as _ <-; apply SkipSpaces_mid_line, Hmid|].
  destruct (Ascii.eqb c "#"); [injection Hbody as _ <-; apply SkipComment_mid_line, Hmid|].
  destruct (Ascii.eqb_spec c "010"%char) as [Heq|_]; [contradiction|].
  destruct (Ascii.eqb c "034" || Ascii.eqb c "'");
    [exact (ReadString_mid_line _ _ _ _ _ Hc Hmid Hbody)|].
  destruct (isdigit c).
  { unfold ReadNumber in Hbody.
    assert (Hrun := read_while_mid_line isdigit s [c] isdigit_nl Hmid).
    destruct (read_while isdigit (S (length (remaining s))) s [c]) as [digits s1].
    destruct (stoi digits); cbn in Hbody; try discriminate.
    injection Hbody as _ <-. exact Hrun. }
  destruct (isalpha c || Ascii.eqb c "_").
  { unfold ReadIdentifier in Hbody.
    assert (Hrun := read_while_mid_line
                      (fun c => isalpha c || Ascii.eqb c "_" || isdigit c) s [c]
                      eq_refl Hmid).
    destruct (read_while _ (S (length (remaining s))) s [c]) as [name s1].
    injection Hbody as _ <-. exact Hrun. }
  destruct (is_comparison_start c); [|injection Hbody as _ <-; exact Hmid].
  destruct Hmid as [Hgood Hnl].
  rewrite (good_is_good_stream s Hgood) in Hbody.
  destruct (remaining s) as [|x r] eqn:Hr;
    [destruct (ends_with_newline_nonempty _ Hnl eq_refl)|].
  cbn [peek good good_stream eofbit failbit remaining orb negb] in Hbody.
  destruct (Ascii.eqb_spec x "="%char) as [->|Hx].
  - cbn in Hbody. injection Hbody as _ <-. cbn. split; [reflexivity|].
    apply (ends_with_newline_cons _ _ Hnl). discriminate.
  - assert (Helse :
              @Ok LexException _
                (emplace_back line (token_type.Char c),
                 good_stream (consumed s) (x :: r))
              = Ok (line', s')).
    { destruct x as [[] [] [] [] [] [] [] []]; try exact Hbody.
      contradiction Hx. reflexivity. }
    injection Helse as _ <-. split; [reflexivity|exact Hnl].
Qed.

Lemma ReadLine_loop_mid_line fuel : forall line s line' s',
  mid_line s ->
  ReadLine_loop fuel line s = Ok (line', s') ->
  Forall (fun t => inline t = true) (tokens_ line) ->
  Forall (fun t => inline t = true) (tokens_ line') /\ line_start s'.
Proof.
  induction fuel as [|fuel IH]; intros line s line' s' [Hgood Hnl] Hloop Hline;
    cbn [ReadLine_loop] in Hloop; [discriminate|].
  rewrite (good_is_good_stream s Hgood) in Hloop.
  destruct (remaining s) as [|c r] eqn:Hr;
    [destruct (ends_with_newline_nonempty _ Hnl eq_refl)|].
  rewrite get_good_cons in Hloop.
  destruct (ReadLine_body line (Some c) (good_stream (c :: consumed s) r))
    as [[line1 s2]| | |] eqn:Hbody; cbn in Hloop; try discriminate.
  destruct (ReadLine_body_shape _ _ _ _ _ Hbody Hline) as [_ Htok].
  destruct (Ascii.eqb_spec c "010"%char) as [->|Hc].
  - injection Hloop as <- <-. split; [assumption|].
    cbn in Hbody. injection Hbody as _ <-.
    split; [reflexivity|]. exact (ends_with_newline_tail _ _ Hnl).
  - apply (IH line1 s2); [|assumption|assumption].
    apply (ReadLine_body_mid_line line c (good_stream (c :: consumed s) r)
             line1 s2 Hc); [|assumption].
    split; [reflexivity|]. exact (ends_with_newline_cons _ _ Hnl Hc).
Qed.

(** At the start of a line of an input that ends with a newline, [ReadLine]
    either is at the end of the input and returns [Eof] alone, or returns a
    line without [Eof] and leaves the stream at the start of the next. *)
Lemma ReadLine_line_start s line s' :
  line_start s ->
  ReadLine s = Ok (line, s') ->
  tokens_ line = [token_type.Eof]
  \/ (Forall (fun t => inline t = true) (tokens_ line) /\ line_start s').
Proof.
  intros [Hgood [Hend|Hnl]] Hread.
  - left. rewrite (good_is_good_stream s Hgood), Hend in Hread.
    cbn in Hread. injection Hread as <- _. reflexivity.
  - right. unfold ReadLine in Hread.
    assert (Hmid := SkipSpaces_mid_line s (conj Hgood Hnl)).
    destruct (SkipSpaces s) as [indent s1]. cbn [snd] in Hmid.
    apply (ReadLine_loop_mid_line _ _ _ _ _ Hmid Hread). constructor.
Qed.

Lemma next_line_line_start fuel : forall s line s',
  line_start s ->
  next_line fuel s = Ok (line, s') ->
  tokens_ line = [token_type.Eof]
  \/ (Forall (fun t => inline t = true) (tokens_ line) /\ line_start s').
Proof.
  induction fuel as [|fuel IH]; intros s line s' Hstart H; cbn [next_line] in H;
    [discriminate|].
  destruct (ReadLine s) as [[line1 s1]| | |] eqn:Hread; cbn in H; try discriminate.
  destruct (ReadLine_line_start _ _ _ Hstart Hread) as [HEof|[Hinline Hstart1]].
  - unfold IsEmpty in H. rewrite HEof in H. cbn in H. injection H as <- <-. auto.
  - destruct (IsEmpty line1).
    + eapply IH; eassumption.
    + injection H as <- <-. auto.
Qed.

End FinalNewline.
Section FinalNewlineBalance.

Import stream parse lexer_vocabulary indent_vocabulary newline_vocabulary.

Lemma NextToken_newline_step lx t lx' :
  NextToken lx = Ok (t, lx') ->
  indent_invariant lx ->
  -1 <= curr_pos_ lx ->
  newline_invariant lx ->
  newline_invariant lx'.
Proof.
  intros Hnext Hinv Hpos Hnew. unfold NextToken in Hnext.
  destruct (curr_pos_ lx + 1 =? Z.of_nat (length (lexer_tokens_ lx))).
  - destruct (negb (bool_decide (lexer_tokens_ lx = []))
              && is_Eof (List.last (lexer_tokens_ lx) token_type.None)) eqn:HEof.
    + injection Hnext as <- <-. assumption.
    + destruct (next_line (S (length (remaining (in_ lx)))) (in_ lx))
        as [[line s1]| | |] eqn:Hline; cbn in Hnext; try discriminate.
      destruct (Z.rem (indent_ line) 2 =? 0) eqn:Heven; cbn in Hnext;
        [|discriminate].
      apply Z.eqb_eq in Heven.
      destruct (line_tokens (current_indent_ lx) line) as [new cur] eqn:Hlt.
      destruct (at_ (lexer_tokens_ lx ++ new) (curr_pos_ lx + 1)) as [t1| | |];
        cbn in Hnext; try discriminate.
      injection Hnext as <- <-.
      assert (Hlast : forall pre, lexer_tokens_ lx <> pre ++ [token_type.Eof]).
      { intros pre Hpre. rewrite Hpre in HEof. rewrite last_snoc in HEof.
        cbn in HEof. rewrite andb_true_r in HEof. apply negb_false_iff in HEof.
        apply bool_decide_eq_true in HEof. destruct pre; discriminate. }
      destruct Hnew as [[HnoEof Hstart]|[(pre & Hpre) _]];
        [|destruct (Hlast pre Hpre)].
      destruct Hinv as [(_ & Hcur & Hcur2 & Hdepth)|(_ & _ & _ & (pre & Hpre & _) & _)];
        [|destruct (Hlast pre Hpre)].
      destruct (next_line_shape _ _ _ _ Hline) as (Hind & Hshape & Hempty).
      destruct (line_tokens_depth (current_indent_ lx) line Hshape Hcur Hcur2 Hind Heven)
        as [Hd _].
      destruct (line_tokens_prefix (current_indent_ lx) line)
        as (prefix & Hprefix & HprefixEof).
      rewrite Hlt in Hd, Hprefix. cbn [fst] in Hd, Hprefix.
      destruct (next_line_line_start _ _ _ _ Hstart Hline) as [Honly|[Hinline Hstart1]].
      * right. cbn. split.
        -- exists (lexer_tokens_ lx ++ prefix).
           rewrite Hprefix, Honly, app_assoc. reflexivity.
        -- unfold IsEofOnly in Hd. rewrite Honly in Hd. cbn in Hd.
           rewrite depth_app, Hdepth, Hd. lia.
      * left. cbn. split; [|assumption].
        apply Forall_app_2; [assumption|]. rewrite Hprefix.
        apply Forall_app_2; [assumption|apply inline_not_Eof, Hinline].
  - destruct (at_ (lexer_tokens_ lx) (curr_pos_ lx + 1)) as [t1| | |];
      cbn in Hnext; try discriminate.
    injection Hnext as <- <-. exact Hnew.
Qed.

(** On an input that ends with a newline (or is empty) the lexer emits as
    many [Dedent] tokens as [Indent] tokens, whenever it reads the input to
    [Eof]: what C5 says holds for these inputs. *)
Theorem balanced_when_input_ends_with_newline input ts :
  input = [] \/ ends_with_newline input ->
  tokenize input = Ok ts ->
  count_Indent ts = count_Dedent ts.
Proof.
  intros Hinput H.
  destruct (tokenize_invariant newline_invariant input ts
              NextToken_newline_step) as (lx' & _ & Hnew & -> & pre & Hpre);
    [|assumption|].
  - left. cbn. split; [constructor|]. split; [reflexivity|exact Hinput].
  - destruct Hnew as [[HnoEof _]|[_ Hdepth]].
    + rewrite Hpre in HnoEof. apply Forall_app in HnoEof as [_ HnoEof].
      inversion HnoEof; discriminate.
    + unfold depth in Hdepth. lia.
Qed.

Example balanced_when_input_ends_with_newline_example :
  ends_with_newline (chars "if a:" ++ [nl] ++ chars "    x" ++ [nl])
  /\ tokenize (chars "if a:" ++ [nl] ++ chars "    x" ++ [nl])
     = Ok [token_type.If; token_type.Id "a"; token_type.Char ":"%char;
           token_type.Newline; token_type.Indent; token_type.Indent;
           token_type.Id "x"; token_type.Newline;
           token_type.Dedent; token_type.Dedent; token_type.Eof].
Proof.
  split; [exists (chars "if a:" ++ [nl] ++ chars "    x"); reflexivity|].
  vm_compute. reflexivity.
Qed.

End FinalNewlineBalance.

Section MethodIndex.

Import runtime runtime_vocabulary.

Context {Executable : Type}.

Implicit Types (c : Class Executable) (ms : list (Method Executable)).

Lemma index_methods_last ms : forall i idx method j,
  index_methods ms i idx !! method = Some j ->
  (idx !! method = Some j
   /\ existsb (fun m => String.eqb (name m) method) ms = false)
  \/ (exists m, (i <= j)%nat /\ ms !! (j - i)%nat = Some m /\ name m = method
                /\ forall k m', (j - i < k)%nat -> ms !! k = Some m' ->
                                name m' <> method).
Proof.
  induction ms as [|m ms IH]; intros i idx method j; cbn [index_methods existsb].
  - intros H. left. auto.
  - intros H. apply IH in H as [[H1 H2]|(m' & Hle & Hm' & Hname & Hlast)].
    + destruct (String.eqb_spec (name m) method) as [Heq|Hne].
      * rewrite Heq, lookup_insert_eq in H1. injection H1 as <-. right.
        exists m. rewrite Nat.sub_diag. repeat split; auto.
        intros k m' Hk Hm'. destruct k as [|k]; [lia|]. cbn in Hm'.
        intros Hn. apply list_elem_of_lookup_2 in Hm'.
        assert (existsb (fun m0 => String.eqb (name m0) method) ms = true) as Hex.
        { apply existsb_exists. exists m'. split; [apply list_elem_of_In, Hm'|].
          apply String.eqb_eq, Hn. }
        congruence.
      * rewrite lookup_insert_ne in H1 by assumption. left. auto.
    + right. exists m'. split; [lia|].
      replace (j - i)%nat with (S (j - S i)) by lia.
      split; [exact Hm'|]. split; [assumption|].
      intros k m'' Hk Hm''. destruct k as [|k]; [lia|]. cbn in Hm''.
      apply (Hlast k m''); [lia|assumption].
Qed.

(** X1: [Class::Class] and [Class::GetMethod]: when a class declares several
    methods of one name, the index built by the constructor keeps the last
    one, and that is the method both versions of [GetMethod] return for the
    class's own names: it has the name asked for, and no method after it in
    [methods_] has. *)
Theorem GetMethod_returns_last_declaration c method :
  declares c method = true ->
  exists i m,
    methods_ c !! i = Some m
    /\ name m = method
    /\ (forall j m', (i < j)%nat -> methods_ c !! j = Some m' -> name m' <> method)
    /\ runtime_draft.GetMethod c method = Some m
    /\ runtime_final.GetMethod c method = Some m.
Proof.
  intros Hd.
  destruct (methods_by_name_ c !! method) as [i|] eqn:Hi.
  - unfold methods_by_name_ in Hi.
    destruct (index_methods_last _ _ _ _ _ Hi)
      as [[H _]|(m & _ & Hm & Hname & Hlast)].
    { rewrite lookup_empty in H. discriminate. }
    rewrite Nat.sub_0_r in Hm, Hlast.
    exists i, m. repeat split; auto.
    + unfold runtime_draft.GetMethod, methods_by_name_. rewrite Hi. exact Hm.
    + destruct c as [nm ms p]. cbn [runtime_final.GetMethod].
      unfold methods_by_name_. cbn [methods_] in *. rewrite Hi. exact Hm.
  - apply methods_by_name_None in Hi. congruence.
Qed.

End MethodIndex.

Section MethodIndexExamples.

Import runtime runtime_vocabulary.

Lemma GetMethod_returns_last_declaration_witness :
  exists i m,
    methods_ (mk_Class "C" [mk_Method "f" [] 1%nat; mk_Method "g" [] 2%nat;
                            mk_Method "f" ["a"] 3%nat] None) !! i = Some m
    /\ name m = "f"
    /\ (forall j m', (i < j)%nat ->
          methods_ (mk_Class "C" [mk_Method "f" [] 1%nat; mk_Method "g" [] 2%nat;
                                  mk_Method "f" ["a"] 3%nat] None) !! j = Some m' ->
          name m' <> "f")
    /\ runtime_draft.GetMethod
         (mk_Class "C" [mk_Method "f" [] 1%nat; mk_Method "g" [] 2%nat;
                        mk_Method "f" ["a"] 3%nat] None) "f" = Some m
    /\ runtime_final.GetMethod
         (mk_Class "C" [mk_Method "f" [] 1%nat; mk_Method "g" [] 2%nat;
                        mk_Method "f" ["a"] 3%nat] None) "f" = Some m.
Proof.
  apply (GetMethod_returns_last_declaration
           (mk_Class "C" [mk_Method "f" [] 1%nat; mk_Method "g" [] 2%nat;
                          mk_Method "f" ["a"] 3%nat] None) "f").
  reflexivity.
Defined.

End MethodIndexExamples.

(** ** Local closures are local *)

Section KeepsFrames.

Import runtime isolation_vocabulary.

Context {Executable : Type}.

Lemma keeps_frames_weaken {A : Type} r (m : M Executable A) :
  keeps_frames m -> keeps_frames_but r m.
Proof. intros H st j _. rewrite H. reflexivity. Qed.

Lemma local_ret {A : Type} r (a : A) :
  keeps_frames_but r (ret (Executable := Executable) a).
Proof. intros st j _. reflexivity. Qed.

Lemma local_mret {A : Type} r (a : A) :
  keeps_frames_but r (mret (M := M Executable) a).
Proof. intros st j _. reflexivity. Qed.

Lemma local_throw {A : Type} r e :
  keeps_frames_but r (throw (Executable := Executable) (A := A) e).
Proof. intros st j _. reflexivity. Qed.

Lemma local_undefined {A : Type} r :
  keeps_frames_but r (undefined (Executable := Executable) (A := A)).
Proof. intros st j _. reflexivity. Qed.

Lemma local_out_of_fuel {A : Type} r :
  keeps_frames_but r (out_of_fuel (Executable := Executable) (A := A)).
Proof. intros st j _. reflexivity. Qed.

Lemma local_bind {A B : Type} r (m : M Executable A) (f : A -> M Executable B) :
  keeps_frames_but r m -> (forall a, keeps_frames_but r (f a)) ->
  keeps_frames_but r (m ≫= f).
Proof.
  intros Hm Hf st j Hj. unfold mbind, M_mbind, bind.
  specialize (Hm st j Hj). destruct (m st) as [[a| | |] st1]; cbn in *; try exact Hm.
  rewrite (Hf a st1 j Hj). exact Hm.
Qed.

Lemma local_get_state r : keeps_frames_but r (get_state (Executable := Executable)).
Proof. intros st j _. reflexivity. Qed.

(** A change of the state that leaves the local closures alone, followed
    by a computation that does. *)
Lemma local_modify {A : Type} r (g : State Executable -> State Executable)
    (k : M Executable A) :
  (forall st, frames (g st) = frames st) ->
  keeps_frames_but r k ->
  keeps_frames_but r (st ← get_state; _ ← put_state (g st); k).
Proof.
  intros Hg Hk st j Hj. unfold mbind, M_mbind, bind, get_state, put_state.
  rewrite (Hk (g st) j Hj), Hg. reflexivity.
Qed.

Lemma local_closure_get r r' id :
  keeps_frames_but r (closure_get (Executable := Executable) r' id).
Proof.
  intros st j _. unfold closure_get. destruct (read_closure st r'); reflexivity.
Qed.

Lemma local_closure_at r r' id :
  keeps_frames_but r (closure_at (Executable := Executable) r' id).
Proof.
  apply local_bind; [apply local_closure_get|].
  intros [h|]; [apply local_ret|apply local_throw].
Qed.

(** Writing through [r] itself, or to the fields of an instance. *)
Lemma local_closure_set r id h :
  keeps_frames_but r (closure_set (Executable := Executable) r id h).
Proof.
  intros st j Hj. unfold closure_set. destruct (read_closure st r); [|reflexivity].
  destruct r as [k|a]; cbn.
  - apply lookup_insert_ne. congruence.
  - destruct (instances st !! a); reflexivity.
Qed.

Lemma local_closure_set_Fields r a id h :
  keeps_frames_but r (closure_set (Executable := Executable) (Fields a) id h).
Proof.
  intros st j _. unfold closure_set. destruct (read_closure st (Fields a)); [|reflexivity].
  cbn. destruct (instances st !! a); reflexivity.
Qed.

Lemma local_write_output r text :
  keeps_frames_but r (write_output (Executable := Executable) text).
Proof. intros st j _. reflexivity. Qed.

Lemma local_SetSelfName r x :
  keeps_frames_but r (SetSelfName (Executable := Executable) x).
Proof. intros st j _. reflexivity. Qed.

Lemma local_GetSelfName r : keeps_frames_but r (GetSelfName (Executable := Executable)).
Proof. intros st j _. reflexivity. Qed.

Lemma local_through_pointer r locals a :
  keeps_frames_but r (through_pointer (Executable := Executable) locals a).
Proof.
  intros st j _. unfold through_pointer. destruct (alive st locals a); reflexivity.
Qed.

Lemma local_class_of r a : keeps_frames_but r (class_of (Executable := Executable) a).
Proof.
  intros st j _. unfold class_of. destruct (instances st !! a) as [inst|]; [|reflexivity].
  destruct (classes st !! cls_ inst); reflexivity.
Qed.

Lemma local_HasMethod_with r GetMethod a method argc :
  keeps_frames_but r (HasMethod_with (Executable := Executable) GetMethod a method argc).
Proof.
  apply local_bind; [apply local_class_of|]. intros [cid c]. apply local_mret.
Qed.

(** The closure of a call is released when the call is left: if the body
    touches no frame but its own, the call touches none. *)
Lemma keeps_frames_with_local_closure {A : Type} locals
    (f : ClosureRef -> M Executable A) :
  (forall k, keeps_frames_but (Frame k) (f (Frame k))) ->
  keeps_frames (with_local_closure locals f).
Proof.
  intros Hf st. unfold with_local_closure.
  set (k := fresh (dom (frames st))).
  set (st1 := mk_State _ _ _ _ _).
  specialize (Hf k st1). destruct (f (Frame k) st1) as [res st2]. cbn in *.
  apply map_eq. intros j. destruct (decide (j = k)) as [->|Hne].
  - rewrite lookup_delete_eq. symmetry. apply not_elem_of_dom, is_fresh.
  - rewrite lookup_delete_ne by congruence.
    rewrite Hf by congruence. apply lookup_insert_ne. congruence.
Qed.

End KeepsFrames.

Create HintDb locals.

#[local] Hint Resolve local_ret local_mret local_throw local_undefined
  local_out_of_fuel local_get_state local_closure_get local_closure_at
  local_closure_set local_closure_set_Fields local_write_output
  local_SetSelfName local_GetSelfName local_through_pointer local_class_of
  local_HasMethod_with : locals.

Ltac locals_step :=
  match goal with
  | |- isolation_vocabulary.keeps_frames_but _ (_ ≫= _) =>
      apply local_bind; [|intros ?]
  | |- isolation_vocabulary.keeps_frames_but _ (match ?x with _ => _ end) =>
      destruct x
  | |- isolation_vocabulary.keeps_frames_but _ (let '(_, _) := ?x in _) =>
      destruct x
  | |- isolation_vocabulary.keeps_frames_but _ _ => solve [eauto with locals]
  end.

Ltac locals := repeat locals_step.

Section NodeKeepsFrames.

Import runtime ast isolation_vocabulary.

Variable Execute : Statement -> ClosureRef -> M ObjectHolder.t.
Variable Print_object : Object -> M string.

Hypothesis local_Execute : forall s r, keeps_frames_but r (Execute s r).
Hypothesis local_Print_object : forall o r, keeps_frames_but r (Print_object o).

Local Hint Resolve local_Execute local_Print_object : locals.

Lemma local_HasMethod u r a method argc :
  keeps_frames_but r (HasMethod u a method argc).
Proof. destruct u; apply local_HasMethod_with. Qed.

(** [ClassInstance::Call]: the complete version runs the body in a closure
    of its own, the earlier one in the fields of the instance; neither
    leaves a trace in a local closure. *)
Lemma keeps_frames_Call u a method actual_args :
  keeps_frames (Call u Execute a method actual_args).
Proof.
  assert (forall r, keeps_frames_but r (Call u Execute a method actual_args)) as H.
  { intros r. destruct u as [conv|]; cbn [Call].
    - unfold runtime_draft.Call.
      apply local_bind; [apply local_HasMethod_with|]. intros has.
      destruct (negb has); [apply local_throw|].
      apply local_bind; [apply local_class_of|]. intros [cid c].
      destruct (methods_by_name_ c !! method) as [i|]; [|apply local_undefined].
      destruct (methods_ c !! i) as [m|]; [|apply local_undefined].
      match goal with
      | |- keeps_frames_but _ (st ← get_state; _ ← put_state (@?g st); ?k) =>
          apply (local_modify r g k); [reflexivity|]
      end.
      intros st j _. apply (local_Execute _ (Fields a) st j). discriminate.
    - unfold runtime_final.Call.
      apply local_bind; [apply local_HasMethod_with|]. intros has.
      destruct (negb has); [apply local_throw|].
      apply local_bind; [apply local_class_of|]. intros [cid c].
      destruct (runtime_final.GetMethod c method); [|apply local_undefined].
      apply keeps_frames_weaken, keeps_frames_with_local_closure.
      intros k. apply local_Execute. }
  intros st. apply map_eq. intros j. apply (H (Fields 0%nat)). discriminate.
Qed.

Lemma local_Call u r a method actual_args :
  keeps_frames_but r (Call u Execute a method actual_args).
Proof. apply keeps_frames_weaken, keeps_frames_Call. Qed.

Local Hint Resolve local_HasMethod local_Call : locals.

Lemma local_Object_Print u r o :
  keeps_frames_but r (Object_Print u Execute Print_object o).
Proof.
  destruct u as [conv|]; cbn [Object_Print].
  - assert (HC := local_Call (Draft conv) r).
    unfold runtime_draft.Object_Print. destruct o; locals.
  - assert (HC := local_Call Final r).
    unfold runtime_final.Object_Print. destruct o; locals.
Qed.

Local Hint Resolve local_Object_Print : locals.

Lemma local_compare u r cmp lhs rhs :
  keeps_frames_but r (compare u Execute cmp lhs rhs).
Proof.
  destruct u as [conv|].
  - destruct cmp; cbn [compare]; try apply local_throw.
    unfold runtime_draft.Equal. locals.
  - assert (HH : forall a m k,
              keeps_frames_but r (runtime_final.HasMethod (Executable := Statement) a m k)).
    { intros. apply local_HasMethod_with. }
    assert (HC : forall a m args, keeps_frames_but r (runtime_final.Call Execute a m args)).
    { intros a m args. apply (local_Call Final r a m args). }
    assert (HEq : keeps_frames_but r (runtime_final.Equal Execute lhs rhs)).
    { unfold runtime_final.Equal. locals. }
    assert (HLt : keeps_frames_but r (runtime_final.Less Execute lhs rhs)).
    { unfold runtime_final.Less. locals. }
    assert (HGt : keeps_frames_but r (runtime_final.Greater Execute lhs rhs)).
    { unfold runtime_final.Greater. locals. }
    destruct cmp; cbn [compare]; try assumption.
    + unfold runtime_final.NotEqual. locals.
    + unfold runtime_final.LessOrEqual. locals.
    + unfold runtime_final.GreaterOrEqual. locals.
Qed.

Local Hint Resolve local_compare : locals.

Lemma local_Execute_args args r :
  keeps_frames_but r (Execute_args Execute args r).
Proof. induction args as [|s args IH]; cbn [Execute_args]; locals. Qed.

(** The closure a dotted name is resolved in changes only from the closure
    the statement runs on to the fields of instances. *)
Lemma local_VariableValue_loop r all_ids ids :
  forall r' result, keeps_frames_but r (VariableValue_loop all_ids ids r' result).
Proof.
  induction ids as [|id ids IH]; intros r' result; cbn [VariableValue_loop]; locals.
Qed.

Lemma FieldAssignment_loop_target ids : forall r st p st',
  FieldAssignment_loop ids r st = (Ok p, st') ->
  st' = st /\ (p = r \/ exists a, p = Fields a).
Proof.
  induction ids as [|id ids IH]; intros r st p st'; cbn [FieldAssignment_loop].
  - intros [= <- <-]. auto.
  - unfold closure_at, closure_get, mbind, M_mbind, bind.
    destruct (read_closure st r) as [c|]; [|discriminate].
    destruct (c !! id) as [h|]; [|discriminate]. cbn.
    destruct (TryAs_ClassInstance h) as [a|]; [|discriminate].
    intros H. apply IH in H as [-> [->|[a' ->]]]; eauto.
Qed.

Lemma local_FieldAssignment_loop r ids :
  forall r', keeps_frames_but r (FieldAssignment_loop ids r').
Proof.
  induction ids as [|id ids IH]; intros r'; cbn [FieldAssignment_loop]; locals.
Qed.

Lemma local_FieldAssignment_Execute object field_name rv r :
  keeps_frames_but r (FieldAssignment_Execute Execute object field_name rv r).
Proof.
  intros st j Hj. unfold FieldAssignment_Execute, mbind, M_mbind, bind.
  assert (Hl := local_FieldAssignment_loop r object r st j Hj).
  destruct (FieldAssignment_loop object r st) as [[p| | |] st1] eqn:Hloop;
    cbn in Hl; try exact Hl.
  apply FieldAssignment_loop_target in Hloop as [-> Hp].
  assert (He := local_Execute rv r st j Hj).
  destruct (Execute rv r st) as [[h| | |] st2]; cbn in *; try exact He.
  rewrite <- He.
  assert (keeps_frames_but r
            (_ ← match object, p with
                 | _ :: _, Fields a => through_pointer [] a
                 | _, _ => ret tt
                 end;
             _ ← closure_set p field_name h; closure_at p field_name
             : M ObjectHolder.t)) as Hset.
  { destruct Hp as [->|[a ->]]; locals. }
  apply (Hset st2 j Hj).
Qed.

Lemma local_Print_loop u r args :
  forall first, keeps_frames_but r (Print_loop u Execute Print_object args first r).
Proof.
  induction args as [|s args IH]; intros first; cbn [Print_loop]; locals.
Qed.

Lemma local_Compound_loop args r : keeps_frames_but r (Compound_loop Execute args r).
Proof. induction args as [|s args IH]; cbn [Compound_loop]; locals. Qed.

Local Hint Resolve local_Execute_args local_VariableValue_loop
  local_Print_loop local_Compound_loop : locals.

Lemma local_new_instance r cls : keeps_frames_but r (new_instance cls).
Proof. intros st j _. reflexivity. Qed.

Local Hint Resolve local_new_instance : locals.

Lemma local_MethodBody_Execute body r :
  keeps_frames_but r (MethodBody_Execute Execute body r).
Proof.
  intros st j Hj. unfold MethodBody_Execute. specialize (local_Execute body r st j Hj).
  destruct (Execute body r st) as [[h|[]| |] st1]; cbn in *; assumption.
Qed.

Lemma local_Execute_node u s r :
  keeps_frames_but r (Execute_node u Execute Print_object s r).
Proof.
  destruct s; cbn [Execute_node].
  - unfold VariableValue_Execute. locals.
  - unfold Assignment_Execute. locals.
  - apply local_FieldAssignment_Execute.
  - unfold Print_Execute. locals.
  - unfold MethodCall_Execute. locals.
  - unfold Stringify_Execute. locals.
  - unfold Add_Execute, number_result. locals.
  - unfold Sub_Execute, number_result. locals.
  - unfold Mult_Execute, number_result. locals.
  - unfold Div_Execute, number_result. locals.
  - unfold Compound_Execute. locals.
  - unfold Return_Execute. locals.
  - unfold ClassDefinition_Execute. locals.
  - unfold IfElse_Execute. locals.
  - unfold Or_Execute. locals.
  - unfold And_Execute. locals.
  - unfold Not_Execute. locals.
  - unfold Comparison_Execute. locals.
  - unfold NewInstance_Execute, NewInstance_init. locals.
  - apply local_MethodBody_Execute.
Qed.

End NodeKeepsFrames.

Section Isolation.

Import runtime ast isolation_vocabulary.

Lemma local_Execute_fuel u n :
  (forall s r, keeps_frames_but r (Execute u n s r))
  /\ (forall o r, keeps_frames_but r (Print_object u n o)).
Proof.
  induction n as [|n [IHe IHp]].
  - split; intros; apply local_out_of_fuel.
  - split.
    + intros s r. rewrite Execute_S. apply local_Execute_node; assumption.
    + intros o r. cbn [Print_object]. apply local_Object_Print; assumption.
Qed.

(** X4: Calls leave the local closures alone, in both versions of
    [runtime.cpp].  The local closures (frames) are the closure a program
    is started on and the [Closure] that the [ClassInstance::Call] of the
    complete [runtime.cpp] makes for a call.  A statement executed on the
    closure [r] changes no frame other than [r]; and a method call, whatever
    its outcome, leaves every frame as it was: the one made for the call is
    gone, and no other has been written to.  With the complete
    [runtime.cpp], where the code of a method runs on the frame of its
    call, a method so cannot change the variables of its caller.  (The
    fields of instances are no frames: a call can change them, and with
    [src/runtime.cpp] the code of a method runs on the fields of its
    instance.) *)
Theorem calls_leave_local_closures_alone u n :
  (forall s r st j, r <> Frame j ->
     frames (Execute u n s r st).2 !! j = frames st !! j)
  /\ (forall a method actual_args st,
        frames (Call u (Execute u n) a method actual_args st).2 = frames st).
Proof.
  split.
  - intros s r. apply (proj1 (local_Execute_fuel u n)).
  - intros a method actual_args. apply keeps_frames_Call.
    apply (proj1 (local_Execute_fuel u n)).
Qed.

End Isolation.

(** ** What [NewInstance::Execute] leaves behind when the construction fails *)

Section NoRollBack.

Import runtime ast runtime_vocabulary isolation_vocabulary.

(** Where the arguments leave the binding alone, [NewInstance::Execute]
    behaves as C10 says, with the complete [runtime.cpp] and for a caller
    whose closure is the frame [k].  The binding of the self-name is
    replaced by the new instance before anything else; an exception of an
    argument leaves [NewInstance::Execute] in the state [st2] that argument
    left; and if the arguments have left the caller's closure as it was
    when they were evaluated, an exception of [__init__] leaves it so too:
    the closure holds the new instance, and what the name was bound to
    before is lost. *)
Lemma NewInstance_does_not_roll_back n cls args k st c e st2 :
  frames st !! k = Some c ->
  let a := fresh (dom (instances st)) in
  let it := ObjectHolder.Own (ClassInstance_at a) in
  let st1 :=
    write_closure (with_instance st a cls) (Frame k) (<[self_name st := it]> c) in
  HasMethod Final a INIT_METHOD (length args) st1 = (Ok true, st1) ->
  bound_in st1 (Frame k) (self_name st) = Some it
  /\ (Execute_args (Execute Final n) args (Frame k) st1 = (Throw e, st2) ->
      Execute Final (S n) (NewInstance cls args) (Frame k) st = (Throw e, st2))
  /\ (forall actual_args st',
        Execute_args (Execute Final n) args (Frame k) st1 = (Ok actual_args, st') ->
        frames st' !! k = frames st1 !! k ->
        Call Final (Execute Final n) a INIT_METHOD actual_args st' = (Throw e, st2) ->
        Execute Final (S n) (NewInstance cls args) (Frame k) st = (Throw e, st2)
        /\ bound_in st2 (Frame k) (self_name st) = Some it).
Proof.
  intros Hc a it st1 Hhas.
  assert (Hk1 : frames st1 !! k = Some (<[self_name st := it]> c)).
  { cbn. apply lookup_insert_eq. }
  assert (Hb : bound_in st1 (Frame k) (self_name st) = Some it).
  { unfold bound_in. cbn [read_closure]. rewrite Hk1. cbn. apply lookup_insert_eq. }
  assert (Hsteps := NewInstance_Execute_steps Final n cls args (Frame k) st c Hc).
  fold a in Hsteps. fold it in Hsteps. fold st1 in Hsteps.
  split; [exact Hb|]. split.
  - intros Hargs. rewrite Hsteps. unfold NewInstance_init.
    rewrite (bind_Ok _ _ _ _ _ Hhas).
    apply bind_Throw. apply bind_Throw. exact Hargs.
  - intros actual_args st' Hargs Hk' Hcall.
    assert (Halive : alive st' actual_args a = true).
    { apply (alive_in_frame st' actual_args k (<[self_name st := it]> c) (self_name st)).
      - rewrite Hk'. exact Hk1.
      - apply lookup_insert_eq. }
    split.
    + rewrite Hsteps. unfold NewInstance_init.
      rewrite (bind_Ok _ _ _ _ _ Hhas).
      apply bind_Throw. rewrite (bind_Ok _ _ _ _ _ Hargs).
      rewrite (bind_Ok _ _ _ _ _ (through_pointer_run st' actual_args a Halive)).
      apply bind_Throw. exact Hcall.
    + assert (Hframes := keeps_frames_Call (Execute Final n)
                (proj1 (local_Execute_fuel Final n)) Final a INIT_METHOD actual_args st').
      rewrite Hcall in Hframes. cbn in Hframes.
      unfold bound_in. cbn [read_closure]. rewrite Hframes, Hk', Hk1. cbn.
      apply lookup_insert_eq.
Qed.

(** [x = A(x, nope)]: the second argument throws; the closure is left with
    [x] bound to the new instance, and the number [x] was bound to is
    lost. *)
Example failed_construction_keeps_the_new_instance :
  Execute Final 3 (NewInstance 0 [VariableValue ["x"]; VariableValue ["nope"]])
    (Frame 0) constructor_examples.A_and_B
  = (Throw (runtime_error "Uncknown variable name: nope"),
     construction_states.A_under_construction)
  /\ bound_in constructor_examples.A_and_B (Frame 0) "x"
     = Some (ObjectHolder.Own (Number 1))
  /\ bound_in construction_states.A_under_construction (Frame 0) "x"
     = Some (ObjectHolder.Own (ClassInstance_at 0)).
Proof. repeat split; vm_compute; reflexivity. Qed.

End NoRollBack.

(** ** Further properties of the evaluator *)

Section FinalClasses.

Import runtime ast frame_vocabulary.

(** X3: With the complete [runtime.cpp] no statement, whatever it is and
    whatever its outcome (a value, an exception, undefined behaviour met on
    the way), changes a [Class] object: the classes after the execution are
    the classes before it. *)
Theorem final_program_never_changes_a_class n s r st :
  classes (Execute Final n s r st).2 = classes st.
Proof. apply (proj1 (final_Execute_keeps_classes n)). Qed.

End FinalClasses.

Section FinalCallWitness.

Import runtime ast constructor_examples.

Lemma final_Call_frame_witness :
  let st := one_Getter in
  let k := fresh (dom (frames st)) in
  let locals :=
    runtime_final.bind_params ["a"] [ObjectHolder.Own (Number 7)]
      (<["self" := ObjectHolder.Share (ClassInstance_at 0)]> ∅) in
  let st1 :=
    mk_State (classes st) (instances st) (<[k := locals]> (frames st))
      (output st) (self_name st) in
  let body_run := Execute Final 4 Getter_get (Frame k) st1 in
  let after := Call Final (Execute Final 4) 0%nat "get" [ObjectHolder.Own (Number 7)] st in
  frames st !! k = None
  /\ after
     = (body_run.1,
        mk_State (classes body_run.2) (instances body_run.2)
          (delete k (frames body_run.2)) (output body_run.2)
          (self_name body_run.2))
  /\ ("self" ∉ ["a"] ->
      locals !! "self" = Some (ObjectHolder.Share (ClassInstance_at 0)))
  /\ (NoDup ["a"] ->
      forall i p h, ["a"] !! i = Some p -> [ObjectHolder.Own (Number 7)] !! i = Some h ->
                    locals !! p = Some h)
  /\ classes after.2 = classes st.
Proof.
  exact (final_Call_frame 4 0%nat "get" [ObjectHolder.Own (Number 7)] one_Getter
           (mk_ClassInstance 0 ∅) Getter (mk_Method "get" ["a"] Getter_get)
           eq_refl eq_refl eq_refl eq_refl).
Defined.

End FinalCallWitness.

Section NodeFacts.

Import runtime ast runtime_vocabulary.

Implicit Types (st : State) (closure : ClosureRef).

Variable u : Unit.
Variable n : nat.

Lemma closure_at_run st closure c id h :
  read_closure st closure = Some c -> c !! id = Some h ->
  closure_at closure id st = (Ok h, st).
Proof.
  intros Hc Hid. unfold closure_at.
  rewrite (bind_Ok _ _ _ _ _ (closure_get_run st closure c id Hc)), Hid.
  reflexivity.
Qed.

Lemma closure_at_missing st closure c id :
  read_closure st closure = Some c -> c !! id = None ->
  closure_at closure id st = (Throw out_of_range, st).
Proof.
  intros Hc Hid. unfold closure_at.
  rewrite (bind_Ok _ _ _ _ _ (closure_get_run st closure c id Hc)), Hid.
  reflexivity.
Qed.


Lemma Compound_loop_app E pre post closure st st0 :
  Compound_loop E pre closure st = (Ok tt, st0) ->
  Compound_loop E (pre ++ post) closure st = Compound_loop E post closure st0.
Proof.
  revert st. induction pre as [|s pre IH]; intros st; cbn [app Compound_loop].
  - intros [= ->]. reflexivity.
  - unfold mbind, M_mbind, bind.
    destruct (E s closure st) as [[h| | |] st']; try discriminate.
    apply IH.
Qed.

(** X7: [Return::Execute] and [MethodBody::Execute]: a [return] leaves the
    method at once.  The statements [pre] before it in the body have run,
    the statements [rest] after it never do; [Compound::Execute] is left by
    the [ReturnException], and [MethodBody::Execute] turns it into the
    result of the call. *)
Theorem Return_leaves_the_method pre e rest closure st st0 h st1 :
  Compound_loop (Execute u (S n)) pre closure st = (Ok tt, st0) ->
  Execute u n e closure st0 = (Ok h, st1) ->
  Execute u (S (S n)) (Compound (pre ++ Return e :: rest)) closure st
  = (Throw (ReturnException h), st1)
  /\ Execute u (S (S (S n))) (MethodBody (Compound (pre ++ Return e :: rest)))
       closure st
     = (Ok h, st1).
Proof.
  intros Hpre He.
  assert (Execute u (S (S n)) (Compound (pre ++ Return e :: rest)) closure st
          = (Throw (ReturnException h), st1)) as Hc.
  { rewrite Execute_S. cbn [Execute_node]. unfold Compound_Execute.
    apply bind_Throw. rewrite (Compound_loop_app _ _ _ _ _ _ Hpre).
    cbn [Compound_loop]. apply bind_Throw.
    rewrite Execute_S. cbn [Execute_node]. unfold Return_Execute.
    rewrite (bind_Ok _ _ _ _ _ He). reflexivity. }
  split; [exact Hc|].
  rewrite Execute_S. cbn [Execute_node]. unfold MethodBody_Execute.
  rewrite Hc. reflexivity.
Qed.




(** X12: [FieldAssignment::Execute] on [obj.f = rv] when [obj] does not name an
    instance: a name that is not bound makes [at] throw
    [std::out_of_range] (not the [runtime_error] of a read); a name bound
    to something that is not a class instance is a null pointer
    dereferenced.  Either way the right-hand side has not been evaluated. *)
Theorem FieldAssignment_on_a_non_instance obj ids f rv closure st c :
  read_closure st closure = Some c ->
  (c !! obj = None ->
   Execute u (S n) (FieldAssignment (obj :: ids) f rv) closure st
   = (Throw out_of_range, st))
  /\ (forall h, c !! obj = Some h -> TryAs_ClassInstance h = None ->
      Execute u (S n) (FieldAssignment (obj :: ids) f rv) closure st
      = (Undefined, st)).
Proof.
  intros Hc. rewrite Execute_S. cbn [Execute_node].
  unfold FieldAssignment_Execute. cbn [FieldAssignment_loop]. split.
  - intros Hh. apply bind_Throw. apply bind_Throw.
    apply (closure_at_missing _ _ _ _ Hc Hh).
  - intros h Hh Hobj. apply bind_Undefined.
    rewrite (bind_Ok _ _ _ _ _ (closure_at_run st closure c obj h Hc Hh)), Hobj.
    reflexivity.
Qed.

(** X13: [FieldAssignment::Execute] on [obj.f = rv] when [obj] names the
    instance at [a] and the instance is still there when the right-hand
    side has been evaluated, because a local closure ([k], under the name
    [y]) binds an owning holder of it then: the field [f] of that instance
    is set to the value of [rv], which is also the result, and the other
    fields are kept. *)
Theorem FieldAssignment_sets_the_field obj f rv closure st c hobj a h st1 inst1
    k ck y :
  read_closure st closure = Some c ->
  c !! obj = Some hobj ->
  TryAs_ClassInstance hobj = Some a ->
  Execute u n rv closure st = (Ok h, st1) ->
  frames st1 !! k = Some ck ->
  ck !! y = Some (ObjectHolder.Own (ClassInstance_at a)) ->
  instances st1 !! a = Some inst1 ->
  let st2 := write_closure st1 (Fields a) (<[f := h]> (closure_ inst1)) in
  Execute u (S n) (FieldAssignment [obj] f rv) closure st = (Ok h, st2)
  /\ bound_in st2 (Fields a) f = Some h
  /\ forall g, g <> f -> bound_in st2 (Fields a) g = closure_ inst1 !! g.
Proof.
  intros Hc Hobj Ha Hrv Hk Hy Hinst st2.
  assert (Hf1 : read_closure st1 (Fields a) = Some (closure_ inst1)).
  { cbn. rewrite Hinst. reflexivity. }
  assert (Hf2 := read_write_closure st1 (Fields a) _ (<[f := h]> (closure_ inst1)) Hf1).
  fold st2 in Hf2.
  split; [|split].
  - rewrite Execute_S. cbn [Execute_node].
    unfold FieldAssignment_Execute. cbn [FieldAssignment_loop].
    rewrite (bind_Ok _ _ st (Fields a) st).
    2:{ rewrite (bind_Ok _ _ _ _ _ (closure_at_run st closure c obj hobj Hc Hobj)), Ha.
        reflexivity. }
    rewrite (bind_Ok _ _ _ _ _ Hrv).
    rewrite (bind_Ok _ _ _ _ _
               (through_pointer_run st1 [] a (alive_in_frame st1 [] k ck y a Hk Hy))).
    rewrite (bind_Ok _ _ _ _ _ (closure_set_run st1 (Fields a) _ f h Hf1)).
    apply (closure_at_run _ _ _ _ _ Hf2). apply lookup_insert_eq.
  - unfold bound_in. rewrite Hf2. cbn. apply lookup_insert_eq.
  - intros g Hg. unfold bound_in. rewrite Hf2. cbn. apply lookup_insert_ne. congruence.
Qed.

(** X14: [NewInstance::Execute] for a class that has no [__init__] with as many
    parameters as there are arguments: nothing is reported; the instance is
    made, bound under the self-name and returned, without fields, and the
    arguments are not evaluated. *)
Theorem NewInstance_without_matching_init cls args closure st c :
  read_closure st closure = Some c ->
  let a := fresh (dom (instances st)) in
  let st1 :=
    write_closure (with_instance st a cls) closure
      (<[self_name st := ObjectHolder.Own (ClassInstance_at a)]> c) in
  HasMethod u a INIT_METHOD (length args) st1 = (Ok false, st1) ->
  Execute u (S n) (NewInstance cls args) closure st
  = (Ok (ObjectHolder.Own (ClassInstance_at a)), st1).
Proof.
  intros Hc a st1 Hhas.
  rewrite (NewInstance_Execute_steps u n cls args closure st c Hc).
  fold a. fold st1. unfold NewInstance_init.
  rewrite (bind_Ok _ _ _ _ _ Hhas).
  rewrite (bind_Ok (ret tt) _ st1 tt st1) by reflexivity.
  assert (Hb := bound_after_insertion cls closure st c Hc).
  fold a in Hb. fold st1 in Hb. unfold bound_in in Hb.
  destruct (read_closure st1 closure) as [c1|] eqn:Hc1; [|discriminate].
  cbn in Hb. apply (closure_at_run _ _ _ _ _ Hc1 Hb).
Qed.

End NodeFacts.

(** ** The comparators on values of one primitive type *)

Section PrimitiveComparisons.

Import runtime ast comparison_vocabulary.

Variable Execute : Statement -> ClosureRef -> M ObjectHolder.t.

Lemma string_compare_refl (s : string) : String.compare s s = Eq.
Proof.
  induction s as [|c s IH]; [reflexivity|]. cbn.
  unfold Ascii.compare. rewrite N.compare_refl. exact IH.
Qed.

Lemma string_eqb_compare (l r : string) :
  String.eqb l r = match String.compare l r with Eq => true | _ => false end.
Proof.
  destruct (String.eqb_spec l r) as [->|Hne].
  - rewrite string_compare_refl. reflexivity.
  - destruct (String.compare l r) eqn:Hc; try reflexivity.
    apply String.compare_eq_iff in Hc. contradiction.
Qed.

Lemma TryAs_Number_not_Bool h n : TryAs_Number h = Some n -> TryAs_Bool h = None.
Proof. destruct h as [|[]|[]]; cbn; congruence. Qed.

Lemma TryAs_String_not_Bool h s : TryAs_String h = Some s -> TryAs_Bool h = None.
Proof. destruct h as [|[]|[]]; cbn; congruence. Qed.

Lemma TryAs_String_not_Number h s : TryAs_String h = Some s -> TryAs_Number h = None.
Proof. destruct h as [|[]|[]]; cbn; congruence. Qed.

Lemma final_compare_of_Equal_Less cmp lhs rhs st c :
  runtime_final.Equal Execute lhs rhs st = (Ok (answer Equal c), st) ->
  runtime_final.Less Execute lhs rhs st = (Ok (answer Less c), st) ->
  compare Final Execute cmp lhs rhs st = (Ok (answer cmp c), st).
Proof.
  intros HEq HLt.
  destruct cmp; cbn [compare];
    unfold runtime_final.NotEqual, runtime_final.LessOrEqual,
      runtime_final.GreaterOrEqual, runtime_final.Greater;
    unfold mbind, M_mbind, bind; rewrite ?HLt, ?HEq;
    destruct c; cbn in *; rewrite ?HEq; reflexivity.
Qed.

(** X16: The complete [runtime.cpp]: on two [Number]s, two [String]s or two
    [Bool]s each of the six comparators returns, changes nothing, and
    answers as the order of the values says: that of the integers, the
    lexicographic order of strings by character code, [false < true].  In
    particular [Greater], written as [!(Less || Equal)], is the converse of
    [Less] there. *)
Theorem final_comparators_follow_the_order cmp lhs rhs st :
  (forall l r, TryAs_Number lhs = Some l -> TryAs_Number rhs = Some r ->
     compare Final Execute cmp lhs rhs st = (Ok (answer cmp (l ?= r)), st))
  /\ (forall l r, TryAs_String lhs = Some l -> TryAs_String rhs = Some r ->
        compare Final Execute cmp lhs rhs st
        = (Ok (answer cmp (String.compare l r)), st))
  /\ (forall l r, TryAs_Bool lhs = Some l -> TryAs_Bool rhs = Some r ->
        compare Final Execute cmp lhs rhs st
        = (Ok (answer cmp (Bool.compare l r)), st)).
Proof.
  split; [|split]; intros l r Hl Hr; apply final_compare_of_Equal_Less.
  - unfold runtime_final.Equal.
    rewrite (TryAs_Number_not_Bool _ _ Hl), Hl, Hr.
    rewrite Z.eqb_compare. destruct (l ?= r); reflexivity.
  - unfold runtime_final.Less.
    rewrite (TryAs_Number_not_Bool _ _ Hl), Hl, Hr.
    unfold Z.ltb. destruct (l ?= r); reflexivity.
  - unfold runtime_final.Equal.
    rewrite (TryAs_String_not_Bool _ _ Hl), (TryAs_String_not_Number _ _ Hl), Hl, Hr.
    rewrite string_eqb_compare. destruct (String.compare l r); reflexivity.
  - unfold runtime_final.Less.
    rewrite (TryAs_String_not_Bool _ _ Hl), (TryAs_String_not_Number _ _ Hl), Hl, Hr.
    unfold String.ltb. destruct (String.compare l r); reflexivity.
  - unfold runtime_final.Equal. rewrite Hl, Hr. destruct l, r; reflexivity.
  - unfold runtime_final.Less. rewrite Hl, Hr. destruct l, r; reflexivity.
Qed.

(** X17: Values of different primitive types, and the empty holder against a
    value, do not compare: [Equal] and [Less] throw, and with them the
    comparators written with them. *)
Theorem final_comparators_reject_mixed_types cmp lhs rhs st l r :
  TryAs_Number lhs = Some l ->
  TryAs_String rhs = Some r ->
  exists what,
    compare Final Execute cmp lhs rhs st = (Throw (runtime_error what), st)
    /\ compare Final Execute cmp rhs lhs st = (Throw (runtime_error what), st)
    /\ compare Final Execute cmp lhs ObjectHolder.None st
       = (Throw (runtime_error what), st).
Proof.
  intros Hl Hr.
  assert (HlB := TryAs_Number_not_Bool _ _ Hl).
  assert (HrB := TryAs_String_not_Bool _ _ Hr).
  assert (HrN := TryAs_String_not_Number _ _ Hr).
  assert (HlS : TryAs_String lhs = None) by (destruct lhs as [|[]|[]]; cbn in *; congruence).
  assert (HlI : TryAs_ClassInstance lhs = None) by (destruct lhs as [|[]|[]]; cbn in *; congruence).
  assert (HrI : TryAs_ClassInstance rhs = None) by (destruct rhs as [|[]|[]]; cbn in *; congruence).
  assert (Hlb : ObjectHolder.to_bool lhs = true) by (destruct lhs as [|[]|[]]; cbn in *; congruence).
  assert (Hrb : ObjectHolder.to_bool rhs = true) by (destruct rhs as [|[]|[]]; cbn in *; congruence).
  assert (HEq1 : runtime_final.Equal Execute lhs rhs st
                 = (Throw (runtime_error "Cannot compare objects for equality"), st)).
  { unfold runtime_final.Equal. rewrite HlB, Hl, HrN, HlS, HlI. cbn. rewrite Hlb. reflexivity. }
  assert (HEq2 : runtime_final.Equal Execute rhs lhs st
                 = (Throw (runtime_error "Cannot compare objects for equality"), st)).
  { unfold runtime_final.Equal. rewrite HrB, HrN, Hr, HlS, HrI. cbn. rewrite Hrb. reflexivity. }
  assert (HEq3 : runtime_final.Equal Execute lhs ObjectHolder.None st
                 = (Throw (runtime_error "Cannot compare objects for equality"), st)).
  { unfold runtime_final.Equal. rewrite HlB, Hl, HlS, HlI. cbn. rewrite Hlb. reflexivity. }
  assert (HLt1 : runtime_final.Less Execute lhs rhs st
                 = (Throw (runtime_error "Cannot compare objects for less"), st)).
  { unfold runtime_final.Less. rewrite HlB, Hl, HrN, HlS, HlI. reflexivity. }
  assert (HLt2 : runtime_final.Less Execute rhs lhs st
                 = (Throw (runtime_error "Cannot compare objects for less"), st)).
  { unfold runtime_final.Less. rewrite HrB, HrN, Hr, HlS, HrI. reflexivity. }
  assert (HLt3 : runtime_final.Less Execute lhs ObjectHolder.None st
                 = (Throw (runtime_error "Cannot compare objects for less"), st)).
  { unfold runtime_final.Less. rewrite HlB, Hl, HlS, HlI. reflexivity. }
  destruct cmp; cbn [compare];
    unfold runtime_final.NotEqual, runtime_final.LessOrEqual,
      runtime_final.GreaterOrEqual, runtime_final.Greater;
    unfold mbind, M_mbind, bind;
    rewrite ?HEq1, ?HEq2, ?HEq3, ?HLt1, ?HLt2, ?HLt3; eexists; repeat split.
Qed.

End PrimitiveComparisons.

(** ** Text *)

Section StringFacts.

Lemma append_assoc (a b c : string) : (a +:+ b) +:+ c = a +:+ (b +:+ c).
Proof.
  induction a as [|x a IH]; [reflexivity|].
  change (String.String x ((a +:+ b) +:+ c) = String.String x (a +:+ (b +:+ c))).
  f_equal. exact IH.
Qed.

Lemma append_nil_r (a : string) : a +:+ "" = a.
Proof.
  induction a as [|x a IH]; [reflexivity|].
  change (String.String x (a +:+ "") = String.String x a).
  f_equal. exact IH.
Qed.

Lemma append_nonempty (a b : string) : a <> "" -> a +:+ b <> "".
Proof. destruct a; [congruence|discriminate]. Qed.

Lemma concat_prefixed (ts : list string) t :
  String.concat "" (t :: ts) = t +:+ String.concat "" ts.
Proof. destruct ts; cbn; [rewrite append_nil_r|]; reflexivity. Qed.

(** [String.concat sep] puts [sep] in front of every text but the first. *)
Lemma concat_cons sep (t : string) texts :
  String.concat sep (t :: texts)
  = t +:+ String.concat "" (map (fun t0 => sep +:+ t0) texts).
Proof.
  revert t. induction texts as [|t' texts IH]; intros t.
  - cbn. rewrite append_nil_r. reflexivity.
  - change (String.concat sep (t :: t' :: texts))
      with (t +:+ sep +:+ String.concat sep (t' :: texts)).
    rewrite IH. cbn [map]. rewrite concat_prefixed, !append_assoc. reflexivity.
Qed.

End StringFacts.

(** ** What [print] writes *)

Section PrintFacts.

Import runtime ast print_vocabulary.

Variable u : Unit.
Variable n : nat.

Lemma Object_Print_text_of E P h o t (st : State) :
  ObjectHolder.Get h = Some o -> text_of h = Some t ->
  Object_Print u E P o st = (Ok t, st).
Proof.
  unfold text_of. intros -> Ht.
  unfold Object_Print, runtime_draft.Object_Print, runtime_final.Object_Print.
  destruct u; destruct o; try discriminate; injection Ht as <-; reflexivity.
Qed.

Lemma with_output_output (st : State) : with_output st (output st) = st.
Proof. destruct st; reflexivity. Qed.

(** The text the loop of [Print::Execute] adds for the arguments after the
    first: each value with a space in front. *)
Lemma Print_loop_rest closure (st : State) args : forall hs texts out,
  Forall2 (evaluates_to (Execute u n) closure st) args hs ->
  Forall2 (fun h t => text_of h = Some t) hs texts ->
  Print_loop u (Execute u n) (Print_object u n) args false closure (with_output st out)
  = (Ok tt, with_output st (out +:+ String.concat "" (map (fun t => " " +:+ t) texts))).
Proof.
  induction args as [|s args IH]; intros hs texts out Hargs Htexts.
  - inversion Hargs; subst. inversion Htexts; subst. cbn.
    rewrite append_nil_r. reflexivity.
  - inversion Hargs as [|? h ? hs' Hs Hargs']; subst.
    inversion Htexts as [|? t ? texts' Ht Htexts']; subst.
    cbn [Print_loop]. rewrite (bind_Ok _ _ _ _ _ (Hs out)).
    rewrite (bind_Ok (write_output " ") _ (with_output st out) tt
               (with_output st (out +:+ " "))) by reflexivity.
    assert (Hw : (match ObjectHolder.Get h with
                  | Some o => text ← Object_Print u (Execute u n) (Print_object u n) o;
                              write_output text
                  | None => write_output "None"
                  end) (with_output st (out +:+ " "))
                 = (Ok tt, with_output st ((out +:+ " ") +:+ t))).
    { destruct (ObjectHolder.Get h) as [o|] eqn:Ho.
      - rewrite (bind_Ok _ _ _ _ _
                   (Object_Print_text_of _ _ h o t _ Ho Ht)).
        reflexivity.
      - unfold text_of in Ht. rewrite Ho in Ht. injection Ht as <-. reflexivity. }
    rewrite (bind_Ok _ _ _ _ _ Hw).
    rewrite (IH hs' texts' _ Hargs' Htexts').
    f_equal. f_equal. cbn [map]. rewrite concat_prefixed, !append_assoc. reflexivity.
Qed.

(** X15: [Print::Execute] on arguments that evaluate to numbers, strings,
    booleans or empty holders: the texts of the values ([None] for the empty
    holder, [True] and [False] for booleans) are written in order, with one
    space between two of them and a newline at the end (for no argument, the
    newline alone); the result is the empty holder. *)
Theorem Print_writes_one_line args hs texts closure st :
  Forall2 (evaluates_to (Execute u n) closure st) args hs ->
  Forall2 (fun h t => text_of h = Some t) hs texts ->
  Execute u (S n) (Print args) closure st
  = (Ok ObjectHolder.None,
     with_output st (output st +:+ String.concat " " texts +:+ newline)).
Proof.
  intros Hargs Htexts. rewrite Execute_S. cbn [Execute_node]. unfold Print_Execute.
  assert (Hloop : Print_loop u (Execute u n) (Print_object u n) args true closure st
                  = (Ok tt, with_output st (output st +:+ String.concat " " texts))).
  { destruct Hargs as [|s h args hs Hs Hargs].
    - inversion Htexts; subst. cbn. rewrite append_nil_r, with_output_output.
      reflexivity.
    - inversion Htexts as [|? t ? texts' Ht Htexts']; subst.
      cbn [Print_loop]. specialize (Hs (output st)).
      rewrite with_output_output in Hs. rewrite (bind_Ok _ _ _ _ _ Hs).
      rewrite (bind_Ok (ret tt) _ st tt st) by reflexivity.
      assert (Hw : (match ObjectHolder.Get h with
                    | Some o => text ← Object_Print u (Execute u n) (Print_object u n) o;
                                write_output text
                    | None => write_output "None"
                    end) st
                   = (Ok tt, with_output st (output st +:+ t))).
      { destruct (ObjectHolder.Get h) as [o|] eqn:Ho.
        - rewrite (bind_Ok _ _ _ _ _ (Object_Print_text_of _ _ h o t _ Ho Ht)).
          reflexivity.
        - unfold text_of in Ht. rewrite Ho in Ht. injection Ht as <-. reflexivity. }
      rewrite (bind_Ok _ _ _ _ _ Hw).
      rewrite (Print_loop_rest closure st args hs texts' _ Hargs Htexts').
      rewrite concat_cons, append_assoc. reflexivity. }
  rewrite (bind_Ok _ _ _ _ _ Hloop).
  unfold mbind, M_mbind, bind, write_output, with_output, newline. cbn.
  rewrite append_assoc. reflexivity.
Qed.

End PrintFacts.

Section NameFacts.

Import runtime ast.

Lemma GetName_from ids : forall acc,
  acc <> "" ->
  fold_left
    (fun full_name id =>
       full_name +:+ (if String.eqb full_name "" then id else "." +:+ id))
    ids acc
  = acc +:+ String.concat "" (map (fun id => "." +:+ id) ids).
Proof.
  induction ids as [|id ids IH]; intros acc Hacc; cbn [fold_left map].
  - cbn. rewrite append_nil_r. reflexivity.
  - apply String.eqb_neq in Hacc as Hb. rewrite Hb.
    rewrite IH by (apply append_nonempty, Hacc).
    rewrite concat_prefixed, !append_assoc. reflexivity.
Qed.

(** [VariableValue::GetName] writes the identifiers with dots between them,
    provided the first one is not the empty string (after an empty first
    identifier the dot is left out). *)
Lemma GetName_dotted x ids :
  x <> "" -> GetName (x :: ids) = String.concat "." (x :: ids).
Proof.
  intros Hx. unfold GetName. cbn [fold_left]. cbn [String.eqb].
  change ("" +:+ x) with x. rewrite GetName_from by assumption.
  rewrite concat_cons. reflexivity.
Qed.

(** X11: [VariableValue::Execute] on a name whose first identifier the closure
    does not bind: a [runtime_error] whose message carries the whole dotted
    name, and nothing is changed. *)
Theorem VariableValue_unknown_name u n x ids closure (st : State) c :
  read_closure st closure = Some c ->
  c !! x = None ->
  x <> "" ->
  Execute u (S n) (VariableValue (x :: ids)) closure st
  = (Throw (runtime_error ("Uncknown variable name: " +:+ String.concat "." (x :: ids))),
     st).
Proof.
  intros Hc Hx Hne. rewrite Execute_S. cbn [Execute_node].
  unfold VariableValue_Execute. cbn [VariableValue_loop].
  unfold closure_get, mbind, M_mbind, bind. rewrite Hc, Hx.
  rewrite GetName_dotted by assumption. reflexivity.
Qed.

End NameFacts.
Section NodeExamples.

Import runtime ast runtime_vocabulary print_vocabulary examples
  constructor_examples object_examples.


(** The same for an instance whose class has no such method. *)
Example MethodCall_of_a_missing_method :
  Execute Final 2 (MethodCall (VariableValue ["p"]) "m" [VariableValue ["nope"]])
    (Frame 0) one_Point
  = (Ok ObjectHolder.None, one_Point).
Proof. vm_compute. reflexivity. Qed.

Lemma Return_leaves_the_method_witness :
  Execute Final 3
    (Compound ([VariableValue ["seven"]]
               ++ Return (VariableValue ["two"]) :: [VariableValue ["nope"]]))
    (Frame 0) numbers
  = (Throw (ReturnException (ObjectHolder.Own (Number 2))), numbers)
  /\ Execute Final 4
       (MethodBody
          (Compound ([VariableValue ["seven"]]
                     ++ Return (VariableValue ["two"]) :: [VariableValue ["nope"]])))
       (Frame 0) numbers
     = (Ok (ObjectHolder.Own (Number 2)), numbers).
Proof.
  apply (Return_leaves_the_method Final 1 [VariableValue ["seven"]]
           (VariableValue ["two"]) [VariableValue ["nope"]] (Frame 0)
           numbers numbers (ObjectHolder.Own (Number 2)) numbers);
    reflexivity.
Defined.




Lemma FieldAssignment_on_a_non_instance_witness :
  Execute Final 1 (FieldAssignment ["q"] "x" (VariableValue ["nope"])) (Frame 0) one_Point
  = (Throw out_of_range, one_Point)
  /\ Execute Final 1 (FieldAssignment ["v"] "x" (VariableValue ["nope"])) (Frame 0) one_Point
     = (Undefined, one_Point).
Proof.
  split.
  - exact (proj1 (FieldAssignment_on_a_non_instance Final 0 "q" [] "x"
                    (VariableValue ["nope"]) (Frame 0) one_Point _ eq_refl) eq_refl).
  - exact (proj2 (FieldAssignment_on_a_non_instance Final 0 "v" [] "x"
                    (VariableValue ["nope"]) (Frame 0) one_Point _ eq_refl)
             (ObjectHolder.Own (Number 5)) eq_refl eq_refl).
Defined.

Lemma FieldAssignment_sets_the_field_witness :
  let st2 :=
    write_closure one_Point (Fields 0)
      (<["y" := ObjectHolder.Own (Number 5)]> {[ "x" := ObjectHolder.Own (Number 1) ]}) in
  Execute Final 2 (FieldAssignment ["p"] "y" (VariableValue ["v"])) (Frame 0) one_Point
  = (Ok (ObjectHolder.Own (Number 5)), st2)
  /\ bound_in st2 (Fields 0) "y" = Some (ObjectHolder.Own (Number 5))
  /\ forall g, g <> "y" ->
       bound_in st2 (Fields 0) g
       = ({[ "x" := ObjectHolder.Own (Number 1) ]} : Closure) !! g.
Proof.
  exact (FieldAssignment_sets_the_field Final 1 "p" "y" (VariableValue ["v"])
           (Frame 0) one_Point _ (ObjectHolder.Own (ClassInstance_at 0)) 0%nat
           (ObjectHolder.Own (Number 5)) one_Point
           (mk_ClassInstance 0 {[ "x" := ObjectHolder.Own (Number 1) ]})
           0%nat _ "p"
           eq_refl eq_refl eq_refl eq_refl eq_refl eq_refl eq_refl).
Defined.

(** [p.y = Point()] after [p = Point()]: the self-name is still [p], so
    the right-hand side binds [p] to the instance it makes, at address 1;
    the instance at address 0 has lost its only owner, and the field is
    written through a pointer into it. *)
Example FieldAssignment_through_a_destroyed_instance :
  Execute Final 2 (FieldAssignment ["p"] "y" (NewInstance 0 [])) (Frame 0)
    (with_self_name one_Point "p")
  = (Undefined, Point_replaced)
  /\ Execute (Draft (fun _ => "p")) 2 (FieldAssignment ["p"] "y" (NewInstance 0 []))
       (Frame 0) (with_self_name one_Point "p")
     = (Undefined, Point_replaced)
  /\ alive Point_replaced [] 0%nat = false.
Proof. repeat split; vm_compute; reflexivity. Qed.

(** With a second owner of the instance the same assignment is defined: the
    field is set in the instance that [p] named before. *)
Example FieldAssignment_with_another_owner :
  Execute Final 2 (FieldAssignment ["p"] "y" (NewInstance 0 [])) (Frame 0) two_names
  = (Ok (ObjectHolder.Own (ClassInstance_at 1)), two_names_assigned).
Proof. vm_compute. reflexivity. Qed.

Lemma NewInstance_without_matching_init_witness :
  let st1 :=
    write_closure (with_instance A_and_B 0%nat 1%nat) (Frame 0)
      (<["x" := ObjectHolder.Own (ClassInstance_at 0)]>
         {[ "x" := ObjectHolder.Own (Number 1) ]}) in
  Execute Final 1 (NewInstance 1 [VariableValue ["nope"]]) (Frame 0) A_and_B
  = (Ok (ObjectHolder.Own (ClassInstance_at 0)), st1).
Proof.
  exact (NewInstance_without_matching_init Final 0 1%nat [VariableValue ["nope"]]
           (Frame 0) A_and_B _ eq_refl eq_refl).
Defined.

Lemma final_comparators_reject_mixed_types_witness :
  exists what,
    compare Final (Execute Final 0) LessOrEqual (ObjectHolder.Own (Number 1))
      (ObjectHolder.Own (String "1")) numbers
    = (Throw (runtime_error what), numbers)
    /\ compare Final (Execute Final 0) LessOrEqual (ObjectHolder.Own (String "1"))
         (ObjectHolder.Own (Number 1)) numbers
       = (Throw (runtime_error what), numbers)
    /\ compare Final (Execute Final 0) LessOrEqual (ObjectHolder.Own (Number 1))
         ObjectHolder.None numbers
       = (Throw (runtime_error what), numbers).
Proof.
  exact (final_comparators_reject_mixed_types (Execute Final 0) LessOrEqual
           (ObjectHolder.Own (Number 1)) (ObjectHolder.Own (String "1")) numbers
           1 "1" eq_refl eq_refl).
Defined.

Example final_comparators_on_numbers :
  compare Final (Execute Final 0) Greater (ObjectHolder.Own (Number 3))
    (ObjectHolder.Own (Number 2)) numbers = (Ok true, numbers)
  /\ compare Final (Execute Final 0) LessOrEqual (ObjectHolder.Own (String "ab"))
       (ObjectHolder.Own (String "b")) numbers = (Ok true, numbers).
Proof. split; vm_compute; reflexivity. Qed.

Lemma Print_writes_one_line_witness :
  Execute Final 2
    (Print [VariableValue ["seven"]; VariableValue ["minus_seven"]; VariableValue ["zero"]])
    (Frame 0) numbers
  = (Ok ObjectHolder.None,
     with_output numbers
       (output numbers +:+ String.concat " " ["7"; "-7"; "0"] +:+ newline)).
Proof.
  apply (Print_writes_one_line Final 1
           [VariableValue ["seven"]; VariableValue ["minus_seven"]; VariableValue ["zero"]]
           [ObjectHolder.Own (Number 7); ObjectHolder.Own (Number (-7));
            ObjectHolder.Own (Number 0)]
           ["7"; "-7"; "0"] (Frame 0) numbers).
  - repeat (constructor; [intros out; reflexivity|]). constructor.
  - repeat constructor.
Defined.

Lemma VariableValue_unknown_name_witness :
  Execute Final 1 (VariableValue ["a"; "b"; "c"]) (Frame 0) numbers
  = (Throw (runtime_error ("Uncknown variable name: " +:+ String.concat "." ["a"; "b"; "c"])),
     numbers).
Proof.
  apply (VariableValue_unknown_name Final 0 "a" ["b"; "c"] (Frame 0) numbers
           {[ "seven" := ObjectHolder.Own (Number 7);
              "two" := ObjectHolder.Own (Number 2);
              "minus_seven" := ObjectHolder.Own (Number (-7));
              "zero" := ObjectHolder.Own (Number 0) ]}).
  - reflexivity.
  - reflexivity.
  - discriminate.
Defined.

Example callers_locals_after_a_call :
  frames (Call Final (Execute Final 4) 0%nat "get" [ObjectHolder.Own (Number 7)]
            one_Getter).2
  = frames one_Getter.
Proof. vm_compute. reflexivity. Qed.

End NodeExamples.

(** ** String literals, identifiers, blank lines *)

Section StringLiterals.

Import stream parse lexer_vocabulary literal_vocabulary.

Lemma quote_not_special q :
  quote q ->
  Ascii.eqb backslash q = false
  /\ Ascii.eqb "n" q = false /\ Ascii.eqb "t" q = false /\ Ascii.eqb "r" q = false.
Proof. intros [->| ->]; repeat split. Qed.

(** The loop of [ReadString] over an escaped text: the text is read back. *)
Lemma ReadString_loop_escaped q text : forall tail acc taken,
  quote q ->
  ReadString_loop (escaped text ++ tail) q acc taken
  = ReadString_loop tail q (rev text ++ acc) (taken + length (escaped text)).
Proof.
  induction text as [|c text IH]; intros tail acc taken Hq.
  - cbn. rewrite Nat.add_0_r. reflexivity.
  - unfold escaped in *. cbn [flat_map rev]. rewrite <- !app_assoc, length_app.
    cbn [app]. set (r := flat_map escape text) in *. clearbody r. unfold escape.
    destruct (Ascii.eqb_spec c "010") as [->|Hnl];
      [|destruct (Ascii.eqb_spec c tab) as [->|Htab];
        [|destruct (Ascii.eqb_spec c carriage_return) as [->|Hcr];
          [|destruct (Ascii.eqb_spec c double_quote) as [->|Hdq];
            [|destruct (Ascii.eqb_spec c single_quote) as [->|Hsq];
              [|destruct (Ascii.eqb_spec c backslash) as [->|Hbs]]]]]].
    1-6: cbn [app length ReadString_loop];
         destruct Hq as [->| ->]; cbn;
         rewrite IH by (first [left; reflexivity|right; reflexivity]).
    1-12: f_equal; try reflexivity; lia.
    cbn [app length ReadString_loop].
    assert (Ascii.eqb c q = false) as ->.
    { apply Ascii.eqb_neq. destruct Hq as [->| ->]; assumption. }
    assert (Ascii.eqb c "\" = false) as -> by (apply Ascii.eqb_neq; exact Hbs).
    assert (Ascii.eqb c "010" = false) as -> by (apply Ascii.eqb_neq; exact Hnl).
    assert (Ascii.eqb c "013" = false) as -> by (apply Ascii.eqb_neq; exact Hcr).
    cbn [orb]. rewrite IH by assumption. f_equal; try reflexivity; lia.
Qed.

(** X20: [ReadString] reads back any text written with the escape sequences:
    for every text, whatever characters it holds, the literal that consists
    of the escaped text and the closing quote gives one [String] token with
    exactly that text, and leaves the stream behind the closing quote, its
    state flags untouched. *)
Theorem ReadString_reads_back_escaped_text q text rest line cons e f :
  quote q ->
  ReadString line (mk_istream cons (escaped text ++ q :: rest) e f) q
  = Ok (emplace_back line (token_type.String (string_of_list_ascii text)),
        mk_istream (q :: rev (escaped text) ++ cons) rest e f).
Proof.
  intros Hq.
  assert (Hloop : ReadString_loop (escaped text ++ q :: rest) q [] 0
                  = Ok (rev text, length (escaped text ++ [q]))).
  { rewrite ReadString_loop_escaped by assumption.
    cbn [ReadString_loop]. rewrite Ascii.eqb_refl, app_nil_r, length_app.
    cbn [length]. do 2 f_equal. lia. }
  unfold ReadString. cbn [remaining]. rewrite Hloop.
  change (Ok (rev text, length (escaped text ++ [q])) ≫= _)
    with (@Ok LexException _
            (emplace_back line (token_type.String (string_of_list_ascii (rev (rev text)))),
             Nat.iter (length (escaped text ++ [q])) buf_advance
               (mk_istream cons (escaped text ++ q :: rest) e f))).
  replace (escaped text ++ q :: rest) with ((escaped text ++ [q]) ++ rest)
    by (rewrite <- app_assoc; reflexivity).
  rewrite iter_buf_advance, rev_app_distr, rev_involutive. reflexivity.
Qed.

(** X21: The errors of [ReadString], wherever in the literal they occur: the
    input ends before the closing quote, also right behind a backslash; the
    line ends inside the literal; a backslash is followed by a character
    that has no escape sequence. *)
Theorem ReadString_errors q text line cons e f :
  quote q ->
  ReadString line (mk_istream cons (escaped text) e f) q
  = Throw (LexerError "String parsing error")
  /\ ReadString line (mk_istream cons (escaped text ++ [backslash]) e f) q
     = Throw (LexerError "String parsing error")
  /\ (forall c rest,
        c = "010"%char \/ c = carriage_return ->
        ReadString line (mk_istream cons (escaped text ++ c :: rest) e f) q
        = Throw (LexerError "Unexpected end of line"))
  /\ (forall c rest,
        escape_letter c = false ->
        ReadString line (mk_istream cons (escaped text ++ backslash :: c :: rest) e f) q
        = Throw (LexerError ("Unrecognized escape sequence \"
                             +:+ String.String c EmptyString))).
Proof.
  intros Hq. unfold ReadString. cbn [remaining].
  split; [|split; [|split]].
  - rewrite <- (app_nil_r (escaped text)).
    rewrite ReadString_loop_escaped by assumption. reflexivity.
  - rewrite ReadString_loop_escaped by assumption.
    cbn [ReadString_loop]. destruct Hq as [->| ->]; reflexivity.
  - intros c rest Hc. rewrite ReadString_loop_escaped by assumption.
    cbn [ReadString_loop]. destruct Hc as [->| ->]; destruct Hq as [->| ->]; reflexivity.
  - intros c rest Hc. rewrite ReadString_loop_escaped by assumption.
    cbn [ReadString_loop].
    destruct (quote_not_special q Hq) as (-> & _). rewrite Ascii.eqb_refl.
    unfold escape_letter in Hc.
    repeat (apply orb_false_iff in Hc as [Hc ?]).
    unfold double_quote, single_quote, backslash in *.
    repeat match goal with H : Ascii.eqb _ _ = false |- _ => rewrite H; clear H end.
    reflexivity.
Qed.

End StringLiterals.

Section Identifiers.

Import stream parse lexer_vocabulary literal_vocabulary.

(** The twelve reserved words, and no other word, give a keyword token;
    every other word gives an [Id] token that carries the word. *)
Lemma keyword_or_id_spec s :
  (s ∈ keywords -> is_keyword_token (keyword_or_id s) = true)
  /\ (s ∉ keywords -> keyword_or_id s = token_type.Id s).
Proof.
  unfold keyword_or_id, keywords. split.
  - intros Hin.
    repeat (apply elem_of_cons in Hin as [->|Hin]; [reflexivity|]).
    inversion Hin.
  - intros Hnot.
    repeat match goal with
           | |- context [String.eqb s ?k] =>
               destruct (String.eqb_spec s k) as [->|?];
               [exfalso; apply Hnot; set_solver|]
           end.
    reflexivity.
Qed.

(** X22: [ReadIdentifier] takes the longest run of letters, digits and
    underscores: after the first character [first] it reads the characters
    [ds] up to the first one that cannot be part of a word, which it leaves
    in the stream (the end of the input stops it too).  The word read gives
    one token: the keyword token if it is a reserved word, [Id] with the
    word otherwise. *)
Theorem ReadIdentifier_takes_the_longest_word line cons first ds rest :
  Forall (fun c => word_char c = true) ds ->
  stops word_char rest ->
  let w := string_of_list_ascii (first :: ds) in
  ReadIdentifier line (good_stream cons (ds ++ rest)) first
  = (emplace_back line (keyword_or_id w), after_unget (rev ds ++ cons) rest)
  /\ (w ∈ keywords -> is_keyword_token (keyword_or_id w) = true)
  /\ (w ∉ keywords -> keyword_or_id w = token_type.Id w).
Proof.
  intros Hds Hstop w. split; [|apply keyword_or_id_spec].
  unfold ReadIdentifier. cbn [remaining good_stream].
  change (fun c => isalpha c || Ascii.eqb c "_" || isdigit c) with word_char.
  rewrite (read_while_run word_char ds) by (auto; rewrite length_app; lia).
  rewrite unget_after_loop. reflexivity.
Qed.

Lemma ReadIdentifier_takes_the_longest_word_witness :
  let w := string_of_list_ascii ("c"%char :: chars "lasses") in
  ReadIdentifier (mk_TextLine 0 []) (good_stream ["c"%char] (chars "lasses" ++ chars " = 1")) "c"%char
  = (emplace_back (mk_TextLine 0 []) (keyword_or_id w),
     after_unget (rev (chars "lasses") ++ ["c"%char]) (chars " = 1"))
  /\ (w ∈ keywords -> is_keyword_token (keyword_or_id w) = true)
  /\ (w ∉ keywords -> keyword_or_id w = token_type.Id w).
Proof.
  apply (ReadIdentifier_takes_the_longest_word (mk_TextLine 0 []) ["c"%char] "c"%char
           (chars "lasses") (chars " = 1")).
  - repeat constructor.
  - reflexivity.
Defined.

Example class_and_classes :
  tokenize (chars "class classes")
  = Ok [token_type.Class; token_type.Id "classes"; token_type.Newline; token_type.Eof].
Proof. vm_compute. reflexivity. Qed.

End Identifiers.

Section StringLiteralExamples.

Import stream parse lexer_vocabulary literal_vocabulary.

Lemma ReadString_reads_back_escaped_text_witness :
  ReadString (mk_TextLine 0 []) 
    (mk_istream [double_quote]
       (escaped [ "a"%char; double_quote; "010"%char; backslash ]
        ++ double_quote :: chars " + x") false false)
    double_quote
  = Ok (emplace_back (mk_TextLine 0 [])
          (token_type.String
             (string_of_list_ascii [ "a"%char; double_quote; "010"%char; backslash ])),
        mk_istream
          (double_quote
           :: rev (escaped [ "a"%char; double_quote; "010"%char; backslash ])
           ++ [double_quote])
          (chars " + x") false false).
Proof.
  apply (ReadString_reads_back_escaped_text double_quote
           [ "a"%char; double_quote; "010"%char; backslash ] (chars " + x")
           (mk_TextLine 0 []) [double_quote] false false).
  left. reflexivity.
Defined.

Lemma ReadString_errors_witness :
  ReadString (mk_TextLine 0 []) (mk_istream [single_quote] (escaped (chars "ab")) false false)
    single_quote
  = Throw (LexerError "String parsing error")
  /\ ReadString (mk_TextLine 0 [])
       (mk_istream [single_quote] (escaped (chars "ab") ++ [backslash]) false false)
       single_quote
     = Throw (LexerError "String parsing error")
  /\ (forall c rest,
        c = "010"%char \/ c = carriage_return ->
        ReadString (mk_TextLine 0 [])
          (mk_istream [single_quote] (escaped (chars "ab") ++ c :: rest) false false)
          single_quote
        = Throw (LexerError "Unexpected end of line"))
  /\ (forall c rest,
        escape_letter c = false ->
        ReadString (mk_TextLine 0 [])
          (mk_istream [single_quote]
             (escaped (chars "ab") ++ backslash :: c :: rest) false false)
          single_quote
        = Throw (LexerError ("Unrecognized escape sequence \"
                             +:+ String.String c EmptyString))).
Proof.
  apply (ReadString_errors single_quote (chars "ab") (mk_TextLine 0 [])
           [single_quote] false false).
  right. reflexivity.
Defined.

Example string_literal_tokens :
  tokenize (chars "'it\'s' " ++ [double_quote] ++ chars "a\tb" ++ [double_quote])
  = Ok [token_type.String "it's";
        token_type.String (string_of_list_ascii [ "a"%char; tab; "b"%char ]);
        token_type.Newline; token_type.Eof]
  /\ tokenize (chars "x = 'abc") = Throw (LexerError "String parsing error")
  /\ tokenize (chars "x = 'a\qc'") = Throw (LexerError "Unrecognized escape sequence \q").
Proof. repeat split; vm_compute; reflexivity. Qed.

End StringLiteralExamples.
Section BlankLines.

Import stream parse lexer_vocabulary newline_vocabulary.

Lemma ReadLine_loop_at_newline fuel line cons rest :
  ReadLine_loop (S fuel) line (good_stream cons (nl :: rest))
  = Ok (emplace_back line token_type.Newline, good_stream (nl :: cons) rest).
Proof. reflexivity. Qed.

Lemma SkipComment_loop_end cs : forall fuel cons,
  Forall (fun c => Ascii.eqb c nl = false) cs ->
  (length cs < fuel)%nat ->
  SkipComment_loop fuel (good_stream cons cs)
  = mk_istream (rev cs ++ cons) [] true true.
Proof.
  induction cs as [|c cs IH]; intros fuel cons Hcs Hfuel.
  - destruct fuel; reflexivity.
  - destruct fuel as [|fuel]; [cbn in Hfuel; lia|].
    inversion Hcs as [|? ? Hc Hcs']; subst.
    cbn [SkipComment_loop]. unfold good_stream at 1. cbn [get good eofbit failbit orb negb remaining consumed].
    change (mk_istream (c :: cons) cs false false) with (good_stream (c :: cons) cs).
    assert (Hne : c <> nl) by (apply Ascii.eqb_neq, Hc).
    destruct c as [[] [] [] [] [] [] [] []]; try (exfalso; apply Hne; reflexivity);
      cbn [eof eofbit good_stream];
      rewrite IH by (try assumption; cbn in Hfuel; lia);
      cbn [rev]; rewrite <- app_assoc; reflexivity.
Qed.

Lemma last_line_blank cons spaces :
  Forall (fun c => c = " "%char) spaces ->
  ReadLine (good_stream cons spaces)
  = Ok (mk_TextLine (Z.of_nat (length spaces)) [token_type.Eof],
        mk_istream (rev spaces ++ cons) [] false true).
Proof.
  intros Hspaces.
  assert (Hsp : Forall (fun c => Ascii.eqb c " " = true) spaces).
  { eapply Forall_impl; [exact Hspaces|]. intros c ->. reflexivity. }
  unfold ReadLine, SkipSpaces. cbn [remaining good_stream].
  rewrite <- (app_nil_r spaces) at 2.
  rewrite SkipSpaces_loop_run by (auto; cbn; lia).
  reflexivity.
Qed.

Lemma last_line_comment cons spaces comment :
  Forall (fun c => c = " "%char) spaces ->
  Forall (fun c => c <> nl) comment ->
  ReadLine (good_stream cons (spaces ++ "#"%char :: comment))
  = Ok (mk_TextLine (Z.of_nat (length spaces)) [token_type.Eof],
        mk_istream (rev comment ++ "#"%char :: rev spaces ++ cons) [] false true).
Proof.
  intros Hspaces Hcomment.
  assert (Hsp : Forall (fun c => Ascii.eqb c " " = true) spaces).
  { eapply Forall_impl; [exact Hspaces|]. intros c ->. reflexivity. }
  assert (Hcm : Forall (fun c => Ascii.eqb c nl = false) comment).
  { eapply Forall_impl; [exact Hcomment|]. intros c Hc. apply Ascii.eqb_neq, Hc. }
  unfold ReadLine, SkipSpaces. cbn [remaining good_stream].
  rewrite SkipSpaces_loop_run by (auto; rewrite ?length_app; cbn; lia).
  cbn [after_loop]. 
  change (unget (good_stream ("#"%char :: ?c) ?r)) with (good_stream c ("#"%char :: r)).
  cbn [remaining good_stream length].
  cbn [ReadLine_loop]. rewrite get_good_cons.
  change (ReadLine_body ?l (Some "#"%char) ?s) with (@Ok LexException _ (l, SkipComment s)).
  unfold SkipComment. cbn [remaining good_stream].
  rewrite SkipComment_loop_end by (auto; lia).
  reflexivity.
Qed.


(** [NextToken] reading a last line that holds nothing but [Eof] and has
    an odd indent. *)
Lemma NextToken_odd_last_line s tokens pos cur k s' :
  ReadLine s = Ok (mk_TextLine (Z.of_nat (2 * k + 1)) [token_type.Eof], s') ->
  pos + 1 = Z.of_nat (length tokens) ->
  is_Eof (List.last tokens token_type.None) = false ->
  NextToken (mk_Lexer s tokens pos cur) = Throw (LexerError "Bad indent size.").
Proof.
  intros Hread Hpos Hlast. unfold NextToken. cbn [curr_pos_ lexer_tokens_ in_].
  apply Z.eqb_eq in Hpos. rewrite Hpos, Hlast, andb_false_r.
  cbn [next_line]. rewrite Hread. cbn [mbind Outcome_mbind Outcome_bind IsEmpty tokens_ forallb is_Newline andb indent_].
  replace (Z.rem (Z.of_nat (2 * k + 1)) 2) with 1; [reflexivity|].
  rewrite Z.rem_mod_nonneg by lia.
  replace (Z.of_nat (2 * k + 1)) with (1 + Z.of_nat k * 2) by lia.
  rewrite Z.mod_add by lia. reflexivity.
Qed.

(** X23: Blank lines and lines that hold only a comment.  One that ends
    with a newline is skipped: [ReadLine] returns a line whose only token is
    [Newline] and leaves the stream at the start of the next line; such a
    line [IsEmpty], so that [NextToken] reads on, and its indent, even or
    odd, is never looked at.  One that is the last line of the input and
    not ended by a newline is not skipped: [ReadLine] returns a line whose
    only token is [Eof], which is not [IsEmpty]; [NextToken] looks at its
    indent, and throws if it is odd. *)
Theorem blank_and_comment_lines_are_skipped cons spaces comment rest :
  Forall (fun c => c = " "%char) spaces ->
  Forall (fun c => c <> nl) comment ->
  let blank := mk_TextLine (Z.of_nat (length spaces)) [token_type.Newline] in
  let after_blank := good_stream (nl :: rev spaces ++ cons) rest in
  let after_comment :=
    good_stream (nl :: rev comment ++ "#"%char :: rev spaces ++ cons) rest in
  let last := mk_TextLine (Z.of_nat (length spaces)) [token_type.Eof] in
  let end_of_blank := mk_istream (rev spaces ++ cons) [] false true in
  let end_of_comment :=
    mk_istream (rev comment ++ "#"%char :: rev spaces ++ cons) [] false true in
  (IsEmpty blank = true
   /\ ReadLine (good_stream cons (spaces ++ nl :: rest)) = Ok (blank, after_blank)
   /\ ReadLine (good_stream cons (spaces ++ "#"%char :: comment ++ nl :: rest))
      = Ok (blank, after_comment)
   /\ (forall fuel,
         next_line (S fuel) (good_stream cons (spaces ++ nl :: rest))
         = next_line fuel after_blank)
   /\ (forall fuel,
         next_line (S fuel)
           (good_stream cons (spaces ++ "#"%char :: comment ++ nl :: rest))
         = next_line fuel after_comment))
  /\ (IsEmpty last = false
      /\ ReadLine (good_stream cons spaces) = Ok (last, end_of_blank)
      /\ ReadLine (good_stream cons (spaces ++ "#"%char :: comment))
         = Ok (last, end_of_comment)
      /\ (forall k tokens pos cur,
            length spaces = (2 * k + 1)%nat ->
            pos + 1 = Z.of_nat (length tokens) ->
            is_Eof (List.last tokens token_type.None) = false ->
            NextToken (mk_Lexer (good_stream cons spaces) tokens pos cur)
            = Throw (LexerError "Bad indent size.")
            /\ NextToken
                 (mk_Lexer (good_stream cons (spaces ++ "#"%char :: comment))
                    tokens pos cur)
               = Throw (LexerError "Bad indent size."))).
Proof.
  intros Hspaces Hcomment blank after_blank after_comment last end_of_blank
    end_of_comment.
  assert (Hsp : Forall (fun c => Ascii.eqb c " " = true) spaces).
  { eapply Forall_impl; [exact Hspaces|]. intros c ->. reflexivity. }
  assert (Hcm : Forall (fun c => Ascii.eqb c nl = false) comment).
  { eapply Forall_impl; [exact Hcomment|]. intros c Hc. apply Ascii.eqb_neq, Hc. }
  assert (Hskip : forall tail, stops (fun c => Ascii.eqb c " ") tail ->
            SkipSpaces (good_stream cons (spaces ++ tail))
            = (Z.of_nat (length spaces), after_unget (rev spaces ++ cons) tail)).
  { intros tail Htail. unfold SkipSpaces. cbn [remaining good_stream].
    rewrite SkipSpaces_loop_run by (auto; rewrite length_app; lia).
    rewrite unget_after_loop. reflexivity. }
  assert (H1 : ReadLine (good_stream cons (spaces ++ nl :: rest)) = Ok (blank, after_blank)).
  { unfold ReadLine. rewrite Hskip by reflexivity.
    cbn [after_unget remaining good_stream].
    apply ReadLine_loop_at_newline. }
  assert (H2 : ReadLine (good_stream cons (spaces ++ "#"%char :: comment ++ nl :: rest))
               = Ok (blank, after_comment)).
  { unfold ReadLine. rewrite Hskip by reflexivity.
    cbn [after_unget remaining good_stream length].
    cbn [ReadLine_loop]. rewrite get_good_cons.
    change (ReadLine_body ?l (Some "#"%char) ?s) with (@Ok LexException _ (l, SkipComment s)).
    unfold SkipComment. cbn [remaining good_stream].
    rewrite SkipComment_loop_run by (auto; rewrite length_app; cbn; lia).
    change (unget (good_stream (nl :: ?c) ?r)) with (good_stream c (nl :: r)).
    cbn [mbind Outcome_mbind Outcome_bind ends_line].
    change (Ascii.eqb "#" "010") with false. cbn iota.
    reflexivity. }
  assert (H3 := last_line_blank cons spaces Hspaces).
  assert (H4 := last_line_comment cons spaces comment Hspaces Hcomment).
  split.
  - split; [reflexivity|]. split; [exact H1|]. split; [exact H2|].
    split; intros fuel; cbn [next_line]; [rewrite H1|rewrite H2]; reflexivity.
  - split; [reflexivity|]. split; [exact H3|]. split; [exact H4|].
    intros k tokens pos cur Hodd Hpos Hlast. rewrite Hodd in H3, H4. split.
    + exact (NextToken_odd_last_line _ tokens pos cur k _ H3 Hpos Hlast).
    + exact (NextToken_odd_last_line _ tokens pos cur k _ H4 Hpos Hlast).
Qed.

Lemma blank_and_comment_lines_are_skipped_witness :
  let blank := mk_TextLine (Z.of_nat (length (chars "   "))) [token_type.Newline] in
  let after_blank := good_stream (nl :: rev (chars "   ") ++ []) (chars "x") in
  let after_comment :=
    good_stream (nl :: rev (chars " note") ++ "#"%char :: rev (chars "   ") ++ [])
      (chars "x") in
  let last := mk_TextLine (Z.of_nat (length (chars "   "))) [token_type.Eof] in
  let end_of_blank := mk_istream (rev (chars "   ") ++ []) [] false true in
  let end_of_comment :=
    mk_istream (rev (chars " note") ++ "#"%char :: rev (chars "   ") ++ []) []
      false true in
  (IsEmpty blank = true
   /\ ReadLine (good_stream [] (chars "   " ++ nl :: chars "x")) = Ok (blank, after_blank)
   /\ ReadLine (good_stream [] (chars "   " ++ "#"%char :: chars " note" ++ nl :: chars "x"))
      = Ok (blank, after_comment)
   /\ (forall fuel,
         next_line (S fuel) (good_stream [] (chars "   " ++ nl :: chars "x"))
         = next_line fuel after_blank)
   /\ (forall fuel,
         next_line (S fuel)
           (good_stream [] (chars "   " ++ "#"%char :: chars " note" ++ nl :: chars "x"))
         = next_line fuel after_comment))
  /\ (IsEmpty last = false
      /\ ReadLine (good_stream [] (chars "   ")) = Ok (last, end_of_blank)
      /\ ReadLine (good_stream [] (chars "   " ++ "#"%char :: chars " note"))
         = Ok (last, end_of_comment)
      /\ (forall k tokens pos cur,
            length (chars "   ") = (2 * k + 1)%nat ->
            pos + 1 = Z.of_nat (length tokens) ->
            is_Eof (List.last tokens token_type.None) = false ->
            NextToken (mk_Lexer (good_stream [] (chars "   ")) tokens pos cur)
            = Throw (LexerError "Bad indent size.")
            /\ NextToken
                 (mk_Lexer (good_stream [] (chars "   " ++ "#"%char :: chars " note"))
                    tokens pos cur)
               = Throw (LexerError "Bad indent size."))).
Proof.
  apply (blank_and_comment_lines_are_skipped [] (chars "   ") (chars " note") (chars "x")).
  - repeat constructor.
  - repeat (constructor; [discriminate|]). constructor.
Defined.

(** The same three spaces, with and without a newline behind them, at the
    end of an input. *)
Example odd_indent_of_a_blank_last_line :
  tokenize (chars "x" ++ [nl] ++ chars "   " ++ [nl])
  = Ok [token_type.Id "x"; token_type.Newline; token_type.Eof]
  /\ tokenize (chars "x" ++ [nl] ++ chars "   ")
     = Throw (LexerError "Bad indent size.")
  /\ tokenize (chars "x" ++ [nl] ++ chars "   # three spaces")
     = Throw (LexerError "Bad indent size.").
Proof. repeat split; vm_compute; reflexivity. Qed.

Example odd_indent_of_a_comment_line :
  tokenize (chars "x" ++ [nl] ++ chars "   # three spaces" ++ [nl] ++ chars "y" ++ [nl])
  = Ok [token_type.Id "x"; token_type.Newline; token_type.Id "y"; token_type.Newline;
        token_type.Eof]
  /\ tokenize (chars "x" ++ [nl] ++ chars "   y" ++ [nl])
     = Throw (LexerError "Bad indent size.").
Proof. split; vm_compute; reflexivity. Qed.

End BlankLines.
(** ** The token sequence is made of logical lines *)

Section LineForm.

Import stream parse lexer_vocabulary indent_vocabulary newline_vocabulary
  line_vocabulary.

Lemma keyword_or_id_plain s : plain (keyword_or_id s) = true.
Proof.
  unfold keyword_or_id.
  repeat match goal with |- context [if ?b then _ else _] => destruct b end;
    reflexivity.
Qed.

Lemma emplace_back_plain line t :
  Forall (fun t => plain t = true) (tokens_ line) ->
  plain t = true ->
  Forall (fun t => plain t = true) (tokens_ (emplace_back line t)).
Proof. intros H Ht. cbn. apply Forall_app. split; [exact H|repeat constructor; exact Ht]. Qed.

Lemma plain_line_IsEmpty line :
  Forall (fun t => plain t = true) (tokens_ line) ->
  IsEmpty line = bool_decide (tokens_ line = []).
Proof.
  unfold IsEmpty. destruct (tokens_ line) as [|t ts]; [reflexivity|].
  intros H. inversion H as [|? ? Ht _]; subst.
  cbn. destruct t; cbn in Ht; try discriminate; reflexivity.
Qed.

Lemma plain_last_not_Newline ts d :
  Forall (fun t => plain t = true) ts -> ts <> [] ->
  is_Newline (List.last ts d) = false.
Proof.
  intros H Hne. destruct ts as [|t ts] using rev_ind; [congruence|].
  rewrite last_snoc. apply Forall_app in H as [_ H].
  inversion H as [|? ? Ht _]; subst.
  destruct t; cbn in Ht; try discriminate; reflexivity.
Qed.

(** One turn of the loop of [ReadLine]: a newline appends [Newline]; any
    other character appends at most a token of the text; the end of the
    input appends [Eof], after a [Newline] if the line has a token. *)
Lemma ReadLine_body_form line ch s line' s' :
  ReadLine_body line ch s = Ok (line', s') ->
  Forall (fun t => plain t = true) (tokens_ line) ->
  match ch with
  | Some c =>
      if Ascii.eqb c nl then tokens_ line' = tokens_ line ++ [token_type.Newline]
      else Forall (fun t => plain t = true) (tokens_ line')
  | None =>
      (tokens_ line = [] /\ tokens_ line' = [token_type.Eof])
      \/ (tokens_ line <> []
          /\ tokens_ line' = tokens_ line ++ [token_type.Newline; token_type.Eof])
  end.
Proof.
  intros Hbody Hline. unfold ReadLine_body in Hbody.
  destruct ch as [c|].
  - destruct (Ascii.eqb_spec c nl) as [->|Hc].
    + cbn in Hbody. injection Hbody as <- <-. reflexivity.
    + apply Ascii.eqb_neq in Hc. change nl with "010"%char in Hc.
      rewrite Hc in Hbody.
      repeat match type of Hbody with
             | (if ?b then _ else _) = _ => destruct b
             end.
      * injection Hbody as <- <-. auto.
      * injection Hbody as <- <-. auto.
      * unfold ReadString in Hbody.
        destruct (ReadString_loop (remaining s) c [] 0) as [[txt taken]| | |];
          cbn in Hbody; try discriminate.
        injection Hbody as <- <-. apply emplace_back_plain; auto.
      * unfold ReadNumber in Hbody.
        destruct (read_while isdigit (S (length (remaining s))) s [c]) as [digits s1].
        destruct (stoi digits) as [v| | |]; cbn in Hbody; try discriminate.
        injection Hbody as <- <-. apply emplace_back_plain; auto.
      * unfold ReadIdentifier in Hbody.
        destruct (read_while _ (S (length (remaining s))) s [c]) as [name s1].
        injection Hbody as <- <-.
        apply emplace_back_plain; [assumption|apply keyword_or_id_plain].
      * destruct (peek s) as [next s1].
        assert (Hchar : Forall (fun t => plain t = true)
                          (tokens_ (emplace_back line (token_type.Char c))))
          by (apply emplace_back_plain; auto).
        assert (Hcmp : Forall (fun t => plain t = true)
                         (tokens_ (ReadComparison line s1 c).1)).
        { unfold ReadComparison.
          repeat match goal with |- context [if ?b then _ else _] => destruct b end;
            cbn [fst]; try (apply emplace_back_plain; auto); assumption. }
        destruct next as [[[] [] [] [] [] [] [] []]|];
          injection Hbody as <- <-; auto.
      * injection Hbody as <- <-. apply emplace_back_plain; auto.
  - injection Hbody as <- <-.
    rewrite (plain_line_IsEmpty line Hline).
    destruct (tokens_ line) as [|t ts] eqn:Hts.
    + left. cbn. rewrite Hts. auto.
    + right. split; [discriminate|].
      rewrite bool_decide_eq_false_2 by discriminate.
      rewrite <- Hts.
      rewrite (plain_last_not_Newline (tokens_ line)) by (rewrite ?Hts; auto; discriminate).
      cbn. rewrite <- app_assoc. reflexivity.
Qed.

(** The tokens of a line as [ReadLine] returns it: the tokens [body] of
    its text and [Newline]; or, when the input ends on the line, [Eof]
    alone if the line has no text, and [body], [Newline], [Eof] if it has. *)
Lemma ReadLine_loop_form fuel : forall line s line' s',
  ReadLine_loop fuel line s = Ok (line', s') ->
  Forall (fun t => plain t = true) (tokens_ line) ->
  exists body,
    Forall (fun t => plain t = true) body
    /\ (tokens_ line' = body ++ [token_type.Newline]
        \/ (body = [] /\ tokens_ line' = [token_type.Eof])
        \/ (body <> []
            /\ tokens_ line' = body ++ [token_type.Newline; token_type.Eof])).
Proof.
  induction fuel as [|fuel IH]; intros line s line' s' Hloop Hline;
    cbn [ReadLine_loop] in Hloop; [discriminate|].
  destruct (get s) as [ch s1].
  destruct (ReadLine_body line ch s1) as [[line1 s2]| | |] eqn:Hbody;
    cbn in Hloop; try discriminate.
  assert (Hform := ReadLine_body_form _ _ _ _ _ Hbody Hline).
  destruct ch as [c|]; cbn [ends_line] in Hloop.
  - change "010"%char with nl in Hloop. destruct (Ascii.eqb c nl).
    + injection Hloop as <- <-. exists (tokens_ line). auto.
    + exact (IH _ _ _ _ Hloop Hform).
  - injection Hloop as <- <-. exists (tokens_ line).
    split; [assumption|]. right. exact Hform.
Qed.

Lemma next_line_form fuel : forall s line s',
  next_line fuel s = Ok (line, s') ->
  exists body,
    Forall (fun t => plain t = true) body
    /\ ((body <> [] /\ tokens_ line = body ++ [token_type.Newline])
        \/ (body = [] /\ tokens_ line = [token_type.Eof])
        \/ (body <> []
            /\ tokens_ line = body ++ [token_type.Newline; token_type.Eof])).
Proof.
  induction fuel as [|fuel IH]; intros s line s' H; cbn [next_line] in H;
    [discriminate|].
  destruct (ReadLine s) as [[line1 s1]| | |] eqn:Hread; cbn in H; try discriminate.
  destruct (IsEmpty line1) eqn:Hempty.
  - eapply IH; eassumption.
  - injection H as <- <-. unfold ReadLine in Hread.
    destruct (SkipSpaces s) as [indent s0].
    apply ReadLine_loop_form in Hread as (body & Hbody & Hform); [|constructor].
    exists body. split; [assumption|].
    destruct Hform as [Hform|Hform]; [|auto].
    left. split; [|assumption]. intros ->.
    unfold IsEmpty in Hempty. rewrite Hform in Hempty. discriminate.
Qed.

Lemma emit_all (P : Token -> Prop) k t : P t -> Forall P (emit k t).
Proof. intros Ht. unfold emit. induction (Z.to_nat k); constructor; assumption. Qed.

(** What [NextToken] puts in front of the tokens of a line: [Indent]
    tokens, or [Dedent] tokens, never both; in front of a line that holds
    only [Eof], [Dedent] tokens. *)
Lemma line_tokens_prefix_form cur line :
  exists prefix,
    (line_tokens cur line).1 = prefix ++ tokens_ line
    /\ (Forall (fun t => is_Indent t = true) prefix
        \/ Forall (fun t => is_Dedent t = true) prefix)
    /\ (IsEofOnly line = true -> Forall (fun t => is_Dedent t = true) prefix).
Proof.
  unfold line_tokens. destruct (IsEofOnly line); cbn [negb andb].
  - destruct (0 <? cur); cbn [fst]; eexists; (split; [reflexivity|]);
      cbn [app]; (split; [right|intros _]);
      first [apply emit_all; reflexivity|constructor].
  - destruct (cur <? indent_ line) eqn:Hlt.
    + rewrite Z.ltb_irrefl. cbn [fst]. eexists. split; [reflexivity|].
      split; [left; apply emit_all; reflexivity|discriminate].
    + destruct (indent_ line <? cur); cbn [fst]; eexists;
        (split; [reflexivity|]); cbn [app];
        (split; [right|discriminate]);
        first [apply emit_all; reflexivity|constructor].
Qed.

Lemma NextToken_lines_step lx t lx' :
  NextToken lx = Ok (t, lx') ->
  indent_invariant lx ->
  -1 <= curr_pos_ lx ->
  lines_invariant lx ->
  lines_invariant lx'.
Proof.
  intros Hnext Hinv Hpos Hlines. unfold NextToken in Hnext.
  destruct (curr_pos_ lx + 1 =? Z.of_nat (length (lexer_tokens_ lx))).
  - destruct (negb (bool_decide (lexer_tokens_ lx = []))
              && is_Eof (List.last (lexer_tokens_ lx) token_type.None)) eqn:HEof.
    + injection Hnext as <- <-. assumption.
    + destruct (next_line (S (length (remaining (in_ lx)))) (in_ lx))
        as [[line s1]| | |] eqn:Hline; cbn in Hnext; try discriminate.
      destruct (Z.rem (indent_ line) 2 =? 0); cbn in Hnext; [|discriminate].
      destruct (line_tokens (current_indent_ lx) line) as [new cur] eqn:Hlt.
      destruct (at_ (lexer_tokens_ lx ++ new) (curr_pos_ lx + 1)) as [t1| | |];
        cbn in Hnext; try discriminate.
      injection Hnext as <- <-.
      assert (Hlast : forall pre, lexer_tokens_ lx <> pre ++ [token_type.Eof]).
      { intros pre Hpre. rewrite Hpre in HEof. rewrite last_snoc in HEof.
        cbn in HEof. rewrite andb_true_r in HEof. apply negb_false_iff in HEof.
        apply bool_decide_eq_true in HEof. destruct pre; discriminate. }
      destruct Hlines as [Hll|(lines & ds & Hts & _)].
      2:{ destruct (Hlast (lines ++ ds)). rewrite Hts, app_assoc. reflexivity. }
      destruct (line_tokens_prefix_form (current_indent_ lx) line)
        as (prefix & Hprefix & Hform & HEofOnly).
      rewrite Hlt in Hprefix. cbn [fst] in Hprefix. subst new.
      destruct (next_line_form _ _ _ _ Hline)
        as (body & Hbody & [[Hne Htok]|[[-> Htok]|[Hne Htok]]]); cbn.
      * left. rewrite Htok. constructor; assumption.
      * right. exists (lexer_tokens_ lx), prefix. rewrite Htok.
        split; [reflexivity|]. split; [assumption|].
        apply HEofOnly. unfold IsEofOnly. rewrite Htok. reflexivity.
      * right. exists (lexer_tokens_ lx ++ prefix ++ body ++ [token_type.Newline]), [].
        rewrite Htok. split.
        -- rewrite <- !app_assoc. reflexivity.
        -- split; [constructor; assumption|constructor].
  - destruct (at_ (lexer_tokens_ lx) (curr_pos_ lx + 1)) as [t1| | |];
      cbn in Hnext; try discriminate.
    injection Hnext as <- <-. exact Hlines.
Qed.

(** X24: The grammar of the token sequence, for every input the lexer reads to
    [Eof]: logical lines, then [Dedent] tokens, then one [Eof].  A logical
    line is a run of [Indent] tokens or of [Dedent] tokens (or neither), at
    least one token of the text, and [Newline].  So [Newline] never comes
    first in a line nor follows another [Newline], [Indent] and [Dedent]
    only occur at the start of a line (or before [Eof]), every line of the
    program is ended by [Newline], and [Eof] is the last token. *)
Theorem tokens_are_logical_lines input ts :
  tokenize input = Ok ts ->
  program_shape ts.
Proof.
  intros H.
  destruct (tokenize_invariant lines_invariant input ts NextToken_lines_step)
    as (lx' & _ & Hlines & -> & pre & Hpre); [left; constructor|assumption|].
  destruct Hlines as [Hll|Hshape]; [|exact Hshape].
  exfalso. rewrite Hpre in Hll. clear -Hll.
  remember (pre ++ [token_type.Eof]) as ts eqn:Hts.
  destruct Hll as [|ts0 prefix body _ _ _ _].
  - destruct pre; discriminate.
  - rewrite !app_assoc in Hts. apply app_inj_tail in Hts as [_ Hts]. discriminate.
Qed.

Lemma tokens_are_logical_lines_witness :
  program_shape
    [token_type.If; token_type.Id "a"; token_type.Char ":"%char;
     token_type.Newline; token_type.Indent; token_type.Indent;
     token_type.Id "x"; token_type.Newline;
     token_type.Dedent; token_type.Dedent; token_type.Eof].
Proof.
  apply (tokens_are_logical_lines (chars "if a:" ++ [nl] ++ chars "    x" ++ [nl])).
  vm_compute. reflexivity.
Defined.

End LineForm.
(** ** The lexer always comes to a result *)

Section Progress.

Import stream parse lexer_vocabulary indent_vocabulary progress_vocabulary.

Lemma get_left s :
  match (get s).1 with
  | Some _ => S (left (get s).2) = left s /\ failbit (get s).2 = false
              /\ consumed (get s).2 <> []
  | None => (left (get s).2 <= left s)%nat /\ failbit (get s).2 = true
  end.
Proof.
  unfold get, left. destruct (good s).
  - destruct (remaining s) as [|c r]; cbn; repeat split; auto; discriminate.
  - cbn. auto.
Qed.

Lemma unget_after_get s : (left (unget (get s).2) <= left s)%nat.
Proof.
  assert (H := get_left s). destruct (get s) as [[c|] s1]; cbn in *.
  - destruct H as (Hl & Hf & Hc). unfold unget. rewrite Hf.
    destruct (consumed s1); [congruence|]. unfold left in *. cbn. lia.
  - destruct H as (Hl & Hf). unfold unget. rewrite Hf. exact Hl.
Qed.

Lemma get_left_le s : (left (get s).2 <= left s)%nat.
Proof.
  assert (H := get_left s). destruct (get s) as [[c|] s1]; cbn in *; lia.
Qed.

Lemma SkipSpaces_loop_left fuel : forall s n,
  (left (unget (SkipSpaces_loop fuel s n).2) <= left s)%nat.
Proof.
  induction fuel as [|fuel IH]; intros s n; cbn [SkipSpaces_loop];
    assert (Hu := unget_after_get s); assert (Hg := get_left_le s);
    destruct (get s) as [[c|] s1]; cbn [fst snd] in *; try exact Hu.
  - destruct c as [[] [] [] [] [] [] [] []]; exact Hu.
  - destruct c as [[] [] [] [] [] [] [] []]; try exact Hu.
    specialize (IH s1 (n + 1)). lia.
Qed.

Lemma SkipSpaces_left s : (left (SkipSpaces s).2 <= left s)%nat.
Proof.
  unfold SkipSpaces.
  assert (H := SkipSpaces_loop_left (S (length (remaining s))) s 0).
  destruct (SkipSpaces_loop (S (length (remaining s))) s 0). exact H.
Qed.

Lemma SkipComment_loop_left fuel : forall s,
  (left (unget (SkipComment_loop fuel s)) <= left s)%nat.
Proof.
  induction fuel as [|fuel IH]; intros s; cbn [SkipComment_loop];
    assert (Hu := unget_after_get s); assert (Hg := get_left_le s);
    destruct (get s) as [[c|] s1]; cbn [fst snd] in *.
  - destruct c as [[] [] [] [] [] [] [] []]; exact Hu.
  - exact Hu.
  - destruct c as [[] [] [] [] [] [] [] []];
      try exact Hu; (destruct (eof s1); [exact Hu|specialize (IH s1); lia]).
  - destruct (eof s1); [exact Hu|specialize (IH s1); lia].
Qed.

Lemma SkipComment_left s : (left (SkipComment s) <= left s)%nat.
Proof. apply SkipComment_loop_left. Qed.

Lemma read_while_left p fuel : forall s acc,
  (left (unget (read_while p fuel s acc).2) <= left s)%nat.
Proof.
  induction fuel as [|fuel IH]; intros s acc; cbn [read_while];
    assert (Hu := unget_after_get s); assert (Hg := get_left_le s);
    destruct (get s) as [[c|] s1]; cbn [fst snd] in *; try exact Hu.
  destruct (ok s1 && p c); [|exact Hu].
  specialize (IH s1 (acc ++ [c])). lia.
Qed.

Lemma buf_advance_left k : forall s, (left (Nat.iter k buf_advance s) <= left s)%nat.
Proof.
  induction k as [|k IH]; intros s; [reflexivity|].
  rewrite Nat.iter_succ_r. etransitivity; [apply IH|].
  unfold buf_advance, left. destruct s as [cons [|c r] e f]; cbn; lia.
Qed.

Lemma peek_left s : left (peek s).2 = left s.
Proof.
  unfold peek, left. destruct (good s); [|reflexivity].
  destruct s as [cons [|c r] e f]; reflexivity.
Qed.

Lemma ReadString_loop_returns_or_throws q n : forall buf acc taken,
  length buf = n ->
  returns_or_throws (ReadString_loop buf q acc taken).
Proof.
  induction n as [n IH] using lt_wf_ind. intros buf acc taken Hlen.
  destruct buf as [|c buf]; cbn [ReadString_loop].
  { right. eexists. reflexivity. }
  destruct (Ascii.eqb c q); [left; eexists; reflexivity|].
  destruct (Ascii.eqb c "\").
  - destruct buf as [|x buf]; [right; eexists; reflexivity|].
    cbn in Hlen.
    repeat match goal with
           | |- returns_or_throws (if ?b then _ else _) => destruct b
           end;
      try (apply (IH (length buf)); [lia|reflexivity]).
    right. eexists. reflexivity.
  - destruct (_ || _); [right; eexists; reflexivity|].
    cbn in Hlen. apply (IH (length buf)); [lia|reflexivity].
Qed.

Lemma ReadLine_body_returns_or_throws line ch s :
  returns_or_throws (ReadLine_body line ch s).
Proof.
  unfold ReadLine_body. destruct ch as [c|]; [|left; eexists; reflexivity].
  repeat match goal with
         | |- returns_or_throws (if ?b then _ else _) => destruct b
         end;
    try (left; eexists; reflexivity).
  - unfold ReadString.
    destruct (ReadString_loop_returns_or_throws c _ (remaining s) [] 0%nat eq_refl)
      as [[[txt taken] ->]|[e ->]]; [left|right]; eexists; reflexivity.
  - unfold ReadNumber.
    destruct (read_while isdigit (S (length (remaining s))) s [c]) as [digits s1].
    unfold stoi. destruct (_ <=? _); [left|right]; eexists; reflexivity.
  - destruct (peek s) as [next s1].
    destruct next as [[[] [] [] [] [] [] [] []]|]; left; eexists; reflexivity.
Qed.

(** One turn of the loop of [ReadLine] gives no character back beyond the
    one it was called with. *)
Lemma ReadLine_body_left line ch s line' s' :
  ReadLine_body line ch s = Ok (line', s') -> (left s' <= left s)%nat.
Proof.
  unfold ReadLine_body. intros Hbody. destruct ch as [c|].
  - repeat match type of Hbody with
           | (if ?b then _ else _) = _ => destruct b
           end.
    + injection Hbody as _ <-. apply SkipSpaces_left.
    + injection Hbody as _ <-. apply SkipComment_left.
    + injection Hbody as _ <-. reflexivity.
    + unfold ReadString in Hbody.
      destruct (ReadString_loop (remaining s) c [] 0) as [[txt taken]| | |];
        cbn in Hbody; try discriminate.
      injection Hbody as _ <-. apply buf_advance_left.
    + unfold ReadNumber in Hbody.
      assert (H := read_while_left isdigit (S (length (remaining s))) s [c]).
      destruct (read_while isdigit (S (length (remaining s))) s [c]) as [digits s1].
      destruct (stoi digits) as [v| | |]; cbn in Hbody; try discriminate.
      injection Hbody as _ <-. exact H.
    + unfold ReadIdentifier in Hbody.
      match type of Hbody with
      | context [read_while ?p ?fuel s [c]] =>
          assert (H := read_while_left p fuel s [c]);
          destruct (read_while p fuel s [c]) as [name s1]
      end.
      injection Hbody as _ <-. exact H.
    + assert (Hp := peek_left s). destruct (peek s) as [next s1]. cbn in Hp.
      assert (Hg := get_left_le s1).
      destruct next as [[[] [] [] [] [] [] [] []]|];
        injection Hbody as _ <-; cbn [snd ReadComparison]; lia.
    + injection Hbody as _ <-. reflexivity.
  - injection Hbody as _ <-. reflexivity.
Qed.

(** [ReadLine]'s loop comes to an end before the characters do.  The line
    it returns has taken at least one character from the stream, unless it
    ends with [Eof]. *)
Lemma ReadLine_loop_progress fuel : forall line s,
  (left s < fuel)%nat ->
  (exists line' s',
     ReadLine_loop fuel line s = Ok (line', s')
     /\ (left s' <= left s)%nat
     /\ ((left s' < left s)%nat
         \/ exists pre, tokens_ line' = pre ++ [token_type.Eof]))
  \/ exists e, ReadLine_loop fuel line s = Throw e.
Proof.
  induction fuel as [|fuel IH]; intros line s Hfuel; [lia|].
  cbn [ReadLine_loop].
  assert (Hg := get_left s). destruct (get s) as [ch s1]. cbn [fst snd] in Hg.
  destruct (ReadLine_body_returns_or_throws line ch s1) as [[[line1 s2] Hbody]|[e Hbody]];
    rewrite Hbody; [|right; exists e; reflexivity].
  assert (Hl := ReadLine_body_left _ _ _ _ _ Hbody). cbn.
  destruct ch as [c|]; cbn [ends_line].
  - destruct Hg as (Hg & _). destruct (Ascii.eqb c "010").
    + left. exists line1, s2. split; [reflexivity|]. split; [lia|]. left. lia.
    + destruct (IH line1 s2 ltac:(lia)) as [(line' & s' & -> & Hle & _)|[e ->]].
      * left. exists line', s'. split; [reflexivity|]. split; [lia|]. left. lia.
      * right. exists e. reflexivity.
  - left. exists line1, s2. split; [reflexivity|]. split; [lia|]. right.
    unfold ReadLine_body in Hbody. injection Hbody as <- _. cbn. eauto.
Qed.

Lemma ReadLine_progress s :
  (exists line s',
     ReadLine s = Ok (line, s')
     /\ (left s' <= left s)%nat
     /\ ((left s' < left s)%nat
         \/ exists pre, tokens_ line = pre ++ [token_type.Eof]))
  \/ exists e, ReadLine s = Throw e.
Proof.
  unfold ReadLine. assert (Hs := SkipSpaces_left s).
  destruct (SkipSpaces s) as [indent s1]. cbn in Hs.
  destruct (ReadLine_loop_progress (S (length (remaining s1))) (mk_TextLine indent []) s1)
    as [(line & s' & -> & Hle & Hprog)|[e ->]]; [unfold left; lia| |].
  - left. exists line, s'. split; [reflexivity|]. split; [lia|].
    destruct Hprog; [left; lia|right; assumption].
  - right. exists e. reflexivity.
Qed.

Lemma Eof_line_not_empty line pre :
  tokens_ line = pre ++ [token_type.Eof] -> IsEmpty line = false.
Proof.
  intros H. unfold IsEmpty. rewrite H.
  assert (Hf : forallb is_Newline (pre ++ [token_type.Eof]) = false)
    by (rewrite forallb_app; cbn; apply andb_false_r).
  destruct (pre ++ [token_type.Eof]) eqn:E; [destruct pre; discriminate|exact Hf].
Qed.

Lemma next_line_progress fuel : forall s,
  (left s < fuel)%nat ->
  (exists line s', next_line fuel s = Ok (line, s') /\ (left s' <= left s)%nat)
  \/ exists e, next_line fuel s = Throw e.
Proof.
  induction fuel as [|fuel IH]; intros s Hfuel; [lia|].
  cbn [next_line].
  destruct (ReadLine_progress s) as [(line & s1 & -> & Hle & Hprog)|[e ->]];
    [|right; exists e; reflexivity].
  cbn. destruct (IsEmpty line) eqn:Hempty.
  - destruct Hprog as [Hlt|[pre Hpre]].
    + destruct (IH s1 ltac:(lia)) as [(line' & s' & -> & Hle')|[e ->]].
      * left. exists line', s'. split; [reflexivity|lia].
      * right. exists e. reflexivity.
    + rewrite (Eof_line_not_empty line pre Hpre) in Hempty. discriminate.
  - left. exists line, s1. split; [reflexivity|assumption].
Qed.

Lemma at_returns_or_throws ts pos : returns_or_throws (at_ ts pos).
Proof.
  unfold at_. destruct (pos <? 0); [right; eexists; reflexivity|].
  destruct (ts !! Z.to_nat pos); [left|right]; eexists; reflexivity.
Qed.

Lemma NextToken_progress lx : returns_or_throws (NextToken lx).
Proof.
  unfold NextToken.
  destruct (curr_pos_ lx + 1 =? Z.of_nat (length (lexer_tokens_ lx))).
  - destruct (_ && _); [left; eexists; reflexivity|].
    destruct (next_line_progress (S (length (remaining (in_ lx)))) (in_ lx))
      as [(line & s1 & -> & _)|[e ->]]; [unfold left; lia| |right; exists e; reflexivity].
    cbn. destruct (negb _); [right; eexists; reflexivity|].
    destruct (line_tokens (current_indent_ lx) line) as [new cur].
    destruct (at_returns_or_throws (lexer_tokens_ lx ++ new) (curr_pos_ lx + 1))
      as [[t ->]|[e ->]]; [left|right]; eexists; reflexivity.
  - destruct (at_returns_or_throws (lexer_tokens_ lx) (curr_pos_ lx + 1))
      as [[t ->]|[e ->]]; [left|right]; eexists; reflexivity.
Qed.

(** X25: [Lexer::NextToken] comes to a result on every state of the lexer and of
    its stream: it returns a token or throws ([LexerError], or
    [std::out_of_range] from [stoi] and [at]).  Its loops end because every
    turn of the loop of [ReadLine] takes a character from the stream and
    every blank line a newline; the bounds on these loops in the embedding
    are never reached. *)
Theorem NextToken_returns_or_throws lx : returns_or_throws (NextToken lx).
Proof. apply NextToken_progress. Qed.

End Progress.
(** ** The number of tokens *)

Section TokenCount.

Import stream parse lexer_vocabulary indent_vocabulary progress_vocabulary
  count_vocabulary.

Lemma SkipSpaces_loop_cost fuel : forall s n,
  (SkipSpaces_loop fuel s n).1 - n
  + Z.of_nat (left (unget (SkipSpaces_loop fuel s n).2))
  <= Z.of_nat (left s).
Proof.
  induction fuel as [|fuel IH]; intros s n; cbn [SkipSpaces_loop];
    assert (Hu := unget_after_get s); assert (Hg := get_left s);
    destruct (get s) as [[c|] s1]; cbn [fst snd] in *; try lia.
  - destruct c as [[] [] [] [] [] [] [] []]; cbn [fst snd]; lia.
  - destruct c as [[] [] [] [] [] [] [] []]; cbn [fst snd]; try lia.
    specialize (IH s1 (n + 1)). lia.
Qed.

Lemma SkipSpaces_cost s :
  (SkipSpaces s).1 + Z.of_nat (left (SkipSpaces s).2) <= Z.of_nat (left s).
Proof.
  unfold SkipSpaces.
  assert (H := SkipSpaces_loop_cost (S (length (remaining s))) s 0).
  destruct (SkipSpaces_loop (S (length (remaining s))) s 0). cbn in *. lia.
Qed.

(** One turn of the loop of [ReadLine] appends at most one token for a
    character, at most two at the end of the input. *)
Lemma ReadLine_body_count line ch s line' s' :
  ReadLine_body line ch s = Ok (line', s') ->
  indent_ line' = indent_ line
  /\ (length (tokens_ line') <= length (tokens_ line)
                                + match ch with Some _ => 1 | None => 2 end)%nat
  /\ (ch = None -> ends_with_Eof (tokens_ line') = true).
Proof.
  unfold ReadLine_body. intros Hbody. destruct ch as [c|].
  - split; [|split; [|discriminate]];
    repeat match type of Hbody with
           | (if ?b then _ else _) = _ => destruct b
           end;
    try (injection Hbody as <- _; cbn; rewrite ?length_app; cbn; (reflexivity || lia)).
    all: try (unfold ReadString in Hbody;
              destruct (ReadString_loop (remaining s) c [] 0) as [[txt taken]| | |];
              cbn in Hbody; try discriminate;
              injection Hbody as <- _; cbn; rewrite ?length_app; cbn; (reflexivity || lia)).
    all: try (unfold ReadNumber in Hbody;
              destruct (read_while isdigit (S (length (remaining s))) s [c]) as [digits s1];
              destruct (stoi digits) as [v| | |]; cbn in Hbody; try discriminate;
              injection Hbody as <- _; cbn; rewrite ?length_app; cbn; (reflexivity || lia)).
    all: try (unfold ReadIdentifier in Hbody;
              match type of Hbody with
              | context [read_while ?p ?fuel ?s0 ?acc] =>
                  destruct (read_while p fuel s0 acc) as [name s1]
              end;
              injection Hbody as <- _; cbn; rewrite ?length_app; cbn; (reflexivity || lia)).
    all: destruct (peek s) as [next s1];
      destruct next as [[[] [] [] [] [] [] [] []]|];
      injection Hbody as <- _; unfold ReadComparison; cbn [fst];
      repeat match goal with |- context [if ?b then _ else _] => destruct b end;
      cbn; rewrite ?length_app; cbn; (reflexivity || lia).
  - injection Hbody as <- _.
    split; [destruct (_ && _); reflexivity|].
    split; [|intros _; unfold ends_with_Eof; cbn; rewrite last_snoc; reflexivity].
    destruct (_ && _); cbn; rewrite ?length_app; cbn; lia.
Qed.

Lemma ReadLine_loop_cost fuel : forall line s line' s',
  ReadLine_loop fuel line s = Ok (line', s') ->
  indent_ line' = indent_ line
  /\ Z.of_nat (length (tokens_ line')) + Z.of_nat (left s')
     <= Z.of_nat (length (tokens_ line)) + Z.of_nat (left s)
        + (if ends_with_Eof (tokens_ line') then 2 else 0).
Proof.
  induction fuel as [|fuel IH]; intros line s line' s' Hloop;
    cbn [ReadLine_loop] in Hloop; [discriminate|].
  assert (Hg := get_left s). destruct (get s) as [ch s1]. cbn [fst snd] in Hg.
  destruct (ReadLine_body line ch s1) as [[line1 s2]| | |] eqn:Hbody;
    cbn in Hloop; try discriminate.
  assert (Hl := ReadLine_body_left _ _ _ _ _ Hbody).
  destruct (ReadLine_body_count _ _ _ _ _ Hbody) as (Hind & Hcount & HEof).
  destruct ch as [c|]; cbn [ends_line] in Hloop.
  - destruct Hg as (Hg & _). destruct (Ascii.eqb c "010").
    + injection Hloop as <- <-. split; [assumption|].
      destruct (ends_with_Eof (tokens_ line1)); lia.
    + destruct (IH _ _ _ _ Hloop) as [Hind' Hcost]. split; [congruence|].
      destruct (ends_with_Eof (tokens_ line')); lia.
  - injection Hloop as <- <-. split; [assumption|].
    rewrite (HEof eq_refl). lia.
Qed.

Lemma ReadLine_cost s line s' :
  ReadLine s = Ok (line, s') ->
  indent_ line + Z.of_nat (length (tokens_ line)) + Z.of_nat (left s')
  <= Z.of_nat (left s) + (if ends_with_Eof (tokens_ line) then 2 else 0).
Proof.
  unfold ReadLine. intros H. assert (Hs := SkipSpaces_cost s).
  destruct (SkipSpaces s) as [indent s1]. cbn [fst snd] in Hs.
  apply ReadLine_loop_cost in H as [Hind Hcost]. cbn in Hind, Hcost.
  rewrite Hind. destruct (ends_with_Eof (tokens_ line)); lia.
Qed.

Lemma next_line_cost fuel : forall s line s',
  next_line fuel s = Ok (line, s') ->
  indent_ line + Z.of_nat (length (tokens_ line)) + Z.of_nat (left s')
  <= Z.of_nat (left s) + (if ends_with_Eof (tokens_ line) then 2 else 0).
Proof.
  induction fuel as [|fuel IH]; intros s line s' H; cbn [next_line] in H;
    [discriminate|].
  destruct (ReadLine_progress s) as [(line1 & s1 & Hread & Hle & _)|[e Hread]];
    rewrite Hread in H; cbn in H; [|discriminate].
  destruct (IsEmpty line1).
  - specialize (IH _ _ _ H). destruct (ends_with_Eof (tokens_ line)); lia.
  - injection H as <- <-. apply (ReadLine_cost _ _ _ Hread).
Qed.

Lemma length_emit n t : 0 <= n -> Z.of_nat (length (emit n t)) = n.
Proof. intros Hn. unfold emit. rewrite length_replicate. lia. Qed.

(** The [Indent] and [Dedent] tokens put in front of a line are paid for
    by the spaces of its indent. *)
Lemma line_tokens_cost cur line :
  0 <= cur -> Z.rem cur 2 = 0 ->
  0 <= indent_ line -> Z.rem (indent_ line) 2 = 0 ->
  0 <= (line_tokens cur line).2
  /\ Z.of_nat (length (line_tokens cur line).1) + Z.quot (line_tokens cur line).2 2
     <= Z.quot cur 2 + Z.of_nat (length (tokens_ line)) + indent_ line.
Proof.
  intros Hcur Hcur2 Hind Hind2.
  assert (Hq := Z.quot_pos cur 2 Hcur ltac:(lia)).
  assert (Hqi := Z.quot_pos (indent_ line) 2 Hind ltac:(lia)).
  assert (Hc := even_quot cur Hcur2). assert (Hi := even_quot _ Hind2).
  unfold line_tokens. destruct (IsEofOnly line); cbn [negb andb].
  - destruct (0 <? cur) eqn:Hpos; cbn [fst snd]; (split; [assumption|]);
      rewrite ?length_app, ?Nat2Z.inj_add, ?length_emit by assumption; cbn [length]; lia.
  - destruct (cur <? indent_ line) eqn:Hlt.
    + apply Z.ltb_lt in Hlt. rewrite Z.ltb_irrefl. cbn [fst snd].
      split; [assumption|].
      rewrite length_app, Nat2Z.inj_add, length_emit
        by (rewrite quot_sub_even by assumption; lia).
      rewrite quot_sub_even by assumption. lia.
    + apply Z.ltb_ge in Hlt. destruct (indent_ line <? cur) eqn:Hgt; cbn [fst snd].
      * apply Z.ltb_lt in Hgt. split; [assumption|].
        rewrite !length_app, !Nat2Z.inj_add, length_emit
          by (rewrite quot_sub_even by assumption; lia).
        rewrite quot_sub_even by assumption. cbn [length]. lia.
      * split; [assumption|]. cbn [app]. lia.
Qed.

Lemma ends_with_Eof_app ts new :
  new <> [] -> ends_with_Eof (ts ++ new) = ends_with_Eof new.
Proof.
  intros Hne. unfold ends_with_Eof.
  destruct new as [|t new] using rev_ind; [congruence|].
  rewrite app_assoc, !last_snoc. reflexivity.
Qed.

Lemma NextToken_count_step len lx t lx' :
  NextToken lx = Ok (t, lx') ->
  indent_invariant lx ->
  -1 <= curr_pos_ lx ->
  count_invariant len lx ->
  count_invariant len lx'.
Proof.
  intros Hnext Hinv Hpos [Hcur Hcount]. unfold NextToken in Hnext.
  destruct (curr_pos_ lx + 1 =? Z.of_nat (length (lexer_tokens_ lx))).
  - destruct (negb (bool_decide (lexer_tokens_ lx = []))
              && is_Eof (List.last (lexer_tokens_ lx) token_type.None)) eqn:HEof.
    + injection Hnext as <- <-. split; assumption.
    + destruct (next_line (S (length (remaining (in_ lx)))) (in_ lx))
        as [[line s1]| | |] eqn:Hline; cbn in Hnext; try discriminate.
      destruct (Z.rem (indent_ line) 2 =? 0) eqn:Heven; cbn in Hnext;
        [|discriminate].
      apply Z.eqb_eq in Heven.
      destruct (line_tokens (current_indent_ lx) line) as [new cur] eqn:Hlt.
      destruct (at_ (lexer_tokens_ lx ++ new) (curr_pos_ lx + 1)) as [t1| | |];
        cbn in Hnext; try discriminate.
      injection Hnext as <- <-.
      assert (HnoEof : ends_with_Eof (lexer_tokens_ lx) = false).
      { unfold ends_with_Eof. destruct (lexer_tokens_ lx) as [|t0 ts0] eqn:Hts;
          [reflexivity|].
        rewrite bool_decide_eq_false_2 in HEof by discriminate. exact HEof. }
      rewrite HnoEof in Hcount.
      destruct Hinv as [(_ & _ & Hcur2 & _)|(_ & _ & _ & (pre & Hpre & _) & _)].
      2:{ rewrite Hpre in HnoEof. unfold ends_with_Eof in HnoEof.
          rewrite last_snoc in HnoEof. discriminate. }
      destruct (next_line_shape _ _ _ _ Hline) as (Hind & Hshape & Hempty).
      assert (Hcost := next_line_cost _ _ _ _ Hline).
      destruct (line_tokens_cost (current_indent_ lx) line Hcur Hcur2 Hind Heven)
        as [Hcur' Hlc].
      destruct (line_tokens_prefix (current_indent_ lx) line) as (prefix & Hprefix & _).
      rewrite Hlt in Hcur', Hlc, Hprefix. cbn [fst snd] in Hcur', Hlc, Hprefix.
      assert (Hne : tokens_ line <> []).
      { intros Hnil. unfold IsEmpty in Hempty. rewrite Hnil in Hempty. discriminate. }
      split; [exact Hcur'|]. cbn [lexer_tokens_ current_indent_ in_].
      rewrite Hprefix, app_assoc, ends_with_Eof_app by assumption.
      rewrite <- app_assoc, <- Hprefix, length_app, Nat2Z.inj_add.
      unfold left in *. destruct (ends_with_Eof (tokens_ line)); lia.
  - destruct (at_ (lexer_tokens_ lx) (curr_pos_ lx + 1)) as [t1| | |];
      cbn in Hnext; try discriminate.
    injection Hnext as <- <-. split; assumption.
Qed.

(** X27: The lexer never makes more tokens than the input has characters, plus
    two: every token of the text and every [Newline] takes at least one
    character, every [Indent] and the [Dedent] that answers it two spaces,
    and only the [Newline] and the [Eof] at the end of the input take
    none. *)
Theorem token_count_bound input ts :
  tokenize input = Ok ts ->
  (length ts <= length input + 2)%nat.
Proof.
  intros H.
  destruct (tokenize_invariant (count_invariant (length input)) input ts
              (NextToken_count_step (length input)))
    as (lx' & _ & [Hcur Hcount] & -> & _); [|assumption|].
  - split; cbn; [lia|]. unfold left. cbn. change (Z.quot 0 2) with 0. lia.
  - assert (Hq := Z.quot_pos (current_indent_ lx') 2 Hcur ltac:(lia)).
    destruct (ends_with_Eof (lexer_tokens_ lx')); lia.
Qed.

Lemma token_count_bound_witness :
  (length [token_type.Id "x"; token_type.Newline; token_type.Eof]
   <= length (chars "x") + 2)%nat.
Proof.
  apply (token_count_bound (chars "x")). vm_compute. reflexivity.
Defined.

Lemma drain_progress len fuel : forall lx seen,
  indent_invariant lx ->
  count_invariant len lx ->
  0 <= curr_pos_ lx ->
  (Z.to_nat (curr_pos_ lx) < length (lexer_tokens_ lx))%nat ->
  Z.of_nat len + 2 - curr_pos_ lx <= Z.of_nat fuel ->
  returns_or_throws (drain fuel lx seen).
Proof.
  induction fuel as [|fuel IH]; intros lx seen Hinv Hcount Hpos Hlt Hfuel.
  - exfalso. destruct Hcount as [Hcur Hcount].
    assert (Hq := Z.quot_pos (current_indent_ lx) 2 Hcur ltac:(lia)).
    destruct (ends_with_Eof (lexer_tokens_ lx)); lia.
  - cbn [drain]. unfold CurrentToken, at_.
    destruct (curr_pos_ lx <? 0) eqn:Hneg; [apply Z.ltb_lt in Hneg; lia|].
    destruct (lookup_lt_is_Some_2 _ _ Hlt) as [t Ht]. rewrite Ht. cbn.
    destruct (is_Eof t) eqn:HEof; [left; eexists; reflexivity|].
    destruct (NextToken_progress lx) as [[[t1 lx1] Hnext]|[e Hnext]];
      rewrite Hnext; cbn; [|right; exists e; reflexivity].
    assert (Hcount1 := NextToken_count_step len _ _ _ Hnext Hinv ltac:(lia) Hcount).
    destruct (NextToken_step _ _ _ Hnext Hinv ltac:(lia))
      as [Hinv1 [[-> (pre & Hpre & Hend)]|(Hpos1 & (new & Hnew) & Hat1)]].
    + exfalso. rewrite Hpre in Ht, Hend. rewrite length_app in Hend. cbn in Hend.
      replace (Z.to_nat (curr_pos_ lx)) with (length pre) in Ht by lia.
      rewrite lookup_app_r, Nat.sub_diag in Ht by lia.
      injection Ht as <-. discriminate.
    + apply IH; try assumption; try lia.
      apply lookup_lt_Some in Hat1. exact Hat1.
Qed.

Lemma tokenize_progress input : returns_or_throws (tokenize input).
Proof.
  unfold tokenize, new_Lexer.
  set (lx0 := mk_Lexer (from_chars input) [] (-1) 0).
  assert (Hinit : indent_invariant lx0).
  { left. cbn. repeat split; try reflexivity; try lia. constructor. }
  assert (Hcount0 : count_invariant (length input) lx0).
  { split; cbn; [lia|]. unfold left. cbn. change (Z.quot 0 2) with 0. lia. }
  destruct (NextToken_progress lx0) as [[[t lx] Hfirst]|[e Hfirst]];
    rewrite Hfirst; cbn; [|right; exists e; reflexivity].
  assert (Hcount := NextToken_count_step _ _ _ _ Hfirst Hinit ltac:(cbn; lia) Hcount0).
  destruct (NextToken_step _ _ _ Hfirst Hinit ltac:(cbn; lia))
    as [Hinv [[_ (pre & Hpre & _)]|(Hpos & _ & Hat)]].
  { destruct pre; discriminate. }
  cbn in Hpos.
  apply (drain_progress (length input)); try assumption; try lia.
  rewrite Hpos. apply lookup_lt_Some in Hat. rewrite Hpos in Hat. exact Hat.
Qed.

(** X26: Reading a whole input, from the construction of the lexer to [Eof],
    always comes to a result: the sequence of tokens, or an exception of
    the lexer. *)
Theorem tokenize_returns_or_throws input : returns_or_throws (tokenize input).
Proof. apply tokenize_progress. Qed.

End TokenCount.
(** ** The cursor of the lexer *)

Section Cursor.

Import stream parse lexer_vocabulary indent_vocabulary cursor_vocabulary.

Lemma NextToken_at_Eof lx pre :
  lexer_tokens_ lx = pre ++ [token_type.Eof] ->
  curr_pos_ lx + 1 = Z.of_nat (length (lexer_tokens_ lx)) ->
  NextToken lx = Ok (token_type.Eof, lx).
Proof.
  intros Hpre Hend. unfold NextToken.
  apply Z.eqb_eq in Hend. rewrite Hend, Hpre, last_snoc.
  rewrite bool_decide_eq_false_2 by (destruct pre; discriminate).
  reflexivity.
Qed.

Lemma reachable_invariant input lx :
  reachable input true lx ->
  indent_invariant lx
  /\ 0 <= curr_pos_ lx
  /\ (Z.to_nat (curr_pos_ lx) < length (lexer_tokens_ lx))%nat.
Proof.
  intros H. remember true as intact eqn:Hintact.
  induction H as [lx Hnew|lx t lx' _ IH Hnext|intact lx e s _ _ _];
    [| |discriminate].
  - unfold new_Lexer in Hnew.
    destruct (NextToken (mk_Lexer (from_chars input) [] (-1) 0))
      as [[t lx0]| | |] eqn:Hfirst; cbn in Hnew; try discriminate.
    injection Hnew as ->.
    assert (Hinit : indent_invariant (mk_Lexer (from_chars input) [] (-1) 0)).
    { left. cbn. repeat split; try reflexivity; try lia. constructor. }
    destruct (NextToken_step _ _ _ Hfirst Hinit ltac:(cbn; lia))
      as [Hinv [[_ (pre & Hpre & _)]|(Hpos & _ & Hat)]].
    { destruct pre; discriminate. }
    cbn in Hpos. split; [assumption|]. split; [lia|].
    apply lookup_lt_Some in Hat. exact Hat.
  - destruct (IH Hintact) as (Hinv & Hpos & Hlt).
    destruct (NextToken_step _ _ _ Hnext Hinv ltac:(lia))
      as [Hinv1 [[-> _]|(Hpos1 & _ & Hat1)]]; [auto|].
    split; [assumption|]. split; [lia|].
    apply lookup_lt_Some in Hat1. exact Hat1.
Qed.

Lemma at_behind_the_end ts pos :
  Z.of_nat (length ts) <= pos -> at_ ts pos = Throw lex_out_of_range.
Proof.
  intros H. unfold at_. destruct (pos <? 0); [reflexivity|].
  rewrite lookup_ge_None_2 by lia. reflexivity.
Qed.

(** A call of [NextToken] that throws with the cursor on a token has the
    cursor on the last token: it throws while it reads the next line. *)
Lemma NextToken_throws_at_the_end lx e :
  NextToken lx = Throw e ->
  0 <= curr_pos_ lx ->
  (Z.to_nat (curr_pos_ lx) < length (lexer_tokens_ lx))%nat ->
  curr_pos_ lx + 1 = Z.of_nat (length (lexer_tokens_ lx)).
Proof.
  intros Hnext Hpos Hlt. unfold NextToken in Hnext.
  destruct (curr_pos_ lx + 1 =? Z.of_nat (length (lexer_tokens_ lx))) eqn:Hend;
    [apply Z.eqb_eq, Hend|].
  apply Z.eqb_neq in Hend. exfalso. unfold at_ in Hnext.
  destruct (curr_pos_ lx + 1 <? 0) eqn:Hneg; [apply Z.ltb_lt in Hneg; lia|].
  destruct (lookup_lt_is_Some_2 (lexer_tokens_ lx) (Z.to_nat (curr_pos_ lx + 1))
              ltac:(lia)) as [t Ht].
  rewrite Ht in Hnext. discriminate.
Qed.

Lemma NextToken_behind_the_end lx :
  Z.of_nat (length (lexer_tokens_ lx)) <= curr_pos_ lx ->
  NextToken lx = Throw lex_out_of_range.
Proof.
  intros H. unfold NextToken.
  destruct (curr_pos_ lx + 1 =? Z.of_nat (length (lexer_tokens_ lx))) eqn:Hend;
    [apply Z.eqb_eq in Hend; lia|].
  rewrite at_behind_the_end by lia. reflexivity.
Qed.

(** Once a call has thrown the cursor is behind the last token. *)
Lemma reachable_after_throw input lx :
  reachable input false lx ->
  Z.of_nat (length (lexer_tokens_ lx)) <= curr_pos_ lx.
Proof.
  intros H. remember false as intact eqn:Hintact.
  induction H as [| |intact lx e s Hreach IH Hnext]; try discriminate.
  cbn. destruct intact.
  - destruct (reachable_invariant _ _ Hreach) as (_ & Hpos & Hlt).
    assert (Hend := NextToken_throws_at_the_end lx e Hnext Hpos Hlt). lia.
  - specialize (IH eq_refl). lia.
Qed.

(** X28: The contract of the cursor, and what is left of it after an
    exception.  As long as every call has returned: [CurrentToken] returns a
    token (the vector is not empty and the cursor is inside it); a call of
    [NextToken] that returns keeps the tokens produced so far and returns
    the token the cursor is on afterwards; and once the current token is
    [Eof], [NextToken] returns [Eof] again and leaves the lexer as it is.
    Once a call of [NextToken] has thrown, the lexer is of no use: the
    cursor has been moved behind the last token and is not moved back, so
    [CurrentToken] throws [std::out_of_range], and so does every further
    call of [NextToken]. *)
Theorem cursor_contract input intact lx :
  reachable input intact lx ->
  if intact then
    (exists t, CurrentToken lx = Ok t)
    /\ (forall t lx',
          NextToken lx = Ok (t, lx') ->
          CurrentToken lx' = Ok t
          /\ exists new, lexer_tokens_ lx' = lexer_tokens_ lx ++ new)
    /\ (CurrentToken lx = Ok token_type.Eof ->
        NextToken lx = Ok (token_type.Eof, lx))
  else
    CurrentToken lx = Throw lex_out_of_range
    /\ NextToken lx = Throw lex_out_of_range.
Proof.
  intros Hreach. destruct intact.
  2:{ assert (H := reachable_after_throw _ _ Hreach). split.
      - apply at_behind_the_end, H.
      - apply NextToken_behind_the_end, H. }
  destruct (reachable_invariant _ _ Hreach) as (Hinv & Hpos & Hlt).
  assert (Hcur : forall l, 0 <= curr_pos_ l ->
            forall t, lexer_tokens_ l !! Z.to_nat (curr_pos_ l) = Some t ->
            CurrentToken l = Ok t).
  { intros l Hl t Ht. unfold CurrentToken, at_.
    destruct (curr_pos_ l <? 0) eqn:Hneg; [apply Z.ltb_lt in Hneg; lia|].
    rewrite Ht. reflexivity. }
  split; [|split].
  - destruct (lookup_lt_is_Some_2 _ _ Hlt) as [t Ht]. exists t. auto.
  - intros t lx' Hnext.
    destruct (NextToken_step _ _ _ Hnext Hinv ltac:(lia))
      as [Hinv1 [[-> (pre & Hpre & Hend)]|(Hpos1 & Hnew & Hat1)]].
    + rewrite (NextToken_at_Eof lx pre Hpre Hend) in Hnext. injection Hnext as <-.
      split; [|exists []; rewrite app_nil_r; reflexivity].
      apply Hcur; [assumption|]. rewrite Hpre in Hend |- *.
      rewrite length_app in Hend. cbn in Hend.
      replace (Z.to_nat (curr_pos_ lx)) with (length pre) by lia.
      rewrite lookup_app_r, Nat.sub_diag by lia. reflexivity.
    + split; [apply Hcur; [lia|assumption]|assumption].
  - intros HEof. apply at_Ok in HEof as [_ HEof].
    destruct Hinv as [(HnoEof & _)|(_ & _ & _ & (pre & Hpre & HpreEof) & _)].
    { rewrite Forall_lookup in HnoEof. specialize (HnoEof _ _ HEof). discriminate. }
    apply (NextToken_at_Eof lx pre Hpre).
    rewrite Hpre in HEof, Hlt |- *. rewrite length_app in Hlt |- *. cbn in Hlt |- *.
    destruct (decide (Z.to_nat (curr_pos_ lx) < length pre)%nat) as [Hin|]; [|lia].
    rewrite lookup_app_l in HEof by assumption.
    rewrite Forall_lookup in HpreEof. specialize (HpreEof _ _ HEof). discriminate.
Qed.

(** The lexer of the empty input, and the lexer of [x], newline and a line
    indented by three spaces after the second call of [NextToken], which
    throws [Bad indent size.]; [spent] is a stream at its end. *)
Lemma cursor_contract_witness :
  let lx := mk_Lexer (mk_istream [] [] false true) [token_type.Eof] 0 0 in
  let spent := mk_istream [] [] true true in
  let thrown := mk_Lexer spent [token_type.Id "x"; token_type.Newline] 2 0 in
  ((exists t, CurrentToken lx = Ok t)
   /\ (forall t lx',
         NextToken lx = Ok (t, lx') ->
         CurrentToken lx' = Ok t
         /\ exists new, lexer_tokens_ lx' = lexer_tokens_ lx ++ new)
   /\ (CurrentToken lx = Ok token_type.Eof ->
       NextToken lx = Ok (token_type.Eof, lx)))
  /\ (CurrentToken thrown = Throw lex_out_of_range
      /\ NextToken thrown = Throw lex_out_of_range).
Proof.
  split.
  - apply (cursor_contract [] true). apply reachable_new. vm_compute. reflexivity.
  - apply (cursor_contract (chars "x" ++ ["010"%char] ++ chars "   y") false).
    apply (reachable_throw _ true
             (mk_Lexer (good_stream ["010"%char; "x"%char] (chars "   y"))
                [token_type.Id "x"; token_type.Newline] 1 0)
             (LexerError "Bad indent size.")).
    + apply (reachable_next _
               (mk_Lexer (good_stream ["010"%char; "x"%char] (chars "   y"))
                  [token_type.Id "x"; token_type.Newline] 0 0)
               token_type.Newline).
      * apply reachable_new. vm_compute. reflexivity.
      * vm_compute. reflexivity.
    + vm_compute. reflexivity.
Defined.

End Cursor.
(** ** Comparison and output of tokens *)

Section TokenOperators.

Import token_operators.

(** X18: [operator==] never reaches for an alternative a token does not hold,
    and it is equality: two tokens are equal exactly when they hold the same
    alternative and, for [Number], [Id], [String] and [Char], the same
    value.  [operator!=] is its negation. *)
Theorem operator_eq_is_equality lhs rhs :
  (exists b, operator_eq lhs rhs = Some b /\ operator_ne lhs rhs = Some (negb b))
  /\ (operator_eq lhs rhs = Some true <-> lhs = rhs).
Proof.
  unfold operator_ne.
  destruct lhs, rhs; cbn;
    (split; [eexists; split; reflexivity|]);
    try (split; [discriminate|discriminate]);
    try (split; reflexivity).
  all: split; intros H;
    [ injection H as H;
      first [apply Z.eqb_eq in H|apply String.eqb_eq in H|apply Ascii.eqb_eq in H];
      subst; reflexivity
    | injection H as ->;
      rewrite ?Z.eqb_refl, ?String.eqb_refl, ?Ascii.eqb_refl; reflexivity ].
Qed.

Lemma append_cons c (s t : string) :
  String.String c s +:+ t = String.String c (s +:+ t).
Proof. reflexivity. Qed.

Lemma append_nil_l (t : string) : "" +:+ t = t.
Proof. reflexivity. Qed.

Lemma length_append (s t : string) :
  String.length (s +:+ t) = (String.length s + String.length t)%nat.
Proof.
  induction s as [|c s IH]; [reflexivity|].
  rewrite append_cons. cbn [String.length]. rewrite IH. reflexivity.
Qed.

Lemma append_cancel_r (s1 s2 t : string) : s1 +:+ t = s2 +:+ t -> s1 = s2.
Proof.
  revert s2. induction s1 as [|c s1 IH]; intros [|c2 s2] H.
  - reflexivity.
  - exfalso. apply (f_equal String.length) in H.
    rewrite append_nil_l, append_cons in H. cbn [String.length] in H.
    rewrite length_append in H. lia.
  - exfalso. apply (f_equal String.length) in H.
    rewrite append_nil_l, append_cons in H. cbn [String.length] in H.
    rewrite length_append in H. lia.
  - rewrite !append_cons in H. injection H as -> H. f_equal. apply IH, H.
Qed.

Lemma to_int_not_nil v :
  Z.to_int v <> Decimal.Pos Decimal.Nil /\ Z.to_int v <> Decimal.Neg Decimal.Nil.
Proof.
  split; intros H; assert (Hv := f_equal Z.of_int H);
    rewrite DecimalZ.of_to in Hv; cbn in Hv; subst v; discriminate H.
Qed.

(** [os << value] for an [int] writes different numbers differently. *)
Lemma decimal_inj v1 v2 : runtime.decimal v1 = runtime.decimal v2 -> v1 = v2.
Proof.
  unfold runtime.decimal. intros H.
  apply (f_equal NilZero.int_of_string) in H.
  destruct (to_int_not_nil v1), (to_int_not_nil v2).
  rewrite !NilZero.isi in H by assumption.
  injection H as H. apply DecimalZ.to_int_inj, H.
Qed.

(** X19: [operator<<] writes different tokens differently (so that the text
    tells which token it was), and never the text for an unknown token. *)
Theorem operator_out_tells_tokens_apart lhs rhs :
  lhs <> rhs ->
  operator_out lhs <> operator_out rhs
  /\ operator_out lhs <> "Unknown token :(".
Proof.
  intros Hne. split.
  - intros H. apply Hne. clear Hne.
    destruct lhs, rhs; try reflexivity; unfold operator_out in H;
      rewrite ?append_cons, ?append_nil_l in H; try discriminate H;
      injection H as H; f_equal.
    + apply decimal_inj, (append_cancel_r _ _ _ H).
    + apply (append_cancel_r _ _ _ H).
    + apply (append_cancel_r _ _ _ H).
    + exact H.
  - destruct lhs; unfold operator_out;
      rewrite ?append_cons, ?append_nil_l; discriminate.
Qed.

Lemma operator_out_tells_tokens_apart_witness :
  operator_out (token_type.Id "None") <> operator_out token_type.None
  /\ operator_out (token_type.Id "None") <> "Unknown token :(".
Proof.
  apply (operator_out_tells_tokens_apart (token_type.Id "None") token_type.None).
  discriminate.
Defined.

Example operator_out_examples :
  operator_out (token_type.Number 42) = "Number{42}"
  /\ operator_out (token_type.Char "+"%char) = "Char{+}"
  /\ operator_out (token_type.Id "x") = "Id{x}"
  /\ operator_out token_type.Eof = "Eof".
Proof. repeat split. Qed.

End TokenOperators.

(** ** The line that carries [Eof] *)

Section EofLine.

Import stream parse lexer_vocabulary indent_vocabulary progress_vocabulary
  eof_vocabulary.

Lemma inline_has_no_Eof line :
  Forall (fun t => inline t = true) (tokens_ line) -> has_Eof line = false.
Proof.
  unfold has_Eof. induction 1 as [|t ts Ht _ IH]; [reflexivity|].
  cbn. rewrite IH. destruct t; cbn in Ht; try discriminate; reflexivity.
Qed.

Lemma closed_by_Eof_has_Eof line pre :
  tokens_ line = pre ++ [token_type.Eof] -> has_Eof line = true.
Proof.
  intros H. unfold has_Eof. rewrite H, existsb_app. cbn. apply orb_true_r.
Qed.

Lemma empty_line_has_no_Eof line : IsEmpty line = true -> has_Eof line = false.
Proof.
  unfold IsEmpty, has_Eof. destruct (tokens_ line) as [|t ts]; [reflexivity|].
  generalize (t :: ts). intros l. induction l as [|x l IH]; [reflexivity|].
  cbn. intros H. apply andb_prop in H as [Hx Hl]. rewrite (IH Hl).
  destruct x; try discriminate; reflexivity.
Qed.

Lemma ReadLine_takes_a_character s line s1 :
  ReadLine s = Ok (line, s1) -> has_Eof line = false -> (left s1 < left s)%nat.
Proof.
  intros Hread Hno.
  destruct (ReadLine_progress s) as [(line' & s' & Hr & _ & [Hlt|(pre & Hpre)])|[e He]].
  - rewrite Hread in Hr. injection Hr as <- <-. exact Hlt.
  - rewrite Hread in Hr. injection Hr as <- <-.
    rewrite (closed_by_Eof_has_Eof _ _ Hpre) in Hno. discriminate.
  - rewrite Hread in He. discriminate.
Qed.

Lemma Eof_line_from_fuel n : forall s fuel,
  (left s < n)%nat -> (left s < fuel)%nat ->
  Eof_line_from fuel s = Eof_line_from n s.
Proof.
  induction n as [|n IH]; intros s fuel Hn Hfuel; [lia|].
  destruct fuel as [|fuel]; [lia|]. cbn [Eof_line_from].
  destruct (ReadLine s) as [[line s1]| | |] eqn:Hread; try reflexivity.
  cbn. destruct (has_Eof line) eqn:HEof; [reflexivity|].
  assert (Hlt := ReadLine_takes_a_character s line s1 Hread HEof).
  apply IH; lia.
Qed.

Lemma next_line_Eof_line fuel : forall s line s1,
  next_line fuel s = Ok (line, s1) ->
  Eof_line_from (S (left s)) s
  = if has_Eof line then Ok line else Eof_line_from (S (left s1)) s1.
Proof.
  induction fuel as [|fuel IH]; intros s line s1 H; cbn [next_line] in H;
    [discriminate|].
  destruct (ReadLine s) as [[l1 s']| | |] eqn:Hread; cbn in H; try discriminate.
  change (Eof_line_from (S (left s)) s)
    with ('(line, s1) ← ReadLine s;
          if has_Eof line then Ok line else Eof_line_from (left s) s1).
  rewrite Hread. cbn [mbind Outcome_mbind Outcome_bind].
  destruct (IsEmpty l1) eqn:Hempty.
  - rewrite (empty_line_has_no_Eof l1 Hempty).
    assert (Hlt := ReadLine_takes_a_character s l1 s' Hread
                     (empty_line_has_no_Eof l1 Hempty)).
    rewrite (Eof_line_from_fuel (S (left s')) s' (left s)) by lia.
    apply IH, H.
  - injection H as <- <-. destruct (has_Eof l1) eqn:HEof; [reflexivity|].
    assert (Hlt := ReadLine_takes_a_character s l1 s' Hread HEof).
    apply Eof_line_from_fuel; lia.
Qed.

Lemma NextToken_Eof_line input lx t lx' :
  NextToken lx = Ok (t, lx') ->
  indent_invariant lx ->
  -1 <= curr_pos_ lx ->
  Eof_line_invariant input lx -> Eof_line_invariant input lx'.
Proof.
  intros Hnext Hinv Hpos Hex. unfold NextToken in Hnext.
  destruct (curr_pos_ lx + 1 =? Z.of_nat (length (lexer_tokens_ lx))) eqn:Hend.
  - destruct (negb (bool_decide (lexer_tokens_ lx = []))
              && is_Eof (List.last (lexer_tokens_ lx) token_type.None)) eqn:HEof.
    + injection Hnext as <- <-. exact Hex.
    + destruct (next_line (S (length (remaining (in_ lx)))) (in_ lx))
        as [[line s1]| | |] eqn:Hline; cbn in Hnext; try discriminate.
      destruct (Z.rem (indent_ line) 2 =? 0) eqn:Heven; cbn in Hnext;
        [|discriminate].
      apply Z.eqb_eq in Heven.
      destruct (line_tokens (current_indent_ lx) line) as [new cur] eqn:Hnew.
      destruct (at_ (lexer_tokens_ lx ++ new) (curr_pos_ lx + 1)) as [t1| | |]
        eqn:Hat; cbn in Hnext; try discriminate.
      injection Hnext as <- <-.
      assert (Hlast : forall pre, lexer_tokens_ lx <> pre ++ [token_type.Eof]).
      { intros pre Hpre. rewrite Hpre, last_snoc in HEof. cbn in HEof.
        rewrite andb_true_r in HEof. apply negb_false_iff in HEof.
        apply bool_decide_eq_true in HEof. destruct pre; discriminate. }
      destruct Hex as [(HnoEof & Hfrom)|(l0 & pre & _ & Hpre & _)];
        [|destruct (Hlast pre Hpre)].
      destruct Hinv as [(_ & Hcur & Hcur2 & Hdepth)|(_ & _ & _ & (pre & Hpre & _) & _)];
        [|destruct (Hlast pre Hpre)].
      destruct (next_line_shape _ _ _ _ Hline) as (Hind & Hshape & Hempty).
      assert (Hfrom' := next_line_Eof_line _ _ _ _ Hline).
      rewrite Hfrom in Hfrom'.
      destruct (line_tokens_depth (current_indent_ lx) line Hshape Hcur Hcur2 Hind Heven)
        as [Hd _].
      destruct (line_tokens_prefix (current_indent_ lx) line)
        as (prefix & Hprefix & HprefixEof).
      rewrite Hnew in Hd, Hprefix. cbn [fst] in Hd, Hprefix.
      destruct Hshape as [Hinline|(pre & Hpre & Hinline)].
      * left. cbn. rewrite (inline_has_no_Eof line Hinline) in Hfrom'.
        split; [|symmetry; exact Hfrom'].
        apply Forall_app_2; [assumption|]. rewrite Hprefix.
        apply Forall_app_2; [assumption|apply inline_not_Eof, Hinline].
      * right. rewrite (closed_by_Eof_has_Eof line pre Hpre) in Hfrom'.
        exists line, (lexer_tokens_ lx ++ prefix ++ pre). cbn.
        split; [exact Hfrom'|].
        split; [rewrite Hprefix, Hpre, !app_assoc; reflexivity|].
        split.
        { repeat apply Forall_app_2; try assumption. apply inline_not_Eof, Hinline. }
        split; [assumption|]. split; [assumption|].
        rewrite depth_app, Hdepth, Hd. lia.
  - destruct (at_ (lexer_tokens_ lx) (curr_pos_ lx + 1)) as [t1| | |] eqn:Hat;
      cbn in Hnext; try discriminate.
    injection Hnext as <- <-. exact Hex.
Qed.

(** What the lexer guarantees about indentation, for every input that it
    reads to [Eof]: [Eof] is the last token and occurs once; and the blocks
    left open at [Eof] are none if the line of the input that carries [Eof]
    holds nothing else, and [indent_ line / 2] otherwise.  So a last line
    that is indented and not ended by a newline leaves its blocks open. *)
Theorem tokenize_depth input ts :
  tokenize input = Ok ts ->
  exists line pre,
    Eof_line input = Ok line
    /\ ts = pre ++ [token_type.Eof]
    /\ Forall (fun t => not_Eof t = true) pre
    /\ 0 <= indent_ line /\ Z.rem (indent_ line) 2 = 0
    /\ depth ts = if IsEofOnly line then 0 else Z.quot (indent_ line) 2.
Proof.
  intros H.
  destruct (tokenize_invariant (Eof_line_invariant input) input ts
              (NextToken_Eof_line input)) as (lx' & _ & Hex & -> & pre & Hpre);
    [|exact H|].
  { left. cbn. split; [constructor|reflexivity]. }
  destruct Hex as [(HnoEof & _)|(line & pre' & Hline & Hpre' & HnoEof & Hind & Heven & Hdepth)].
  { rewrite Hpre in HnoEof. apply Forall_app in HnoEof as [_ HnoEof].
    inversion HnoEof; discriminate. }
  exists line, pre'. auto 10.
Qed.

(** X30: The counts of [Indent] and [Dedent] are equal exactly when the line
    of the input that carries [Eof] holds nothing else or is not indented. *)
Corollary tokenize_balanced input ts :
  tokenize input = Ok ts ->
  exists line,
    Eof_line input = Ok line
    /\ (count_Indent ts = count_Dedent ts
        <-> IsEofOnly line = true \/ indent_ line = 0).
Proof.
  intros H.
  destruct (tokenize_depth input ts H)
    as (line & pre & Hline & _ & _ & Hind & Heven & Hdepth).
  exists line. split; [assumption|].
  unfold depth in Hdepth. assert (Hq := even_quot _ Heven).
  destruct (IsEofOnly line); split.
  - auto.
  - intros _. lia.
  - intros Heq. right. lia.
  - intros [?|Hz]; [discriminate|]. rewrite Hz in Hdepth.
    change (Z.quot 0 2) with 0 in Hdepth. lia.
Qed.

End EofLine.

Section BalancedInputs.

Import stream parse lexer_vocabulary indent_vocabulary newline_vocabulary
  progress_vocabulary.

(** X29: On an input that is empty or ends with a newline the lexer comes to a
    result, and unless that is an exception it is a token sequence with as
    many [Dedent] tokens as [Indent] tokens. *)
Theorem input_ending_with_newline_is_balanced input :
  input = [] \/ ends_with_newline input ->
  (exists ts, tokenize input = Ok ts /\ count_Indent ts = count_Dedent ts)
  \/ exists e, tokenize input = Throw e.
Proof.
  intros Hinput. destruct (tokenize_progress input) as [[ts Hts]|[e He]].
  - left. exists ts. split; [assumption|].
    exact (balanced_when_input_ends_with_newline input ts Hinput Hts).
  - right. exists e. assumption.
Qed.

Lemma input_ending_with_newline_is_balanced_witness :
  (exists ts,
     tokenize (chars "if a:" ++ [nl] ++ chars "    x" ++ [nl]) = Ok ts
     /\ count_Indent ts = count_Dedent ts)
  \/ exists e, tokenize (chars "if a:" ++ [nl] ++ chars "    x" ++ [nl]) = Throw e.
Proof.
  apply (input_ending_with_newline_is_balanced
           (chars "if a:" ++ [nl] ++ chars "    x" ++ [nl])).
  right. exists (chars "if a:" ++ [nl] ++ chars "    x"). reflexivity.
Defined.

Lemma tokenize_balanced_witness :
  exists line,
    eof_vocabulary.Eof_line (chars "x" ++ [nl] ++ chars "  y") = Ok line
    /\ (count_Indent [token_type.Id "x"; token_type.Newline; token_type.Indent;
                      token_type.Id "y"; token_type.Newline; token_type.Eof]
        = count_Dedent [token_type.Id "x"; token_type.Newline; token_type.Indent;
                        token_type.Id "y"; token_type.Newline; token_type.Eof]
        <-> IsEofOnly line = true \/ indent_ line = 0).
Proof.
  apply (tokenize_balanced (chars "x" ++ [nl] ++ chars "  y")).
  vm_compute. reflexivity.
Defined.

(** The line that carries [Eof] in [x], newline, two spaces and [y]: the
    last line, which is indented; and in the same input with a newline at
    its end: a line that holds nothing but [Eof]. *)
Example Eof_line_of_an_open_block :
  eof_vocabulary.Eof_line (chars "x" ++ [nl] ++ chars "  y")
  = Ok (mk_TextLine 2 [token_type.Id "y"; token_type.Newline; token_type.Eof])
  /\ eof_vocabulary.Eof_line (chars "x" ++ [nl] ++ chars "  y" ++ [nl])
     = Ok (mk_TextLine 0 [token_type.Eof]).
Proof. split; vm_compute; reflexivity. Qed.

End BalancedInputs.

Section Factories.

Import runtime ast ast_factories print_vocabulary examples.

(** [Print::Variable(name)] prints the value of the variable on a line of
    its own. *)
Example Print_Variable_prints_the_value :
  Execute Final 2 (Print_Variable "seven") (Frame 0) numbers
  = (Ok ObjectHolder.None, with_output numbers ("7" +:+ newline)).
Proof. vm_compute. reflexivity. Qed.

End Factories.
